(** * Needle indexing and query orchestration: a shallow embedding

    The development follows [Indexing/needle_indexing.py], [Config/config.py]
    and [main.py].  Python strings are lists of characters (code points
    below 256), Python lists are Rocq lists, insertion-ordered dictionaries
    and the chunk table are association lists, and functions that may raise
    return a sum. *)

From Stdlib Require Import Ascii String Numbers.DecimalString Numbers.DecimalNat.
From Stdlib Require Import List Arith Bool Lia.
Import ListNotations.

(* ================================================================== *)
(** ** Python strings *)
(* ================================================================== *)

Module PyStr.

Definition str := list ascii.

Definition lit (s : string) : str := list_ascii_of_string s.

Definition len (s : str) : nat := List.length s.

Definition is_empty (s : str) : bool :=
  match s with [] => true | _ :: _ => false end.

(** [str.isspace] for one character, on the code points below 256:
    TAB, LF, VT, FF, CR, FS, GS, RS, US, SPACE, NEL and NBSP. *)
Definition isspace (c : ascii) : bool :=
  let n := nat_of_ascii c in
  ((9 <=? n) && (n <=? 13)) || ((28 <=? n) && (n <=? 32))
  || (n =? 133) || (n =? 160).

Fixpoint lstrip (s : str) : str :=
  match s with
  | [] => []
  | c :: s' => if isspace c then lstrip s' else s
  end.

Definition rstrip (s : str) : str := rev (lstrip (rev s)).

(** [s.strip()] *)
Definition strip (s : str) : str := rstrip (lstrip s).

(** [s.startswith(p)] *)
Fixpoint starts_with (p s : str) : bool :=
  match p, s with
  | [], _ => true
  | _ :: _, [] => false
  | a :: p', b :: s' => Ascii.eqb a b && starts_with p' s'
  end.

(** [s.find(sub)]; [None] stands for Python's [-1]. *)
Fixpoint find (sub s : str) : option nat :=
  if starts_with sub s then Some 0
  else match s with
       | [] => None
       | _ :: s' => option_map S (find sub s')
       end.

(** [s.rfind(sub)]; [None] stands for Python's [-1]. *)
Fixpoint rfind (sub s : str) : option nat :=
  match s with
  | [] => if starts_with sub [] then Some 0 else None
  | _ :: s' =>
      match rfind sub s' with
      | Some i => Some (S i)
      | None => if starts_with sub s then Some 0 else None
      end
  end.

(** [s[i:]] for [0 <= i] *)
Definition slice_from (i : nat) (s : str) : str := skipn i s.

(** [s[-n:]] for [0 < n] *)
Definition last_chars (n : nat) (s : str) : str := skipn (len s - n) s.

(** [s.replace(old, new)] for a non-empty [old]: occurrences are taken
    left to right and do not overlap.  [skip] counts the characters of
    a matched occurrence that are still to be passed over. *)
Fixpoint replace_from (old new : str) (skip : nat) (s : str) : str :=
  match s with
  | [] => []
  | c :: s' =>
      match skip with
      | S k => replace_from old new k s'
      | 0 =>
          if starts_with old s
          then new ++ replace_from old new (len old - 1) s'
          else c :: replace_from old new 0 s'
      end
  end.

Definition replace (old new s : str) : str := replace_from old new 0 s.

(** [s.split(sep)] for a non-empty [sep]; [acc] is the piece being read. *)
Fixpoint split_from (sep : str) (skip : nat) (acc : str) (s : str)
  : list str :=
  match s with
  | [] => [acc]
  | c :: s' =>
      match skip with
      | S k => split_from sep k acc s'
      | 0 =>
          if starts_with sep s
          then acc :: split_from sep (len sep - 1) [] s'
          else split_from sep 0 (acc ++ [c]) s'
      end
  end.

Definition split (sep s : str) : list str := split_from sep 0 [] s.

(** [sep.join(l)] *)
Fixpoint join (sep : str) (l : list str) : str :=
  match l with
  | [] => []
  | [x] => x
  | x :: l' => x ++ sep ++ join sep l'
  end.

(** [str(n)] for a natural number *)
Definition str_of_nat (n : nat) : str :=
  lit (NilEmpty.string_of_uint (Nat.to_uint n)).

Definition eqb (a b : str) : bool :=
  if list_eq_dec ascii_dec a b then true else false.

Definition space : ascii := " "%char.

End PyStr.

Import PyStr.

(* ================================================================== *)
(** ** Dictionaries, nodes and configuration *)
(* ================================================================== *)

(** Values held in a metadata dictionary. *)
Inductive value : Type :=
| VStr (s : str)
| VInt (n : nat).

(** A Python [dict] with string keys, in insertion order. *)
Definition dict := list (str * value).

Fixpoint dict_get (k : str) (d : dict) : option value :=
  match d with
  | [] => None
  | (k', v) :: d' => if PyStr.eqb k' k then Some v else dict_get k d'
  end.

Definition dict_has (k : str) (d : dict) : bool :=
  match dict_get k d with Some _ => true | None => false end.

(** [d[k] = v]: an existing key keeps its place, a new key is appended. *)
Fixpoint dict_set (k : str) (v : value) (d : dict) : dict :=
  match d with
  | [] => [(k, v)]
  | (k', v') :: d' =>
      if PyStr.eqb k' k then (k', v) :: d' else (k', v') :: dict_set k v d'
  end.

(** [d.update(other)] *)
Definition dict_update (d other : dict) : dict :=
  fold_left (fun acc kv => dict_set (fst kv) (snd kv) acc) other d.

(** [Document] and [TextNode] of llama_index: the three attributes the
    code reads and writes. *)
Record Node : Type := mkNode {
  id_ : str;
  text : str;
  metadata : dict
}.

(** [Config/config.py] *)
Module config.

(** Small chunks for precise retrieval. *)
Definition CHUNK_SIZE : nat := 300.

(** Overlap between chunks. *)
Definition CHUNK_OVERLAP : nat := 40.

End config.

Definition nl : ascii := "010"%char.

(* ================================================================== *)
(** ** [create_needle_chunks] *)
(* ================================================================== *)

Section Chunker.

(** The two configuration values the chunker reads. *)
Variables CHUNK_SIZE CHUNK_OVERLAP : nat.

(** The node built at each of the three emission sites: a [TextNode]
    with text [t], the parent's metadata, and the four chunk keys, where
    [chunks] is the page's list of nodes emitted so far. *)
Definition new_node (parent_doc : Node) (chunks : list Node) (t : str)
  : Node :=
  let chunk_id :=
    id_ parent_doc ++ lit "_chunk_" ++ str_of_nat (List.length chunks) in
  let m := dict_update [] (metadata parent_doc) in
  let m := dict_set (lit "chunk_index") (VInt (List.length chunks)) m in
  let m := dict_set (lit "parent_id") (VStr (id_ parent_doc)) m in
  let m := dict_set (lit "chunk_id") (VStr chunk_id) m in
  let m := dict_set (lit "chunk_size") (VInt (len t)) m in
  {| id_ := chunk_id; text := t; metadata := m |}.

(** Lines 119-132: the text that opens the next buffer, for a closed
    buffer longer than the overlap. *)
Definition overlap_seed (current_chunk : str) : str :=
  let overlap_text := last_chars CHUNK_OVERLAP current_chunk in
  let overlap_text :=
    match find (lit " ") overlap_text with
    | Some first_space => slice_from (first_space + 1) overlap_text
    | None => overlap_text
    end in
  match rfind (lit ". ") overlap_text with
  | Some last_period => slice_from (last_period + 2) overlap_text
  | None => overlap_text
  end.

(** Lines 117-134: the buffer after a chunk has been closed. *)
Definition next_buffer (current_chunk sent : str) : str :=
  if CHUNK_OVERLAP <? len current_chunk
  then overlap_seed current_chunk ++ lit " " ++ sent
  else sent.

(** One iteration of [for sent in sentences], on the pair of the page's
    chunk list and the running buffer. *)
Definition sentence_step (parent_doc : Node)
  (st : list Node * str) (sent : str) : list Node * str :=
  let '(chunks, current_chunk) := st in
  let sent := strip sent in
  if is_empty sent then st
  else if negb (is_empty current_chunk)
          && (CHUNK_SIZE <? len current_chunk + len sent + 1)
  then (chunks ++ [new_node parent_doc chunks (strip current_chunk)],
        next_buffer current_chunk sent)
  else (chunks,
        current_chunk
          ++ (if is_empty current_chunk then [] else lit " ") ++ sent).

(** [para.replace('. ', '.|').split('|')] *)
Definition sentences_of (para : str) : list str :=
  split (lit "|") (replace (lit ". ") (lit ".|") para).

(** One iteration of [for para in paragraphs]. *)
Definition paragraph_step (parent_doc : Node)
  (chunks : list Node) (para : str) : list Node :=
  let para := strip para in
  if is_empty para then chunks
  else if len para <=? CHUNK_SIZE
  then chunks ++ [new_node parent_doc chunks para]
  else
    let '(chunks, current_chunk) :=
      fold_left (sentence_step parent_doc) (sentences_of para) (chunks, [])
    in
    if is_empty (strip current_chunk) then chunks
    else chunks ++ [new_node parent_doc chunks (strip current_chunk)].

(** The body of [for parent_doc in documents]: the page's [chunks]. *)
Definition page_chunks (parent_doc : Node) : list Node :=
  fold_left (paragraph_step parent_doc)
    (split [nl; nl] (text parent_doc)) [].

(** [create_needle_chunks]: the parent nodes and the child nodes. *)
Definition create_needle_chunks_with (documents : list Node)
  : list Node * list Node :=
  (documents, flat_map page_chunks documents).

End Chunker.

Definition create_needle_chunks (documents : list Node)
  : list Node * list Node :=
  create_needle_chunks_with config.CHUNK_SIZE config.CHUNK_OVERLAP documents.

(** Building blocks of the example pages. *)
Definition word9 : str := lit "abcdefghi".
Definition words (n : nat) : str := join (lit " ") (repeat word9 n).
Definition mkdoc (i t : str) : Node :=
  {| id_ := i; text := t;
     metadata := [(lit "page_id", VStr i);
                  (lit "header", VStr (lit "Header"))] |}.

(* ================================================================== *)
(** ** Ghost trace of the sentence loop

    A piece records how a buffer was built: the seed copied from the
    chunk closed before it, if any, and the sentences appended since.
    The trace functions below repeat the control flow of
    [sentence_step] and [paragraph_step] on pieces; [page_chunks_texts]
    shows that they emit the texts the code emits. *)
(* ================================================================== *)

Record piece : Type := mkPiece {
  seed : option str;
  group : list str
}.

Definition body (p : piece) : str := join (lit " ") (group p).

Definition buffer (p : piece) : str :=
  match seed p with
  | Some s => s ++ lit " " ++ body p
  | None => body p
  end.

Definition piece_text (p : piece) : str := strip (buffer p).

Section Trace.

Variables CHUNK_SIZE CHUNK_OVERLAP : nat.

Definition next_piece (cur : piece) (sent : str) : piece :=
  {| seed := if CHUNK_OVERLAP <? len (buffer cur)
             then Some (overlap_seed CHUNK_OVERLAP (buffer cur))
             else None;
     group := [sent] |}.

Definition piece_step (st : list piece * piece) (sent : str)
  : list piece * piece :=
  let '(out, cur) := st in
  let sent := strip sent in
  if is_empty sent then st
  else if negb (is_empty (buffer cur))
          && (CHUNK_SIZE <? len (buffer cur) + len sent + 1)
  then (out ++ [cur], next_piece cur sent)
  else (out, {| seed := seed cur; group := group cur ++ [sent] |}).

Definition empty_piece : piece := {| seed := None; group := [] |}.

Definition close_pieces (st : list piece * piece) : list piece :=
  match group (snd st) with
  | [] => fst st
  | _ :: _ => fst st ++ [snd st]
  end.

(** The pieces of one stripped, non-empty paragraph. *)
Definition para_pieces (para : str) : list piece :=
  if len para <=? CHUNK_SIZE
  then [{| seed := None; group := [para] |}]
  else close_pieces
         (fold_left piece_step (sentences_of para) ([], empty_piece)).

(** The page's paragraphs as the loop sees them: stripped, the empty
    ones skipped. *)
Definition paragraphs_of (t : str) : list str :=
  filter (fun p => negb (is_empty p)) (map strip (split [nl; nl] t)).

(** The sentence units of a paragraph as the loop sees them. *)
Definition units_of (para : str) : list str :=
  filter (fun s => negb (is_empty s)) (map strip (sentences_of para)).

Definition page_pieces (t : str) : list (list piece) :=
  map para_pieces (paragraphs_of t).

End Trace.

(* ================================================================== *)
(** ** Predicates used in the statements *)
(* ================================================================== *)

(** A string whose last character is not white space. *)
Definition ends_nonspace (s : str) : Prop :=
  exists s' c, s = s' ++ [c] /\ isspace c = false.

(** A string whose first character is not white space. *)
Definition starts_nonspace (s : str) : Prop :=
  exists c s', s = c :: s' /\ isspace c = false.

(** A stripped, non-empty string. *)
Definition clean (s : str) : Prop := starts_nonspace s /\ ends_nonspace s.

(** Pieces the trace can reach: clean sentences, and a seed only in
    front of at least one sentence. *)
Definition wf_piece (p : piece) : Prop :=
  Forall clean (group p) /\ (group p = [] -> seed p = None).

(** The state of the code's loop and the state of the trace agree:
    same buffer, and the texts emitted since [base] are the texts of the
    pieces emitted. *)
Definition sim (base : list str) (st : list Node * str)
  (tr : list piece * piece) : Prop :=
  snd st = buffer (snd tr)
  /\ wf_piece (snd tr)
  /\ Forall (fun p => wf_piece p /\ group p <> []) (fst tr)
  /\ map text (fst st) = base ++ map piece_text (fst tr).

(** Every node sits at its own index: it is the node the code builds
    when the nodes before it are the ones emitted so far. *)
Definition indexed (parent_doc : Node) (chunks : list Node) : Prop :=
  forall i n, nth_error chunks i = Some n ->
    n = new_node parent_doc (firstn i chunks) (text n).

(** [sub] occurs in [s]. *)
Definition occurs (sub s : str) : Prop :=
  exists pre post, s = pre ++ sub ++ post.

(** The seed as the specification words it.  (a) A partial leading word
    is dropped by advancing past the first space. *)
Inductive drop_partial_word : str -> str -> Prop :=
| dpw_space pre post :
    ~ In space pre -> drop_partial_word (pre ++ space :: post) post
| dpw_none w :
    ~ In space w -> drop_partial_word w w.

(** (b) If a sentence boundary occurs, everything up to and including
    the last one is dropped. *)
Inductive fresh_sentence : str -> str -> Prop :=
| fs_boundary pre post :
    ~ occurs (lit ". ") post ->
    fresh_sentence (pre ++ lit ". " ++ post) post
| fs_none w :
    ~ occurs (lit ". ") w -> fresh_sentence w w.

(** The corrected seed of a closed buffer: its trailing [overlap]
    characters, then (a), then (b). *)
Definition spec_seed (overlap : nat) (closed seed_text : str) : Prop :=
  exists w,
    drop_partial_word (last_chars overlap closed) w
    /\ fresh_sentence w seed_text.

(** The seed the piece after [prev] carries. *)
Definition expected_seed (overlap : nat) (prev : option piece) : option str :=
  match prev with
  | None => None
  | Some p =>
      if overlap <? len (buffer p)
      then Some (overlap_seed overlap (buffer p))
      else None
  end.

(** Each piece carries the seed computed from the piece before it. *)
Fixpoint chain (overlap : nat) (prev : option piece) (ps : list piece)
  : Prop :=
  match ps with
  | [] => True
  | q :: ps' =>
      seed q = expected_seed overlap prev /\ chain overlap (Some q) ps'
  end.

(** [a] ends with the [n] characters [b] begins with. *)
Definition shares_overlap (n : nat) (a b : str) : Prop :=
  n <= len a /\ n <= len b /\ last_chars n a = firstn n b.

(** [s] is the end of [closed], and begins inside a word of it: the
    character before it and its first character are both not white
    space. *)
Definition starts_mid_word (closed s : str) : Prop :=
  exists pre a b rest,
    closed = pre ++ a :: s /\ s = b :: rest
    /\ isspace a = false /\ isspace b = false.

(** The units a paragraph contributes: itself when it fits, its
    sentence units otherwise. *)
Definition para_units (chunk_size : nat) (para : str) : list str :=
  if len para <=? chunk_size then [para] else units_of para.

(** The text a chunk holds after its seed. *)
Definition piece_text_spec (p : piece) : str :=
  match seed p with
  | Some s => lstrip s ++ lit " " ++ body p
  | None => body p
  end.

(** A piece fits the chunk size or holds exactly one sentence. *)
Definition fits (chunk_size : nat) (p : piece) : Prop :=
  len (buffer p) <= chunk_size \/ exists s, group p = [s].

(** A seed, when there is one, ends in a character that is not white
    space (so it is not empty). *)
Definition seed_ok (p : piece) : Prop :=
  forall s, seed p = Some s -> ends_nonspace s.

(** The last piece of [l], or [prev] when [l] is empty. *)
Definition last_opt (prev : option piece) (l : list piece) : option piece :=
  fold_left (fun _ x => Some x) l prev.

(** What the trace keeps true from one sentence to the next. *)
Definition tr_inv (chunk_size overlap : nat) (st : list piece * piece)
  : Prop :=
  wf_piece (snd st)
  /\ Forall (fun p => wf_piece p /\ group p <> []) (fst st)
  /\ Forall (fits chunk_size) (fst st)
  /\ (len (buffer (snd st)) <= chunk_size \/ exists s, group (snd st) = [s])
  /\ Forall seed_ok (fst st)
  /\ seed_ok (snd st)
  /\ chain overlap None (fst st)
  /\ seed (snd st) = expected_seed overlap (last_opt None (fst st)).

(** The pieces of a finished paragraph. *)
Definition pieces_ok (chunk_size overlap : nat) (ps : list piece) : Prop :=
  Forall (fun p => wf_piece p /\ group p <> []) ps
  /\ Forall (fits chunk_size) ps
  /\ Forall seed_ok ps
  /\ chain overlap None ps.

(** The sentence units as the specification words them: the paragraph is
    cut after every full stop that is followed by a space (the space is
    dropped). *)
Fixpoint cut_sentences (acc : str) (s : str) : list str :=
  match s with
  | [] => [acc]
  | c :: rest =>
      match rest with
      | c' :: rest' =>
          if Ascii.eqb c "."%char && Ascii.eqb c' " "%char
          then (acc ++ [c]) :: cut_sentences [] rest'
          else cut_sentences (acc ++ [c]) rest
      | [] => cut_sentences (acc ++ [c]) rest
      end
  end.

Definition spec_units (chunk_size : nat) (para : str) : list str :=
  if len para <=? chunk_size then [para]
  else filter (fun s => negb (is_empty s)) (map strip (cut_sentences [] para)).

(** Remove the first [n] characters of each text, for the [n] of
    [cuts] at the same position. *)
Fixpoint cut_prefixes (cuts : list nat) (texts : list str) : list str :=
  match cuts, texts with
  | n :: cuts', t :: texts' => skipn n t :: cut_prefixes cuts' texts'
  | _, _ => texts
  end.

(** *** Example pages *)

Definition sentence (n : nat) : str := words n ++ lit ".".

Definition page_two_sentences : Node :=
  mkdoc (lit "page_1") (sentence 10 ++ lit " " ++ sentence 29).

Definition long_token : str := repeat "x"%char 60.

Definition page_long_token : Node :=
  mkdoc (lit "page_1")
    (lit "See " ++ long_token ++ lit ". " ++ sentence 29).

Definition page_short_opening : Node :=
  mkdoc (lit "page_1") (lit "Hi. " ++ sentence 30).

Definition para_four_chunks : str :=
  lit "Hi. " ++ sentence 30 ++ lit " " ++ sentence 25 ++ lit " " ++ sentence 5.

Definition page_two_paragraphs : Node :=
  mkdoc (lit "page_1") (lit "Alpha one." ++ [nl; nl] ++ lit " Beta two. ").

(** *** The claims as they are worded, where the code departs from them *)

(** Overlap seeding, as worded: every closed chunk seeds the next
    buffer with its corrected trailing characters. *)
Definition seeding_claim : Prop :=
  forall (parent_doc : Node) (chunks : list Node) (current_chunk sent : str),
    current_chunk <> [] -> strip sent <> [] ->
    config.CHUNK_SIZE < len current_chunk + len (strip sent) + 1 ->
    exists seed_text,
      spec_seed config.CHUNK_OVERLAP current_chunk seed_text
      /\ snd (sentence_step config.CHUNK_SIZE config.CHUNK_OVERLAP parent_doc
                (chunks, current_chunk) sent)
         = seed_text ++ lit " " ++ strip sent.

(** Exact overlap, as worded: two consecutive chunks of a paragraph, the
    second not being the paragraph's last, share exactly the configured
    number of characters. *)
Definition exact_overlap_claim : Prop :=
  forall (para : str) (l1 : list piece) (p q : piece) (l2 : list piece),
    clean para ->
    para_pieces config.CHUNK_SIZE config.CHUNK_OVERLAP para
      = l1 ++ p :: q :: l2 ->
    l2 <> [] ->
    shares_overlap config.CHUNK_OVERLAP (piece_text p) (piece_text q).

(** Coverage, as worded, in its weakest reading: some prefix can be cut
    from each chunk text so that the rest, concatenated, is the page's
    text paragraph by paragraph. *)
Definition coverage_claim : Prop :=
  forall (parent_doc : Node),
    exists cuts,
      List.concat
        (cut_prefixes cuts
           (map text (page_chunks config.CHUNK_SIZE config.CHUNK_OVERLAP
                        parent_doc)))
      = List.concat (paragraphs_of (text parent_doc)).

(* ================================================================== *)
(** ** [store_in_supabase] and [store_via_postgres]

    The chunk table is the list of its rows in insertion order; the
    column [chunk_id] carries the unique index both write paths name in
    their conflict clause.  The embedding model is a function of the
    text.  What the REST endpoint answers to the [i]-th upsert, and
    whether the direct connection can be opened, are inputs. *)
(* ================================================================== *)

Inductive exn : Type :=
| KeyError (k : str)
| TypeError
| ConnectionError
| AgentError (msg : str).

Definition value_eqb (a b : value) : bool :=
  match a, b with
  | VStr x, VStr y => PyStr.eqb x y
  | VInt x, VInt y => Nat.eqb x y
  | _, _ => false
  end.

(** [d[k]], which raises [KeyError] on a missing key. *)
Definition dict_item (k : str) (d : dict) : exn + value :=
  match dict_get k d with
  | Some v => inr v
  | None => inl (KeyError k)
  end.

Definition bind {A B : Type} (x : exn + A) (f : A -> exn + B) : exn + B :=
  match x with
  | inl e => inl e
  | inr a => f a
  end.

Notation "x <- c ;; k" := (bind c (fun x => k))
  (at level 61, c at next level, right associativity).

Section Store.

Variable Emb : Type.

(** [embed_model.get_text_embedding] *)
Variable get_text_embedding : str -> Emb.

(** The seven columns both paths write. *)
Record Row : Type := mkRow {
  chunk_id : value;
  content : str;
  embedding : Emb;
  row_metadata : dict;
  page_number : value;
  chunk_index : value;
  parent_id : value
}.

Definition Table := list Row.

(** The values written for one node (lines 213-219 and 274-282). *)
Definition row_of_node (node : Node) : exn + Row :=
  let e := get_text_embedding (text node) in
  cid <- dict_item (lit "chunk_id") (metadata node) ;;
  pn <- dict_item (lit "page_number") (metadata node) ;;
  ci <- dict_item (lit "chunk_index") (metadata node) ;;
  pid <- dict_item (lit "parent_id") (metadata node) ;;
  inr {| chunk_id := cid; content := text node; embedding := e;
         row_metadata := metadata node; page_number := pn;
         chunk_index := ci; parent_id := pid |}.

Fixpoint rows_of (nodes : list Node) : exn + list Row :=
  match nodes with
  | [] => inr []
  | node :: nodes' =>
      r <- row_of_node node ;;
      rs <- rows_of nodes' ;;
      inr (r :: rs)
  end.

Definition has_id (k : value) (t : Table) : bool :=
  existsb (fun x => value_eqb (chunk_id x) k) t.

(** [DO UPDATE SET content = EXCLUDED.content, ...]: every column but
    [chunk_id] is taken from the row proposed for insertion. *)
Definition on_conflict_update (existing excluded : Row) : Row :=
  {| chunk_id := chunk_id existing;
     content := content excluded;
     embedding := embedding excluded;
     row_metadata := row_metadata excluded;
     page_number := page_number excluded;
     chunk_index := chunk_index excluded;
     parent_id := parent_id excluded |}.

(** [INSERT ... ON CONFLICT (chunk_id) DO UPDATE], and the REST
    [upsert(data, on_conflict="chunk_id")]. *)
Definition upsert (r : Row) (t : Table) : Table :=
  if has_id (chunk_id r) t
  then map (fun x => if value_eqb (chunk_id x) (chunk_id r)
                     then on_conflict_update x r else x) t
  else t ++ [r].

Definition upsert_all (rows : list Row) (t : Table) : Table :=
  fold_left (fun acc r => upsert r acc) rows t.

Inductive write_path : Type := Primary | Fallback.

(** What a store function hands back: the path that wrote the chunks,
    the nodes of the index and the parent pages of the document store. *)
Record Stored : Type := mkStored {
  path : write_path;
  index_nodes : list Node;
  docstore : list Node
}.

(** [store_via_postgres]: one transaction, committed after the last
    row; an exception leaves the table as it was. *)
Definition store_via_postgres (pg_available : bool)
  (child_nodes parent_nodes : list Node) (store : list Node) (t : Table)
  : (exn + Stored) * Table :=
  if pg_available then
    match rows_of child_nodes with
    | inr rows =>
        (inr {| path := Fallback; index_nodes := child_nodes;
                docstore := store |},
         upsert_all rows t)
    | inl e => (inl e, t)
    end
  else (inl ConnectionError, t).

(** The answer of the REST endpoint to one upsert: the row is stored and
    returned, or the call fails (an exception, or an empty [result.data])
    with the row written or not. *)
Inductive rest_outcome : Type :=
| RestStored
| RestFailed (written : bool).

Inductive loop_result : Type :=
| LoopDone
| LoopFallback
| LoopRaised (e : exn).

(** The loop of lines 269-303, from its [i]-th iteration on. *)
Fixpoint supabase_loop (api : nat -> rest_outcome) (i : nat)
  (nodes : list Node) (t : Table) : loop_result * Table :=
  match nodes with
  | [] => (LoopDone, t)
  | node :: nodes' =>
      match row_of_node node with
      | inl e => (LoopRaised e, t)
      | inr data =>
          match api i with
          | RestStored => supabase_loop api (S i) nodes' (upsert data t)
          | RestFailed written =>
              (LoopFallback, if written then upsert data t else t)
          end
      end
  end.

(** [store_in_supabase] *)
Definition store_in_supabase (api : nat -> rest_outcome) (pg_available : bool)
  (child_nodes parent_nodes : list Node) (t : Table)
  : (exn + Stored) * Table :=
  let store := parent_nodes in
  match supabase_loop api 0 child_nodes t with
  | (LoopDone, t') =>
      (inr {| path := Primary; index_nodes := child_nodes;
              docstore := store |}, t')
  | (LoopFallback, t') =>
      store_via_postgres pg_available child_nodes parent_nodes store t'
  | (LoopRaised e, t') => (inl e, t')
  end.

(** Replace every row that has the id of [r] by [r]. *)
Definition set_row (r : Row) (t : Table) : Table :=
  map (fun x => if value_eqb (chunk_id x) (chunk_id r) then r else x) t.

(** The row that [p] leaves under the id [k], starting from [acc]. *)
Definition last_write (k : value) (p : list Row) (acc : Row) : Row :=
  fold_left (fun acc r => if value_eqb (chunk_id r) k then r else acc) p acc.

Definition overwrite (p : list Row) (x : Row) : Row :=
  last_write (chunk_id x) p x.

End Store.

Arguments chunk_id {Emb} _.
Arguments content {Emb} _.
Arguments embedding {Emb} _.
Arguments row_metadata {Emb} _.
Arguments page_number {Emb} _.
Arguments chunk_index {Emb} _.
Arguments parent_id {Emb} _.
Arguments has_id {Emb} _ _.
Arguments on_conflict_update {Emb} _ _.
Arguments upsert {Emb} _ _.
Arguments upsert_all {Emb} _ _.
Arguments set_row {Emb} _ _.
Arguments last_write {Emb} _ _ _.
Arguments overwrite {Emb} _ _.
Arguments row_of_node {Emb} _ _.
Arguments rows_of {Emb} _ _.
Arguments store_via_postgres {Emb} _ _ _ _ _ _.
Arguments supabase_loop {Emb} _ _ _ _ _.
Arguments store_in_supabase {Emb} _ _ _ _ _ _.

(** A row without its embedding. *)
Definition erase_embedding {Emb : Type} (r : Row Emb) : Row unit :=
  {| chunk_id := chunk_id r; content := content r; embedding := tt;
     row_metadata := row_metadata r; page_number := page_number r;
     chunk_index := chunk_index r; parent_id := parent_id r |}.

(** An enriched page as [load_pdf_with_metadata] returns it. *)
Definition page_enriched : Node :=
  {| id_ := lit "page_1";
     text := lit "Alpha one." ++ [nl; nl] ++ lit "Beta two.";
     metadata := [ (lit "page_number", VInt 1);
                   (lit "header", VStr (lit "Overview"));
                   (lit "involved_parties", VStr (lit "A, B"));
                   (lit "date", VStr (lit "2024-01-15"));
                   (lit "type", VStr (lit "Overview"));
                   (lit "page_id", VStr (lit "page_1")) ] |}.

(** The REST endpoint that fails at the second upsert, after it has
    stored the first. *)
Definition api_fails_at_1 (i : nat) : rest_outcome :=
  match i with
  | 1 => RestFailed false
  | _ => RestStored
  end.

(* ================================================================== *)
(** ** [load_pdf_with_metadata] *)
(* ================================================================== *)

(** One entry of the metadata JSON; a field that the entry lacks is
    [None]. *)
Record MetaEntry : Type := mkMetaEntry {
  m_page_number : option value;
  m_header : option value;
  m_involved_parties : option (list str);
  m_date : option value;
  m_type : option value
}.

(** The parsed metadata JSON. *)
Definition metadata_json := list (str * MetaEntry).

Fixpoint meta_get (k : str) (d : metadata_json) : option MetaEntry :=
  match d with
  | [] => None
  | (k', m) :: d' => if PyStr.eqb k' k then Some m else meta_get k d'
  end.

(** [meta[k]] *)
Definition field {A : Type} (k : string) (x : option A) : exn + A :=
  match x with
  | Some a => inr a
  | None => inl (KeyError (lit k))
  end.

(** [f"page_{i}"] *)
Definition page_key_of (i : nat) : str := lit "page_" ++ str_of_nat i.

(** Lines 41-50: the enriched document. *)
Definition enrich (page_key : str) (meta : MetaEntry) (doc : Node)
  : exn + Node :=
  pn <- field "page_number" (m_page_number meta) ;;
  h <- field "header" (m_header meta) ;;
  ip <- field "involved_parties" (m_involved_parties meta) ;;
  d <- field "date" (m_date meta) ;;
  ty <- field "type" (m_type meta) ;;
  inr {| id_ := page_key;
         text := text doc;
         metadata :=
           dict_update (metadata doc)
             [ (lit "page_number", pn);
               (lit "header", h);
               (lit "involved_parties", VStr (join (lit ", ") ip));
               (lit "date", d);
               (lit "type", ty);
               (lit "page_id", VStr page_key) ] |}.

(** The loop of lines 38-51, from the page numbered [i] on. *)
Fixpoint enrich_loop (metadata_dict : metadata_json) (i : nat)
  (pdf_documents : list Node) (enriched_docs : list Node)
  : exn + list Node :=
  match pdf_documents with
  | [] => inr enriched_docs
  | doc :: rest =>
      let page_key := page_key_of i in
      match meta_get page_key metadata_dict with
      | Some meta =>
          doc' <- enrich page_key meta doc ;;
          enrich_loop metadata_dict (S i) rest (enriched_docs ++ [doc'])
      | None => enrich_loop metadata_dict (S i) rest enriched_docs
      end
  end.

(** [load_pdf_with_metadata], on the pages the reader returned and the
    parsed JSON. *)
Definition load_pdf_with_metadata (pdf_documents : list Node)
  (metadata_dict : metadata_json) : exn + list Node :=
  enrich_loop metadata_dict 1 pdf_documents [].

(** An entry with its five fields. *)
Definition complete (m : MetaEntry) : Prop :=
  m_page_number m <> None /\ m_header m <> None
  /\ m_involved_parties m <> None /\ m_date m <> None /\ m_type m <> None.

(** The pages with their numbers, from [i] on. *)
Fixpoint numbered (i : nat) (docs : list Node) : list (nat * Node) :=
  match docs with
  | [] => []
  | d :: rest => (i, d) :: numbered (S i) rest
  end.

(** Example: three pages, metadata for the first and the third. *)
Definition three_pages : list Node :=
  [ {| id_ := lit "a"; text := lit "one"; metadata := [] |};
    {| id_ := lit "b"; text := lit "two"; metadata := [] |};
    {| id_ := lit "c"; text := lit "three"; metadata := [] |} ].

Definition entry_for (n : nat) : MetaEntry :=
  {| m_page_number := Some (VInt n);
     m_header := Some (VStr (lit "Header"));
     m_involved_parties := Some [lit "A"; lit "B"];
     m_date := Some (VStr (lit "2024-01-15"));
     m_type := Some (VStr (lit "Details")) |}.

Definition metadata_1_3 : metadata_json :=
  [ (lit "page_1", entry_for 1); (lit "page_3", entry_for 3) ].

(* ================================================================== *)
(** ** [ClaimQueryOrchestrator.query]

    The three agents are supplied from outside: each is a function of
    the query and of the state of the world it reads and changes (the
    language model, the indexes), and may raise.  The list of calls made
    is kept beside the result.  The sources of a result are a list of
    dictionaries.  With [verbose] the response is printed before it is
    returned, and printing reads it: every source's [page] and
    [header], and for the needle agent the number of parent pages,
    which is compared with 0. *)
(* ================================================================== *)

(** [result["sources"]] *)
Definition Sources : Type := list dict.

Section Orchestrator.

Variable World : Type.
Variable Answer : Type.

(** The dictionary an agent's [answer_query] returns; a key that is
    absent is [None]. *)
Record AgentResult : Type := mkAgentResult {
  res_answer : option Answer;
  res_sources : option Sources;
  res_chunks_used : option nat;
  res_summaries_used : option nat;
  res_parent_pages_used : option value
}.

Variable route : str -> World -> (exn + str) * World.
Variable summary_answer_query : str -> World -> (exn + AgentResult) * World.
Variable needle_answer_query : str -> World -> (exn + AgentResult) * World.

Inductive agent_call : Type :=
| RouteCall (q : str)
| SummaryCall (q : str)
| NeedleCall (q : str).

Record ResponseMeta : Type := mkResponseMeta {
  chunks_used : nat;
  parent_pages_used : value;
  agent_type : str
}.

Record Response : Type := mkResponse {
  resp_query : str;
  resp_route : str;
  resp_agent : str;
  resp_answer : Answer;
  resp_sources : Sources;
  resp_metadata : ResponseMeta
}.

(** [d.get(k, default)] *)
Definition get_or {A : Type} (x : option A) (default : A) : A :=
  match x with
  | Some a => a
  | None => default
  end.

(** Step 3 of [query]: the response built from the agent's result. *)
Definition format_response (user_query rt agent : str) (result : AgentResult)
  : exn + Response :=
  a <- field "answer" (res_answer result) ;;
  s <- field "sources" (res_sources result) ;;
  inr {| resp_query := user_query;
         resp_route := rt;
         resp_agent := agent;
         resp_answer := a;
         resp_sources := s;
         resp_metadata :=
           {| chunks_used :=
                get_or (res_chunks_used result)
                  (get_or (res_summaries_used result) 0);
              parent_pages_used :=
                get_or (res_parent_pages_used result) (VInt 0);
              agent_type := agent |} |}.

(** Lines 100-101: one line per source, with its [page] and its
    [header]. *)
Fixpoint print_sources (sources : Sources) : exn + unit :=
  match sources with
  | [] => inr tt
  | source :: rest =>
      _ <- dict_item (lit "page") source ;;
      _ <- dict_item (lit "header") source ;;
      print_sources rest
  end.

(** [x > 0]: a string is not ordered against a number. *)
Definition positive (x : value) : exn + bool :=
  match x with
  | VInt n => inr (0 <? n)
  | VStr _ => inl TypeError
  end.

(** Lines 93-106: what is printed is left out, what is read is not. *)
Definition print_response (agent : str) (response : Response) : exn + unit :=
  _ <- print_sources (resp_sources response) ;;
  if PyStr.eqb agent (lit "needle") then
    _ <- positive (parent_pages_used (resp_metadata response)) ;;
    inr tt
  else inr tt.

(** Lines 79-108: the response is built, printed under [verbose], and
    returned. *)
Definition respond (user_query rt agent : str) (result : AgentResult)
  (verbose : bool) : exn + Response :=
  response <- format_response user_query rt agent result ;;
  if verbose then
    _ <- print_response agent response ;;
    inr response
  else inr response.

(** [query] *)
Definition query (user_query : str) (verbose : bool) (w : World)
  : (exn + Response) * World * list agent_call :=
  match route user_query w with
  | (inl e, w1) => (inl e, w1, [RouteCall user_query])
  | (inr rt, w1) =>
      if PyStr.eqb rt (lit "summary") then
        match summary_answer_query user_query w1 with
        | (inl e, w2) =>
            (inl e, w2, [RouteCall user_query; SummaryCall user_query])
        | (inr result, w2) =>
            (respond user_query rt (lit "summary") result verbose, w2,
             [RouteCall user_query; SummaryCall user_query])
        end
      else
        match needle_answer_query user_query w1 with
        | (inl e, w2) =>
            (inl e, w2, [RouteCall user_query; NeedleCall user_query])
        | (inr result, w2) =>
            (respond user_query rt (lit "needle") result verbose, w2,
             [RouteCall user_query; NeedleCall user_query])
        end
  end.

End Orchestrator.

Arguments res_answer {Answer} _.
Arguments res_sources {Answer} _.
Arguments res_chunks_used {Answer} _.
Arguments res_summaries_used {Answer} _.
Arguments res_parent_pages_used {Answer} _.
Arguments resp_query {Answer} _.
Arguments resp_route {Answer} _.
Arguments resp_agent {Answer} _.
Arguments resp_answer {Answer} _.
Arguments resp_sources {Answer} _.
Arguments resp_metadata {Answer} _.
Arguments query {World Answer} _ _ _ _ _ _.
Arguments format_response {Answer} _ _ _ _.
Arguments print_response {Answer} _ _.
Arguments respond {Answer} _ _ _ _ _.

(** A source that can be printed. *)
Definition source_ok (source : dict) : Prop :=
  dict_get (lit "page") source <> None
  /\ dict_get (lit "header") source <> None.

(** A number of parent pages that can be compared with 0. *)
Definition is_number (x : value) : Prop := exists n, x = VInt n.

(** Example agents: the world counts the calls; the router answers
    [summary] to the query [s] and [other] to anything else. *)
Definition route_example (q : str) (w : nat) : (exn + str) * nat :=
  (inr (if PyStr.eqb q (lit "s") then lit "summary" else lit "other"), S w).

Definition agent_example (name : str) (q : str) (w : nat)
  : (exn + AgentResult str) * nat :=
  (inr {| res_answer := Some (name ++ lit ":" ++ q);
          res_sources := Some [ [ (lit "page", VInt 3);
                                  (lit "header", VStr (lit "Header")) ] ];
          res_chunks_used := None;
          res_summaries_used := Some 2;
          res_parent_pages_used := None |}, S w).

(** An agent whose second source has no header. *)
Definition agent_without_header (q : str) (w : nat)
  : (exn + AgentResult str) * nat :=
  (inr {| res_answer := Some (lit "answer");
          res_sources := Some [ [ (lit "page", VInt 3);
                                  (lit "header", VStr (lit "Header")) ];
                                [ (lit "page", VInt 4) ] ];
          res_chunks_used := Some 6;
          res_summaries_used := None;
          res_parent_pages_used := Some (VInt 1) |}, S w).

(** The numbered pages whose key is in the metadata. *)
Definition kept (metadata_dict : metadata_json) (nd : nat * Node) : bool :=
  match meta_get (page_key_of (fst nd)) metadata_dict with
  | Some _ => true
  | None => false
  end.

(* ================================================================== *)
(** ** The rest of [needle_indexing.py], [config.py], [main.py] and
       [generate_claim_pdf.py] *)
(* ================================================================== *)

(** *** [create_needle_chunks] with its log lines

    Line 70 reads [doc.metadata['page_id']] and [doc.metadata['header']]
    of every document before any page is cut, and raises [KeyError] on
    the first document that lacks one of them. *)

Definition parent_log_line (doc : Node) : exn + (value * value) :=
  pid <- dict_item (lit "page_id") (metadata doc) ;;
  h <- dict_item (lit "header") (metadata doc) ;;
  inr (pid, h).

Fixpoint parents_loop (documents : list Node) (parent_nodes : list Node)
  : exn + list Node :=
  match documents with
  | [] => inr parent_nodes
  | doc :: rest =>
      _ <- parent_log_line doc ;;
      parents_loop rest (parent_nodes ++ [doc])
  end.

Definition create_needle_chunks_logged (documents : list Node)
  : exn + (list Node * list Node) :=
  parent_nodes <- parents_loop documents [] ;;
  inr (parent_nodes,
       flat_map (page_chunks config.CHUNK_SIZE config.CHUNK_OVERLAP) documents).

(** The last value bound to [k] in [other], if any. *)
Definition last_binding (k : str) (other : dict) : option value :=
  fold_left (fun acc kv => if PyStr.eqb (fst kv) k then Some (snd kv) else acc)
    other None.

(** The four keys the chunker writes into a chunk's metadata. *)
Definition chunk_keys : list str :=
  [lit "chunk_index"; lit "parent_id"; lit "chunk_id"; lit "chunk_size"].

(** The six keys the loader writes into a page's metadata. *)
Definition page_keys : list str :=
  [lit "page_number"; lit "header"; lit "involved_parties"; lit "date";
   lit "type"; lit "page_id"].

(** A page with a paragraph of three sentences, each within the chunk
    size, that has to be split. *)
Definition page_three_sentences : Node :=
  {| id_ := lit "page_2";
     text := sentence 12 ++ lit " " ++ sentence 12 ++ lit " " ++ sentence 12
             ++ [nl; nl] ++ lit "Short closing paragraph.";
     metadata := [ (lit "page_number", VInt 2);
                   (lit "header", VStr (lit "Details"));
                   (lit "page_id", VStr (lit "page_2")) ] |}.

(** A page that has its [page_id] and no [header]. *)
Definition page_without_header : Node :=
  {| id_ := lit "page_2";
     text := lit "Gamma three.";
     metadata := [(lit "page_id", VStr (lit "page_2"))] |}.

(** The document has the two keys the log line reads. *)
Definition has_log_keys (doc : Node) : Prop :=
  dict_get (lit "page_id") (metadata doc) <> None
  /\ dict_get (lit "header") (metadata doc) <> None.

(** The first of the five fields that the entry lacks, in the order in
    which lines 43-47 read them. *)
Definition first_missing (m : MetaEntry) : option string :=
  match m_page_number m with
  | None => Some "page_number"%string
  | Some _ =>
  match m_header m with
  | None => Some "header"%string
  | Some _ =>
  match m_involved_parties m with
  | None => Some "involved_parties"%string
  | Some _ =>
  match m_date m with
  | None => Some "date"%string
  | Some _ =>
  match m_type m with
  | None => Some "type"%string
  | Some _ => None
  end end end end end.

(** Example: metadata whose entry for the second page has no date. *)
Definition metadata_no_date : metadata_json :=
  [ (lit "page_1", entry_for 1);
    (lit "page_2",
     {| m_page_number := Some (VInt 2);
        m_header := Some (VStr (lit "Header"));
        m_involved_parties := Some [lit "A"];
        m_date := None;
        m_type := None |}) ].

(** Example: a page as the PDF reader returns it. *)
Definition page_from_reader : Node :=
  {| id_ := lit "uuid-1"; text := lit "one";
     metadata := [ (lit "file_path", VStr (lit "Data/insurance_claim.pdf"));
                   (lit "source", VStr (lit "1")) ] |}.

(** Example: a page of blanks and line breaks. *)
Definition page_blank : Node :=
  mkdoc (lit "page_9") (lit "  " ++ [nl; nl; nl] ++ lit " ").


(** *** The chunk table *)

(** The rows that come from the nodes. *)
Definition row_from {Emb : Type} (get_text_embedding : str -> Emb)
  (nodes : list Node) (r : Row Emb) : Prop :=
  exists n, In n nodes /\ row_of_node get_text_embedding n = inr r.

(** A row of another document, already in the table. *)
Definition other_row : Row nat :=
  {| chunk_id := VStr (lit "other_chunk_0");
     content := lit "Kept.";
     embedding := 5;
     row_metadata := [];
     page_number := VInt 7;
     chunk_index := VInt 0;
     parent_id := VStr (lit "other") |}.

(** A chunk whose metadata has lost its page number. *)
Definition node_without_page_number : Node :=
  {| id_ := lit "page_2_chunk_0";
     text := lit "Gamma.";
     metadata := [ (lit "chunk_id", VStr (lit "page_2_chunk_0"));
                   (lit "chunk_index", VInt 0);
                   (lit "parent_id", VStr (lit "page_2")) ] |}.

(* ================================================================== *)
(** ** [main.py]: batches, menus and the question mode

    The console is the list of what the successive calls of [input()]
    meet: a line, Ctrl-C or the end of the input.  A loop that has used
    up the list is waiting for the next event. *)
(* ================================================================== *)

(** [c.lower()] on the code points below 256. *)
Definition lower_char (c : ascii) : ascii :=
  let n := nat_of_ascii c in
  if ((65 <=? n) && (n <=? 90))
     || ((192 <=? n) && (n <=? 214))
     || ((216 <=? n) && (n <=? 222))
  then ascii_of_nat (n + 32)
  else c.

(** [s.lower()] *)
Definition lower (s : str) : str := map lower_char s.

(** [x in l] for a list of strings *)
Definition str_in (x : str) (l : list str) : bool :=
  existsb (fun y => PyStr.eqb x y) l.

Inductive console_event : Type :=
| Line (s : str)
| Interrupt
| EndOfInput.

Inductive console_exn : Type :=
| KeyboardInterrupt
| EOFError.

(** The queries the agents were called with. *)
Definition routed (calls : list agent_call) : list str :=
  flat_map (fun c => match c with RouteCall q => [q] | _ => [] end) calls.

Definition answered (calls : list agent_call) : list str :=
  flat_map (fun c => match c with
                     | RouteCall _ => []
                     | SummaryCall q => [q]
                     | NeedleCall q => [q]
                     end) calls.

(** *** [show_main_menu] and [show_evaluation_submenu] *)

Inductive menu_result : Type :=
| Chosen (choice : str)
| MenuRaised (e : console_exn)
| MenuWaiting.

(** The loop of lines 147-151 and 166-170: the result, the events left
    and the number of error lines printed. *)
Fixpoint menu_loop (valid : list str) (events : list console_event)
  (errors : nat) : menu_result * list console_event * nat :=
  match events with
  | [] => (MenuWaiting, [], errors)
  | Interrupt :: rest => (MenuRaised KeyboardInterrupt, rest, errors)
  | EndOfInput :: rest => (MenuRaised EOFError, rest, errors)
  | Line s :: rest =>
      let choice := strip s in
      if str_in choice valid then (Chosen choice, rest, errors)
      else menu_loop valid rest (S errors)
  end.

Definition show_main_menu (events : list console_event)
  : menu_result * list console_event * nat :=
  menu_loop [lit "1"; lit "2"; lit "3"; lit "4"] events 0.

Definition show_evaluation_submenu (events : list console_event)
  : menu_result * list console_event * nat :=
  menu_loop [lit "1"; lit "2"; lit "3"; lit "4"; lit "5"; lit "6"] events 0.

(** The stripped lines among the events. *)
Definition stripped_lines (events : list console_event) : list str :=
  flat_map (fun ev => match ev with Line s => [strip s] | _ => [] end) events.

(** *** [batch_query] and [ask_questions_mode] *)

Definition exit_words : list str :=
  [lit "menu"; lit "exit"; lit "quit"; lit "back"].

(** The events that end the question mode: Ctrl-C and the exit words,
    in any case. *)
Definition ends_session (ev : console_event) : bool :=
  match ev with
  | Line s => str_in (lower (strip s)) exit_words
  | Interrupt => true
  | EndOfInput => false
  end.

Inductive session : Type :=
| Returned
| Waiting.

Section MainLoops.

Variable World : Type.
Variable Answer : Type.
Variable route : str -> World -> (exn + str) * World.
Variable summary_answer_query :
  str -> World -> (exn + AgentResult Answer) * World.
Variable needle_answer_query :
  str -> World -> (exn + AgentResult Answer) * World.

(** The loop of lines 125-130. *)
Fixpoint batch_loop (queries : list str) (w : World)
  (results : list (Response Answer)) (calls : list agent_call)
  : (exn + list (Response Answer)) * World * list agent_call :=
  match queries with
  | [] => (inr results, w, calls)
  | q :: rest =>
      match query route summary_answer_query needle_answer_query q true w with
      | (inl e, w1, cs) => (inl e, w1, calls ++ cs)
      | (inr result, w1, cs) =>
          batch_loop rest w1 (results ++ [result]) (calls ++ cs)
      end
  end.

Definition batch_query (queries : list str) (w : World)
  : (exn + list (Response Answer)) * World * list agent_call :=
  batch_loop queries w [] [].

(** The loop of lines 182-200.  An exception of [input()] other than
    Ctrl-C, and any exception of the query, is caught and the loop goes
    on. *)
Fixpoint ask_loop (events : list console_event) (w : World)
  (calls : list agent_call) : session * World * list agent_call :=
  match events with
  | [] => (Waiting, w, calls)
  | Interrupt :: _ => (Returned, w, calls)
  | EndOfInput :: rest => ask_loop rest w calls
  | Line s :: rest =>
      let user_input := strip s in
      if str_in (lower user_input) exit_words then (Returned, w, calls)
      else if is_empty user_input then ask_loop rest w calls
      else
        match query route summary_answer_query needle_answer_query
                user_input true w with
        | (_, w1, cs) => ask_loop rest w1 (calls ++ cs)
        end
  end.

Definition ask_questions_mode (events : list console_event) (w : World)
  : session * World * list agent_call :=
  ask_loop events w [].

End MainLoops.

Arguments batch_loop {World Answer} _ _ _ _ _ _ _.
Arguments batch_query {World Answer} _ _ _ _ _.
Arguments ask_loop {World Answer} _ _ _ _ _ _.
Arguments ask_questions_mode {World Answer} _ _ _ _ _.

(** The agent named in a response is the one its route selects. *)
Definition well_routed {Answer : Type} (r : Response Answer)
  : Prop :=
  resp_agent r = lit "summary" /\ resp_route r = lit "summary"
  \/ resp_agent r = lit "needle" /\ resp_route r <> lit "summary".

Definition nonempty (s : str) : bool := negb (is_empty s).

(** A router that fails on the query [boom]. *)
Definition route_failing (q : str) (w : nat) : (exn + str) * nat :=
  if PyStr.eqb q (lit "boom")
  then (inl (AgentError (lit "router down")), S w)
  else route_example q w.

(* ================================================================== *)
(** ** [generate_claim_pdf.py]: the metadata file

    A page of [create_claim_content] is a dictionary; a key that is
    absent is [None].  [generate_metadata] writes, for the page
    numbered [i], the entry [page_i] with the page number, four fields
    of the page and the length of its text. *)
(* ================================================================== *)

Record PageContent : Type := mkPageContent {
  pc_header : option value;
  pc_date : option value;
  pc_involved_parties : option (list str);
  pc_type : option value;
  pc_text : option str
}.

(** An entry of the metadata file: the five fields the loader reads
    and the character count. *)
Record GeneratedEntry : Type := mkGeneratedEntry {
  g_entry : MetaEntry;
  g_character_count : nat
}.

(** [d[k] = v] on an insertion-ordered dictionary. *)
Fixpoint assoc_set {V : Type} (k : str) (v : V) (d : list (str * V))
  : list (str * V) :=
  match d with
  | [] => [(k, v)]
  | (k', v') :: d' =>
      if PyStr.eqb k' k then (k', v) :: d' else (k', v') :: assoc_set k v d'
  end.

(** The loop of lines 256-264, from the page numbered [i] on. *)
Fixpoint generate_metadata_loop (i : nat) (pages_content : list PageContent)
  (metadata : list (str * GeneratedEntry))
  : exn + list (str * GeneratedEntry) :=
  match pages_content with
  | [] => inr metadata
  | page_content :: rest =>
      h <- field "header" (pc_header page_content) ;;
      ip <- field "involved_parties" (pc_involved_parties page_content) ;;
      d <- field "date" (pc_date page_content) ;;
      ty <- field "type" (pc_type page_content) ;;
      t <- field "text" (pc_text page_content) ;;
      generate_metadata_loop (S i) rest
        (assoc_set (page_key_of i)
           {| g_entry := {| m_page_number := Some (VInt i);
                            m_header := Some h;
                            m_involved_parties := Some ip;
                            m_date := Some d;
                            m_type := Some ty |};
              g_character_count := len t |}
           metadata)
  end.

Definition generate_metadata (pages_content : list PageContent)
  : exn + list (str * GeneratedEntry) :=
  generate_metadata_loop 1 pages_content [].

(** The metadata file as [load_pdf_with_metadata] reads it back: it
    never looks at the character count. *)
Definition as_loaded (metadata : list (str * GeneratedEntry)) : metadata_json :=
  map (fun kv => (fst kv, g_entry (snd kv))) metadata.

(** The entry written for the page numbered [i]. *)
Definition entry_of (i : nat) (page_content : PageContent) : MetaEntry :=
  {| m_page_number := Some (VInt i);
     m_header := pc_header page_content;
     m_involved_parties := pc_involved_parties page_content;
     m_date := pc_date page_content;
     m_type := pc_type page_content |}.

(** A page with the five keys [generate_metadata] reads. *)
Definition pc_complete (page_content : PageContent) : Prop :=
  pc_header page_content <> None
  /\ pc_involved_parties page_content <> None
  /\ pc_date page_content <> None
  /\ pc_type page_content <> None
  /\ pc_text page_content <> None.

(** The loaded page [d] is the PDF page [original] with the fields of
    the content page numbered [i]. *)
Definition published (i : nat) (original : Node) (page_content : PageContent)
  (d : Node) : Prop :=
  id_ d = page_key_of i
  /\ text d = text original
  /\ dict_get (lit "page_id") (metadata d) = Some (VStr (page_key_of i))
  /\ dict_get (lit "page_number") (metadata d) = Some (VInt i)
  /\ dict_get (lit "header") (metadata d) = pc_header page_content
  /\ dict_get (lit "involved_parties") (metadata d)
     = option_map (fun ip => VStr (join (lit ", ") ip))
         (pc_involved_parties page_content)
  /\ dict_get (lit "date") (metadata d) = pc_date page_content
  /\ dict_get (lit "type") (metadata d) = pc_type page_content.

(** Two pages of content. *)
Definition content_example : list PageContent :=
  [ {| pc_header := Some (VStr (lit "Claim Introduction and Overview"));
       pc_date := Some (VStr (lit "2024-01-15"));
       pc_involved_parties := Some [lit "Sarah Mitchell"; lit "Claims Department"];
       pc_type := Some (VStr (lit "Overview"));
       pc_text := Some (lit "This insurance claim is filed.") |};
    {| pc_header := Some (VStr (lit "Event 1: Initial Collision"));
       pc_date := Some (VStr (lit "2024-01-15 09:23:45"));
       pc_involved_parties := Some [lit "Sarah Mitchell"; lit "Robert Chen"];
       pc_type := Some (VStr (lit "Details"));
       pc_text := Some (lit "The collision occurred.") |} ].

(* ================================================================== *)
(** ** [config.py] and the database host

    The environment is a function from names to values.  The module
    reads it when it is imported and raises [ValueError] when one of
    four settings is missing or empty. *)
(* ================================================================== *)

Inductive config_exn : Type :=
| ValueError (msg : str).

Record Settings : Type := mkSettings {
  OPENAI_API_KEY : option str;
  GOOGLE_AI_API_KEY : option str;
  SUPABASE_URL : option str;
  SUPABASE_KEY : option str;
  SUPABASE_DB_PASSWORD : option str
}.

(** The truth value of an optional string: [None] and the empty string
    are false. *)
Definition truthy (x : option str) : bool :=
  match x with
  | Some (_ :: _) => true
  | _ => false
  end.

(** Lines 13-30: what importing the module does. *)
Definition import_config (getenv : str -> option str) : config_exn + Settings :=
  let openai := getenv (lit "OPENAI_API_KEY") in
  if negb (truthy openai) then
    inl (ValueError (lit "OPENAI_API_KEY not found in environment variables. Please check your .env file."))
  else
    let google := getenv (lit "GOOGLE_AI_API_KEY") in
    let url := getenv (lit "SUPABASE_URL") in
    let key := getenv (lit "SUPABASE_KEY") in
    let password := getenv (lit "SUPABASE_DB_PASSWORD") in
    if negb (truthy url) || negb (truthy key) then
      inl (ValueError (lit "SUPABASE_URL and SUPABASE_KEY must be set in environment variables. Please check your .env file."))
    else if negb (truthy password) then
      inl (ValueError (lit "SUPABASE_DB_PASSWORD must be set in environment variables. Please check your .env file."))
    else
      inr {| OPENAI_API_KEY := openai;
             GOOGLE_AI_API_KEY := google;
             SUPABASE_URL := url;
             SUPABASE_KEY := key;
             SUPABASE_DB_PASSWORD := password |}.

(** The error lines [validate_config] collects. *)
Definition config_errors (s : Settings) : list str :=
  (if truthy (OPENAI_API_KEY s) then [] else [lit "OPENAI_API_KEY is missing"])
  ++ (if truthy (SUPABASE_URL s) then [] else [lit "SUPABASE_URL is missing"])
  ++ (if truthy (SUPABASE_KEY s) then [] else [lit "SUPABASE_KEY is missing"]).

(** [validate_config] *)
Definition validate_config (s : Settings) : config_exn + bool :=
  match config_errors s with
  | [] => inr true
  | errors =>
      inl (ValueError (lit "Configuration errors: " ++ join (lit ", ") errors))
  end.

(** [get_postgres_connection_string], for a URL and a password that
    are strings. *)
Definition get_postgres_connection_string (supabase_url password : str) : str :=
  let host := replace (lit "http://") []
                (replace (lit "https://") [] supabase_url) in
  let db_host := lit "db." ++ host in
  lit "postgresql://postgres:" ++ password ++ lit "@" ++ db_host
    ++ lit ":5432/postgres".

(** *** [re.search(r'https://([^.]+)\.supabase\.co', url)]

    The group is greedy and what follows it is a dot, so at a given
    start only the longest run of characters other than the dot can be
    followed by the rest of the pattern. *)

(** The longest prefix without a dot, and the rest. *)
Fixpoint span_non_dot (s : str) : str * str :=
  match s with
  | [] => ([], [])
  | c :: s' =>
      if Ascii.eqb c "."%char then ([], s)
      else let (g, r) := span_non_dot s' in (c :: g, r)
  end.

(** The match that starts at the head of [s], if any: its group. *)
Definition match_project_at (s : str) : option str :=
  if starts_with (lit "https://") s then
    let (g, r) := span_non_dot (skipn 8 s) in
    if is_empty g then None
    else if starts_with (lit ".supabase.co") r then Some g else None
  else None.

(** The group of the leftmost match. *)
Fixpoint search_project (s : str) : option str :=
  match match_project_at s with
  | Some g => Some g
  | None =>
      match s with
      | [] => None
      | _ :: s' => search_project s'
      end
  end.

(** Lines 175-180 and 336-339: the host the indexing connects to. *)
Definition db_host (supabase_url : str) : option str :=
  option_map (fun project_id => lit "db." ++ project_id ++ lit ".supabase.co")
    (search_project supabase_url).

(** An environment with the four settings. *)
Definition env_example (name : str) : option str :=
  if PyStr.eqb name (lit "OPENAI_API_KEY") then Some (lit "sk-test")
  else if PyStr.eqb name (lit "SUPABASE_URL")
       then Some (lit "https://kssdybrlodgkjopindol.supabase.co")
  else if PyStr.eqb name (lit "SUPABASE_KEY") then Some (lit "key")
  else if PyStr.eqb name (lit "SUPABASE_DB_PASSWORD") then Some (lit "pw")
  else None.
(* ================================================================== *)
(** ** Lemmas on strings *)
(* ================================================================== *)

Section StrFacts.

Example strip_ex : strip (lit "  ab c	 ") = lit "ab c".
Proof. reflexivity. Qed.
Example split_ex : split (lit "--") (lit "a--b---c--") = [lit "a"; lit "b"; lit "-c"; lit ""].
Proof. reflexivity. Qed.
Example replace_ex : replace (lit ". ") (lit ".|") (lit "a. b.  c. ") = lit "a.|b.| c.|".
Proof. reflexivity. Qed.
Example find_ex : find (lit " ") (lit "ab cd e") = Some 2 /\ rfind (lit ". ") (lit "a. b. c") = Some 4 /\ find (lit "x") (lit "abc") = None.
Proof. repeat split. Qed.
Example str_of_nat_ex : str_of_nat 12 = lit "12" /\ str_of_nat 0 = lit "0".
Proof. split; reflexivity. Qed.

Lemma is_empty_true (s : str) : is_empty s = true <-> s = [].
Proof. destruct s; simpl; split; congruence. Qed.

Lemma is_empty_false (s : str) : is_empty s = false <-> s <> [].
Proof. destruct s; simpl; split; congruence. Qed.

Lemma eqb_refl (s : str) : PyStr.eqb s s = true.
Proof. unfold PyStr.eqb. destruct (list_eq_dec ascii_dec s s); congruence. Qed.

Lemma eqb_eq (a b : str) : PyStr.eqb a b = true <-> a = b.
Proof.
  unfold PyStr.eqb. destruct (list_eq_dec ascii_dec a b); split; congruence.
Qed.

Lemma eqb_neq (a b : str) : PyStr.eqb a b = false <-> a <> b.
Proof.
  unfold PyStr.eqb. destruct (list_eq_dec ascii_dec a b); split; congruence.
Qed.

Lemma ends_nonspace_nonempty s : ends_nonspace s -> s <> [].
Proof. intros (s' & c & -> & _). destruct s'; discriminate. Qed.

Lemma ends_nonspace_app a b : ends_nonspace b -> ends_nonspace (a ++ b).
Proof.
  intros (s' & c & -> & H). exists (a ++ s'), c. now rewrite app_assoc.
Qed.

Lemma lstrip_suffix s : exists w, s = w ++ lstrip s /\ Forall (fun c => isspace c = true) w.
Proof.
  induction s as [|c s IH]; simpl.
  - exists []. split; auto.
  - destruct (isspace c) eqn:E.
    + destruct IH as (w & Hw & Hall). exists (c :: w). split.
      * simpl. now rewrite <- Hw.
      * constructor; auto.
    + exists []. split; auto.
Qed.

Lemma lstrip_head s : lstrip s = [] \/ starts_nonspace (lstrip s).
Proof.
  induction s as [|c s IH]; simpl; auto.
  destruct (isspace c) eqn:E; auto.
  right. now exists c, s.
Qed.

Lemma lstrip_starts s : starts_nonspace s -> lstrip s = s.
Proof. intros (c & s' & -> & H). simpl. now rewrite H. Qed.

Lemma lstrip_idem s : lstrip (lstrip s) = lstrip s.
Proof.
  destruct (lstrip_head s) as [H|H]; [now rewrite H | now apply lstrip_starts].
Qed.

Lemma lstrip_app_nonspace a c b :
  isspace c = false -> lstrip (a ++ c :: b) = lstrip (a ++ [c]) ++ b.
Proof.
  intros H. induction a as [|x a IH]; simpl.
  - now rewrite H.
  - destruct (isspace x); auto. simpl. now rewrite <- app_assoc.
Qed.

Lemma lstrip_ends s : ends_nonspace s -> ends_nonspace (lstrip s).
Proof.
  intros (s' & c & -> & H).
  induction s' as [|x s' IH]; simpl.
  - rewrite H. now exists [], c.
  - destruct (isspace x); auto. now exists (x :: s'), c.
Qed.

Lemma rstrip_ends s : ends_nonspace s -> rstrip s = s.
Proof.
  intros (s' & c & -> & H). unfold rstrip.
  rewrite rev_app_distr. simpl. rewrite H. simpl.
  now rewrite rev_involutive.
Qed.

Lemma rstrip_nil_or_ends s : rstrip s = [] \/ ends_nonspace (rstrip s).
Proof.
  unfold rstrip. destruct (lstrip_head (rev s)) as [H|(c & t & H & Hc)].
  - left. now rewrite H.
  - right. rewrite H. simpl. now exists (rev t), c.
Qed.

Lemma strip_nil_or_ends s : strip s = [] \/ ends_nonspace (strip s).
Proof. apply rstrip_nil_or_ends. Qed.

Lemma strip_of_ends s : ends_nonspace s -> strip s = lstrip s.
Proof. intros H. unfold strip. apply rstrip_ends. now apply lstrip_ends. Qed.

Lemma rstrip_prefix s : exists w, s = rstrip s ++ w /\ Forall (fun c => isspace c = true) w.
Proof.
  unfold rstrip. destruct (lstrip_suffix (rev s)) as (w & Hw & Hall).
  exists (rev w). split.
  - rewrite <- rev_app_distr, <- Hw. now rewrite rev_involutive.
  - apply Forall_rev. exact Hall.
Qed.

Lemma rstrip_starts s : rstrip s <> [] -> starts_nonspace s -> starts_nonspace (rstrip s).
Proof.
  intros Hne (c & s' & -> & Hc).
  destruct (rstrip_prefix (c :: s')) as (w & Hw & _).
  destruct (rstrip (c :: s')) as [|x r]; [congruence|].
  simpl in Hw. injection Hw as Hx _. subst x. now exists c, r.
Qed.

Lemma strip_nil_or_starts s : strip s = [] \/ starts_nonspace (strip s).
Proof.
  destruct (strip s) eqn:E; auto. right. rewrite <- E.
  unfold strip in *. apply rstrip_starts; [congruence|].
  destruct (lstrip_head s) as [H|H]; auto.
  rewrite H in E. discriminate.
Qed.

Lemma strip_idem s : strip (strip s) = strip s.
Proof.
  destruct (strip_nil_or_ends s) as [H|H]; [now rewrite H|].
  rewrite strip_of_ends by assumption.
  destruct (strip_nil_or_starts s) as [H'|H']; [now rewrite H'|].
  now apply lstrip_starts.
Qed.

Lemma lstrip_len s : len (lstrip s) <= len s.
Proof.
  destruct (lstrip_suffix s) as (w & Hw & _).
  rewrite Hw at 2. unfold len. rewrite length_app. lia.
Qed.

Lemma strip_len s : len (strip s) <= len s.
Proof.
  unfold strip. destruct (rstrip_prefix (lstrip s)) as (w & Hw & _).
  pose proof (lstrip_len s) as H. rewrite Hw in H.
  unfold len in *. rewrite length_app in H. lia.
Qed.

End StrFacts.

(* ================================================================== *)
(** ** The trace emits what the code emits *)
(* ================================================================== *)

Section ChunkerFacts.

Variables CHUNK_SIZE CHUNK_OVERLAP : nat.
Variable parent_doc : Node.

Local Abbreviation sentence_step' := (sentence_step CHUNK_SIZE CHUNK_OVERLAP parent_doc).
Local Abbreviation paragraph_step' := (paragraph_step CHUNK_SIZE CHUNK_OVERLAP parent_doc).
Local Abbreviation piece_step' := (piece_step CHUNK_SIZE CHUNK_OVERLAP).

Lemma clean_strip s : strip s <> [] -> clean (strip s).
Proof.
  intros H. split.
  - destruct (strip_nil_or_starts s); tauto.
  - destruct (strip_nil_or_ends s); tauto.
Qed.

Lemma clean_strip_id s : clean s -> strip s = s.
Proof.
  intros [Hs He]. rewrite strip_of_ends by assumption. now apply lstrip_starts.
Qed.

Lemma join_snoc sep (g : list str) s :
  g <> [] -> join sep (g ++ [s]) = join sep g ++ sep ++ s.
Proof.
  induction g as [|x g IH]; [congruence|]. intros _.
  destruct g as [|y g].
  - reflexivity.
  - change (join sep ((x :: y :: g) ++ [s]))
      with (x ++ sep ++ join sep ((y :: g) ++ [s])).
    rewrite IH by discriminate.
    change (join sep (x :: y :: g)) with (x ++ sep ++ join sep (y :: g)).
    now rewrite <- !app_assoc.
Qed.

Lemma join_ends sep (g : list str) :
  g <> [] -> Forall clean g -> ends_nonspace (join sep g).
Proof.
  induction g as [|x g IH]; [congruence|]. intros _ Hall.
  inversion Hall as [|? ? [_ Hx] Hg]; subst.
  destruct g as [|y g]; [exact Hx|].
  change (join sep (x :: y :: g)) with (x ++ sep ++ join sep (y :: g)).
  apply ends_nonspace_app, ends_nonspace_app, IH; [discriminate | assumption].
Qed.

Lemma buffer_ends p : wf_piece p -> group p <> [] -> ends_nonspace (buffer p).
Proof.
  intros [Hall _] Hne. unfold buffer, body.
  destruct (seed p).
  - apply ends_nonspace_app, ends_nonspace_app. now apply join_ends.
  - now apply join_ends.
Qed.

Lemma buffer_nil p : wf_piece p -> group p = [] -> buffer p = [].
Proof.
  intros [_ Hs] Hg. unfold buffer, body. rewrite (Hs Hg), Hg. reflexivity.
Qed.

Lemma buffer_is_empty p :
  wf_piece p -> is_empty (buffer p) = is_empty (List.concat (group p)).
Proof.
  intros Hwf. destruct (group p) as [|x g] eqn:E.
  - now rewrite buffer_nil.
  - assert (Hb : buffer p <> [])
      by (apply ends_nonspace_nonempty, buffer_ends; [assumption | congruence]).
    destruct Hwf as [Hall _]. rewrite E in Hall.
    inversion Hall as [|? ? [(c & x' & -> & _) _] _]; subst.
    apply is_empty_false in Hb. now rewrite Hb.
Qed.

Lemma piece_text_ends p :
  wf_piece p -> group p <> [] -> piece_text p = lstrip (buffer p).
Proof. intros. unfold piece_text. apply strip_of_ends. now apply buffer_ends. Qed.

Lemma piece_text_nonempty p :
  wf_piece p -> group p <> [] -> piece_text p <> [].
Proof.
  intros Hwf Hne. rewrite piece_text_ends by assumption.
  apply ends_nonspace_nonempty, lstrip_ends. now apply buffer_ends.
Qed.

Lemma wf_next_piece cur s :
  clean s -> wf_piece (next_piece CHUNK_OVERLAP cur s).
Proof.
  intros Hs. split; simpl; [now constructor | discriminate].
Qed.

Lemma wf_append cur s :
  wf_piece cur -> clean s ->
  wf_piece {| seed := seed cur; group := group cur ++ [s] |}.
Proof.
  intros [Hall _] Hs. split; simpl.
  - apply Forall_app. split; [assumption | now constructor].
  - intros H. now destruct (group cur).
Qed.

Lemma next_buffer_piece cur s :
  next_buffer CHUNK_OVERLAP (buffer cur) s
  = buffer (next_piece CHUNK_OVERLAP cur s).
Proof.
  unfold next_buffer, next_piece, buffer at 3, body. simpl.
  now destruct (CHUNK_OVERLAP <? len (buffer cur)).
Qed.

Lemma append_buffer_piece cur s :
  wf_piece cur ->
  buffer cur ++ (if is_empty (buffer cur) then [] else lit " ") ++ s
  = buffer {| seed := seed cur; group := group cur ++ [s] |}.
Proof.
  intros Hwf. destruct (group cur) as [|x g] eqn:E.
  - rewrite (buffer_nil _ Hwf E). destruct Hwf as [_ Hs].
    unfold buffer, body. cbn [seed group]. rewrite (Hs E). reflexivity.
  - assert (Hb : buffer cur <> [])
      by (apply ends_nonspace_nonempty, buffer_ends; [assumption | congruence]).
    apply is_empty_false in Hb. rewrite Hb.
    unfold buffer, body. cbn [seed group]. rewrite ?E.
    rewrite join_snoc by discriminate.
    destruct (seed cur); now rewrite <- ?app_assoc.
Qed.

Lemma sentence_step_sim base st tr sent :
  sim base st tr -> sim base (sentence_step' st sent) (piece_step' tr sent).
Proof.
  destruct st as [chunks buf], tr as [out cur].
  intros (Hb & Hwf & Hout & Htx). simpl in Hb, Hwf, Hout, Htx. subst buf.
  unfold sentence_step, piece_step.
  destruct (is_empty (strip sent)) eqn:Es.
  - split; [|split; [|split]]; simpl; auto.
  - assert (Hc : clean (strip sent))
      by (apply clean_strip; now apply is_empty_false).
    destruct (negb (is_empty (buffer cur))
              && (CHUNK_SIZE <? len (buffer cur) + len (strip sent) + 1)) eqn:Ec.
    + apply andb_prop in Ec. destruct Ec as [Ene _].
      assert (Hg : group cur <> []).
      { intros Hg. rewrite (buffer_nil _ Hwf Hg) in Ene. discriminate. }
      split; [|split; [|split]]; simpl.
      * apply next_buffer_piece.
      * now apply wf_next_piece.
      * apply Forall_app. split; [assumption|].
        constructor; [now split | constructor].
      * rewrite !map_app, Htx. simpl. now rewrite <- app_assoc.
    + split; [|split; [|split]]; simpl; auto.
      * now apply append_buffer_piece.
      * now apply wf_append.
Qed.

Lemma sentence_fold_sim base sents : forall st tr,
  sim base st tr ->
  sim base (fold_left sentence_step' sents st) (fold_left piece_step' sents tr).
Proof.
  induction sents as [|s sents IH]; intros st tr H; simpl; auto.
  apply IH. now apply sentence_step_sim.
Qed.

Lemma wf_empty_piece : wf_piece empty_piece.
Proof. split; [constructor | reflexivity]. Qed.

Lemma sim_init chunks : sim (map text chunks) (chunks, []) ([], empty_piece).
Proof.
  split; [|split; [|split]]; simpl.
  - reflexivity.
  - apply wf_empty_piece.
  - constructor.
  - now rewrite app_nil_r.
Qed.

Lemma close_pieces_wf st :
  wf_piece (snd st) ->
  Forall (fun p => wf_piece p /\ group p <> []) (fst st) ->
  Forall (fun p => wf_piece p /\ group p <> []) (close_pieces st).
Proof.
  intros Hwf Hout. unfold close_pieces.
  destruct (group (snd st)) eqn:E; [assumption|].
  apply Forall_app. split; [assumption|].
  constructor; [|constructor]. split; [assumption | congruence].
Qed.

Lemma para_pieces_wf para :
  clean para ->
  Forall (fun p => wf_piece p /\ group p <> [])
    (para_pieces CHUNK_SIZE CHUNK_OVERLAP para).
Proof.
  intros Hc. unfold para_pieces.
  destruct (len para <=? CHUNK_SIZE).
  - constructor; [|constructor]. split; [|discriminate].
    split; simpl; [now constructor | discriminate].
  - destruct (sentence_fold_sim [] (sentences_of para) _ _ (sim_init []))
      as (_ & Hwf & Hout & _).
    now apply close_pieces_wf.
Qed.

(** The texts one paragraph adds to the page's chunk list. *)
Lemma paragraph_step_texts chunks para :
  map text (paragraph_step' chunks para)
  = map text chunks
    ++ (if is_empty (strip para) then []
        else map piece_text (para_pieces CHUNK_SIZE CHUNK_OVERLAP (strip para))).
Proof.
  unfold paragraph_step, para_pieces.
  destruct (is_empty (strip para)) eqn:Ep; [now rewrite app_nil_r|].
  assert (Hc : clean (strip para))
    by (apply clean_strip; now apply is_empty_false).
  destruct (len (strip para) <=? CHUNK_SIZE).
  - rewrite map_app. simpl. unfold piece_text, buffer, body. simpl.
    now rewrite (clean_strip_id _ Hc).
  - destruct (sentence_fold_sim _ (sentences_of (strip para)) _ _
                (sim_init chunks)) as (Hb & Hwf & Hout & Htx).
    destruct (fold_left sentence_step' (sentences_of (strip para)) (chunks, []))
      as [chunks' buf].
    destruct (fold_left piece_step' (sentences_of (strip para)) ([], empty_piece))
      as [out cur].
    simpl in Hb, Hwf, Hout, Htx. subst buf. unfold close_pieces. simpl.
    destruct (group cur) as [|x g] eqn:E.
    + rewrite (buffer_nil _ Hwf E). simpl. exact Htx.
    + assert (Hne : piece_text cur <> [])
        by (apply piece_text_nonempty; [assumption | congruence]).
      unfold piece_text in Hne. apply is_empty_false in Hne. rewrite Hne.
      rewrite !map_app, Htx. simpl. now rewrite <- app_assoc.
Qed.

Lemma paragraph_fold_texts paras : forall chunks,
  map text (fold_left paragraph_step' paras chunks)
  = map text chunks
    ++ map piece_text
         (List.concat (map (para_pieces CHUNK_SIZE CHUNK_OVERLAP)
                    (filter (fun p => negb (is_empty p)) (map strip paras)))).
Proof.
  induction paras as [|p paras IH]; intros chunks; simpl.
  - now rewrite app_nil_r.
  - rewrite IH, paragraph_step_texts.
    destruct (is_empty (strip p)); simpl.
    + now rewrite app_nil_r.
    + now rewrite map_app, <- app_assoc.
Qed.

(** The texts of a page's chunks are the texts of its pieces, in order. *)
Lemma page_chunks_texts :
  map text (page_chunks CHUNK_SIZE CHUNK_OVERLAP parent_doc)
  = map piece_text
      (List.concat (page_pieces CHUNK_SIZE CHUNK_OVERLAP (text parent_doc))).
Proof.
  unfold page_chunks, page_pieces, paragraphs_of.
  now rewrite paragraph_fold_texts.
Qed.

End ChunkerFacts.

(* ================================================================== *)
(** ** Chunk indices, ids and sizes *)
(* ================================================================== *)

Section Layout.

Variables CHUNK_SIZE CHUNK_OVERLAP : nat.
Variable parent_doc : Node.

Lemma dict_get_set_same k v d : dict_get k (dict_set k v d) = Some v.
Proof.
  induction d as [|[k' v'] d IH]; simpl.
  - now rewrite eqb_refl.
  - destruct (PyStr.eqb k' k) eqn:E; simpl; now rewrite E.
Qed.

Lemma dict_get_set_other k k' v d :
  k' <> k -> dict_get k (dict_set k' v d) = dict_get k d.
Proof.
  intros Hne. induction d as [|[k0 v0] d IH]; simpl.
  - apply eqb_neq in Hne. now rewrite Hne.
  - destruct (PyStr.eqb k0 k') eqn:E; simpl.
    + apply eqb_eq in E. subst k0.
      apply eqb_neq in Hne. now rewrite Hne.
    + now rewrite IH.
Qed.

Lemma new_node_id chunks t :
  id_ (new_node parent_doc chunks t)
  = id_ parent_doc ++ lit "_chunk_" ++ str_of_nat (List.length chunks).
Proof. reflexivity. Qed.

Lemma new_node_text chunks t : text (new_node parent_doc chunks t) = t.
Proof. reflexivity. Qed.

Lemma new_node_chunk_size chunks t :
  dict_get (lit "chunk_size") (metadata (new_node parent_doc chunks t))
  = Some (VInt (len t)).
Proof. unfold new_node. cbn [metadata]. apply dict_get_set_same. Qed.

Lemma new_node_chunk_id chunks t :
  dict_get (lit "chunk_id") (metadata (new_node parent_doc chunks t))
  = Some (VStr (id_ (new_node parent_doc chunks t))).
Proof.
  unfold new_node. cbn [metadata id_].
  rewrite dict_get_set_other by (vm_compute; discriminate).
  apply dict_get_set_same.
Qed.

Lemma new_node_parent_id chunks t :
  dict_get (lit "parent_id") (metadata (new_node parent_doc chunks t))
  = Some (VStr (id_ parent_doc)).
Proof.
  unfold new_node. cbn [metadata].
  rewrite !dict_get_set_other by (vm_compute; discriminate).
  apply dict_get_set_same.
Qed.

Lemma new_node_chunk_index chunks t :
  dict_get (lit "chunk_index") (metadata (new_node parent_doc chunks t))
  = Some (VInt (List.length chunks)).
Proof.
  unfold new_node. cbn [metadata].
  rewrite !dict_get_set_other by (vm_compute; discriminate).
  apply dict_get_set_same.
Qed.

Lemma indexed_nil : indexed parent_doc [].
Proof. intros [|i] n H; discriminate. Qed.

Lemma indexed_snoc chunks t :
  indexed parent_doc chunks ->
  indexed parent_doc (chunks ++ [new_node parent_doc chunks t]).
Proof.
  intros Hix i n Hn.
  destruct (Nat.lt_ge_cases i (List.length chunks)) as [Hlt|Hge].
  - rewrite nth_error_app1 in Hn by assumption.
    rewrite firstn_app.
    replace (i - List.length chunks) with 0 by lia.
    rewrite firstn_O, app_nil_r. now apply Hix.
  - rewrite nth_error_app2 in Hn by assumption.
    destruct (i - List.length chunks) as [|k] eqn:E.
    + simpl in Hn. injection Hn as <-.
      assert (i = List.length chunks) by lia. subst i.
      rewrite firstn_app, Nat.sub_diag, firstn_O, app_nil_r, firstn_all.
      reflexivity.
    + simpl in Hn. destruct k; discriminate.
Qed.

Lemma sentence_step_indexed st sent :
  indexed parent_doc (fst st) ->
  indexed parent_doc
    (fst (sentence_step CHUNK_SIZE CHUNK_OVERLAP parent_doc st sent)).
Proof.
  destruct st as [chunks buf]. unfold sentence_step. simpl. intros H.
  destruct (is_empty (strip sent)); [assumption|].
  destruct (negb (is_empty buf)
            && (CHUNK_SIZE <? len buf + len (strip sent) + 1)); simpl.
  - now apply indexed_snoc.
  - assumption.
Qed.

Lemma sentence_fold_indexed sents : forall st,
  indexed parent_doc (fst st) ->
  indexed parent_doc
    (fst (fold_left (sentence_step CHUNK_SIZE CHUNK_OVERLAP parent_doc) sents st)).
Proof.
  induction sents as [|s sents IH]; intros st H; simpl; auto.
  apply IH. now apply sentence_step_indexed.
Qed.

Lemma paragraph_step_indexed chunks para :
  indexed parent_doc chunks ->
  indexed parent_doc (paragraph_step CHUNK_SIZE CHUNK_OVERLAP parent_doc chunks para).
Proof.
  intros H. unfold paragraph_step.
  destruct (is_empty (strip para)); [assumption|].
  destruct (len (strip para) <=? CHUNK_SIZE); [now apply indexed_snoc|].
  pose proof (sentence_fold_indexed (sentences_of (strip para)) (chunks, []) H) as H'.
  destruct (fold_left _ _ _) as [chunks' buf]. simpl in H'.
  destruct (is_empty (strip buf)); [assumption | now apply indexed_snoc].
Qed.

Lemma paragraph_fold_indexed paras : forall chunks,
  indexed parent_doc chunks ->
  indexed parent_doc
    (fold_left (paragraph_step CHUNK_SIZE CHUNK_OVERLAP parent_doc) paras chunks).
Proof.
  induction paras as [|p paras IH]; intros chunks H; simpl; auto.
  apply IH. now apply paragraph_step_indexed.
Qed.

Lemma page_chunks_indexed :
  indexed parent_doc (page_chunks CHUNK_SIZE CHUNK_OVERLAP parent_doc).
Proof. apply paragraph_fold_indexed, indexed_nil. Qed.

Lemma paragraphs_clean t p : In p (paragraphs_of t) -> clean p.
Proof.
  unfold paragraphs_of. intros H. apply filter_In in H. destruct H as [H Hne].
  apply in_map_iff in H. destruct H as (x & <- & _).
  apply clean_strip. apply is_empty_false.
  now destruct (is_empty (strip x)).
Qed.

Lemma page_pieces_wf t :
  Forall (fun p => wf_piece p /\ group p <> [])
    (List.concat (page_pieces CHUNK_SIZE CHUNK_OVERLAP t)).
Proof.
  unfold page_pieces. apply Forall_concat. apply Forall_map.
  apply Forall_forall. intros p Hp.
  apply (para_pieces_wf CHUNK_SIZE CHUNK_OVERLAP parent_doc).
  now apply paragraphs_clean with t.
Qed.

(** Every chunk text is stripped and non-empty. *)
Lemma page_chunks_trimmed n :
  In n (page_chunks CHUNK_SIZE CHUNK_OVERLAP parent_doc) ->
  strip (text n) = text n /\ text n <> [].
Proof.
  intros Hn. apply (in_map text) in Hn.
  rewrite page_chunks_texts in Hn. apply in_map_iff in Hn.
  destruct Hn as (p & <- & Hp).
  pose proof (page_pieces_wf (text parent_doc)) as Hall.
  rewrite Forall_forall in Hall. destruct (Hall p Hp) as [Hwf Hg].
  split.
  - unfold piece_text. apply strip_idem.
  - now apply piece_text_nonempty.
Qed.

Lemma short_para_pieces p :
  clean p -> len p <= CHUNK_SIZE ->
  map piece_text (para_pieces CHUNK_SIZE CHUNK_OVERLAP p) = [p].
Proof.
  intros Hc Hle. unfold para_pieces.
  apply Nat.leb_le in Hle. rewrite Hle. simpl.
  unfold piece_text, buffer, body. simpl. now rewrite clean_strip_id.
Qed.

Lemma short_paragraphs_texts (ps : list str) :
  Forall clean ps -> Forall (fun p => len p <= CHUNK_SIZE) ps ->
  map piece_text (List.concat (map (para_pieces CHUNK_SIZE CHUNK_OVERLAP) ps)) = ps.
Proof.
  induction ps as [|p ps IH]; intros Hc Hs; simpl; auto.
  inversion Hc; inversion Hs; subst.
  rewrite map_app, short_para_pieces, IH by assumption. reflexivity.
Qed.

End Layout.

(** C6.  For every page, with the configured sizes: the chunk at position
    [i] of the page's list has [chunk_index] [i], its id and its
    [chunk_id] are the parent's id followed by [_chunk_] and [i] in
    decimal, its [parent_id] is the parent's id, its [chunk_size] is the
    length of its text, and its text is trimmed and not empty.  The texts
    are the texts of the page's paragraphs (split at double newlines,
    stripped, the empty ones discarded) in paragraph order; the loop
    skips an empty paragraph and appends exactly one node, the paragraph
    itself, for a paragraph of at most [CHUNK_SIZE] characters, so a page
    whose paragraphs all fit gives one chunk per paragraph. *)
Theorem page_chunks_layout (parent_doc : Node) :
  let chunks := page_chunks config.CHUNK_SIZE config.CHUNK_OVERLAP parent_doc in
  let paragraphs := paragraphs_of (text parent_doc) in
  let texts_of para :=
    map piece_text (para_pieces config.CHUNK_SIZE config.CHUNK_OVERLAP para) in
  (forall i n, nth_error chunks i = Some n ->
     dict_get (lit "chunk_index") (metadata n) = Some (VInt i)
     /\ id_ n = id_ parent_doc ++ lit "_chunk_" ++ str_of_nat i
     /\ dict_get (lit "chunk_id") (metadata n) = Some (VStr (id_ n))
     /\ dict_get (lit "parent_id") (metadata n) = Some (VStr (id_ parent_doc))
     /\ dict_get (lit "chunk_size") (metadata n) = Some (VInt (len (text n)))
     /\ strip (text n) = text n
     /\ text n <> [])
  /\ (forall emitted para,
        (strip para = [] ->
         paragraph_step config.CHUNK_SIZE config.CHUNK_OVERLAP parent_doc
           emitted para = emitted)
        /\ (strip para <> [] -> len (strip para) <= config.CHUNK_SIZE ->
            paragraph_step config.CHUNK_SIZE config.CHUNK_OVERLAP parent_doc
              emitted para
            = emitted ++ [new_node parent_doc emitted (strip para)]))
  /\ map text chunks = List.concat (map texts_of paragraphs)
  /\ (forall para, In para paragraphs -> len para <= config.CHUNK_SIZE ->
        texts_of para = [para])
  /\ (Forall (fun para => len para <= config.CHUNK_SIZE) paragraphs ->
        map text chunks = paragraphs
        /\ List.length chunks = List.length paragraphs).
Proof.
  intros chunks paragraphs texts_of.
  assert (Htexts : map text chunks = List.concat (map texts_of paragraphs)).
  { unfold chunks. rewrite page_chunks_texts. unfold page_pieces.
    now rewrite concat_map, map_map. }
  split; [|split; [|split; [|split]]].
  - intros i n Hn.
    pose proof (page_chunks_indexed config.CHUNK_SIZE config.CHUNK_OVERLAP
                  parent_doc i n Hn) as Hix.
    fold chunks in Hix.
    assert (Hlen : List.length (firstn i chunks) = i).
    { apply firstn_length_le. apply Nat.lt_le_incl.
      apply nth_error_Some. congruence. }
    destruct (page_chunks_trimmed config.CHUNK_SIZE config.CHUNK_OVERLAP parent_doc n)
      as [Hs Hne].
    { now apply nth_error_In with i. }
    rewrite Hix.
    rewrite new_node_chunk_index, new_node_chunk_id, new_node_parent_id,
      new_node_chunk_size, new_node_id, new_node_text, Hlen.
    repeat split; assumption.
  - intros emitted para. unfold paragraph_step. split.
    + intros E. now rewrite E.
    + intros Hne Hle. apply is_empty_false in Hne. rewrite Hne.
      apply Nat.leb_le in Hle. now rewrite Hle.
  - exact Htexts.
  - intros para Hin Hle. apply short_para_pieces; [|assumption].
    now apply paragraphs_clean with (text parent_doc).
  - intros Hall.
    assert (E : map text chunks = paragraphs).
    { unfold chunks. rewrite page_chunks_texts. unfold page_pieces.
      apply short_paragraphs_texts; [|assumption].
      apply Forall_forall. intros p Hp.
      now apply paragraphs_clean with (text parent_doc). }
    split; [assumption|]. now rewrite <- E, length_map.
Qed.

(** Witness of [page_chunks_layout]: a page of two short paragraphs. *)
Lemma page_chunks_layout_witness :
  let chunks := page_chunks config.CHUNK_SIZE config.CHUNK_OVERLAP
                  page_two_paragraphs in
  map text chunks = [lit "Alpha one."; lit "Beta two."]
  /\ List.length chunks = 2
  /\ exists n,
       nth_error chunks 1 = Some n
       /\ id_ n = lit "page_1_chunk_1"
       /\ dict_get (lit "chunk_index") (metadata n) = Some (VInt 1)
       /\ dict_get (lit "chunk_size") (metadata n) = Some (VInt 9).
Proof.
  intros chunks.
  destruct (page_chunks_layout page_two_paragraphs) as (H1 & _ & _ & _ & H4).
  destruct H4 as [Ht Hl].
  { vm_compute. repeat constructor. }
  fold chunks in Ht, Hl.
  split; [rewrite Ht; vm_compute; reflexivity|].
  split; [rewrite Hl; vm_compute; reflexivity|].
  destruct (nth_error chunks 1) as [n|] eqn:E; [|vm_compute in E; discriminate].
  exists n. split; [reflexivity|].
  destruct (H1 1 n E) as (Hi & Hid & _ & _ & Hs & _).
  split; [rewrite Hid; vm_compute; reflexivity|].
  split; [exact Hi|].
  rewrite Hs. f_equal. f_equal.
  assert (Ht1 : nth_error (map text chunks) 1 = Some (text n))
    by (rewrite nth_error_map, E; reflexivity).
  rewrite Ht in Ht1.
  change (Some (lit "Beta two.") = Some (text n)) in Ht1.
  injection Ht1 as <-. reflexivity.
Defined.

(* ================================================================== *)
(** ** The overlap seed *)
(* ================================================================== *)

Section SeedFacts.

Lemma starts_with_app sub post : starts_with sub (sub ++ post) = true.
Proof.
  induction sub as [|a sub IH]; simpl; auto.
  now rewrite Ascii.eqb_refl.
Qed.

Lemma starts_with_split sub s :
  starts_with sub s = true -> exists post, s = sub ++ post.
Proof.
  revert s. induction sub as [|a sub IH]; intros s H; simpl in *.
  - now exists s.
  - destruct s as [|b s]; [discriminate|].
    apply andb_prop in H. destruct H as [Hab Hs].
    apply Ascii.eqb_eq in Hab. subst b.
    destruct (IH s Hs) as (post & ->). now exists post.
Qed.

Lemma find_char_some c s i :
  find [c] s = Some i ->
  exists pre post, s = pre ++ c :: post /\ len pre = i /\ ~ In c pre.
Proof.
  revert i. induction s as [|b s IH]; intros i H; simpl in H.
  - discriminate.
  - destruct (Ascii.eqb c b) eqn:E; simpl in H.
    + injection H as <-. apply Ascii.eqb_eq in E. subst b.
      exists [], s. repeat split; auto.
    + destruct (find [c] s) as [j|] eqn:F; [|discriminate].
      injection H as <-.
      destruct (IH j eq_refl) as (pre & post & -> & Hl & Hn).
      exists (b :: pre), post. repeat split; simpl; auto.
      intros [Hb|Hin]; [|tauto].
      subst b. now rewrite Ascii.eqb_refl in E.
Qed.

Lemma find_char_none c s : find [c] s = None -> ~ In c s.
Proof.
  induction s as [|b s IH]; intros H; simpl in *; auto.
  destruct (Ascii.eqb c b) eqn:E; simpl in H; [discriminate|].
  destruct (find [c] s); [discriminate|].
  intros [Hb|Hin]; [|tauto].
  subst b. now rewrite Ascii.eqb_refl in E.
Qed.

Lemma rfind_none sub s : sub <> [] -> rfind sub s = None -> ~ occurs sub s.
Proof.
  intros Hsub. induction s as [|x s IH]; intros H (pre & post & E).
  - destruct pre; [|discriminate]. destruct sub; [congruence | discriminate].
  - simpl in H. destruct (rfind sub s) eqn:R; [discriminate|].
    destruct pre as [|y pre]; simpl in E.
    + rewrite E, starts_with_app in H. discriminate.
    + injection E as _ E. apply IH; auto. now exists pre, post.
Qed.

Lemma rfind_some sub s i :
  sub <> [] -> rfind sub s = Some i ->
  exists pre post,
    s = pre ++ sub ++ post /\ len pre = i /\ ~ occurs sub post.
Proof.
  intros Hsub. revert i. induction s as [|x s IH]; intros i H; simpl in H.
  - destruct sub; [congruence | discriminate].
  - destruct (rfind sub s) as [j|] eqn:R.
    + injection H as <-.
      destruct (IH j eq_refl) as (pre & post & -> & Hl & Hn).
      exists (x :: pre), post. repeat split; simpl; auto.
    + destruct (starts_with sub (x :: s)) eqn:E; [|discriminate].
      injection H as <-.
      destruct (starts_with_split _ _ E) as (post & Hp).
      exists [], post. repeat split; auto.
      intros (a & b & ->).
      apply (rfind_none sub s Hsub R).
      destruct sub as [|c sub]; [congruence|].
      simpl in Hp. injection Hp as _ ->.
      exists (sub ++ a), b. now rewrite <- !app_assoc.
Qed.

Lemma skipn_app_exact (pre post : str) n :
  len pre = n -> skipn n (pre ++ post) = post.
Proof.
  intros <-. unfold len. rewrite skipn_app, skipn_all, Nat.sub_diag. reflexivity.
Qed.

Lemma skipn_suffix (n : nat) (s : str) : exists pre, s = pre ++ skipn n s.
Proof. exists (firstn n s). now rewrite firstn_skipn. Qed.

Lemma ends_nonspace_after_space a c post :
  isspace c = true -> ends_nonspace (a ++ c :: post) -> ends_nonspace post.
Proof.
  intros Hc (s' & z & E & Hz).
  destruct (exists_last (l := c :: post)) as (l' & y & El); [discriminate|].
  rewrite El, app_assoc in E. apply app_inj_tail in E. destruct E as [_ ->].
  destruct post as [|p post].
  - destruct l'; [|destruct l'; discriminate].
    injection El as ->. congruence.
  - destruct (exists_last (l := p :: post)) as (l2 & y2 & E2); [discriminate|].
    rewrite E2 in El. change (c :: l2 ++ [y2]) with ((c :: l2) ++ [y2]) in El.
    apply app_inj_tail in El. destruct El as [_ ->].
    rewrite E2. now exists l2, z.
Qed.

Variable CHUNK_OVERLAP : nat.

(** The code's seed is the seed of the specification's wording. *)
Lemma overlap_seed_spec current_chunk :
  spec_seed CHUNK_OVERLAP current_chunk (overlap_seed CHUNK_OVERLAP current_chunk).
Proof.
  unfold spec_seed, overlap_seed.
  set (w0 := last_chars CHUNK_OVERLAP current_chunk).
  set (w1 := match find (lit " ") w0 with
             | Some first_space => slice_from (first_space + 1) w0
             | None => w0
             end).
  exists w1. split.
  - unfold w1. destruct (find (lit " ") w0) as [i|] eqn:F.
    + destruct (find_char_some _ _ _ F) as (pre & post & E & Hl & Hn).
      rewrite E. unfold slice_from.
      replace (pre ++ " "%char :: post) with ((pre ++ [" "%char]) ++ post)
        by now rewrite <- app_assoc.
      rewrite skipn_app_exact
        by (unfold len in *; rewrite length_app; simpl; lia).
      rewrite <- app_assoc. now apply dpw_space.
    + apply dpw_none. now apply find_char_none.
  - destruct (rfind (lit ". ") w1) as [i|] eqn:R.
    + destruct (rfind_some (lit ". ") w1 i ltac:(discriminate) R) as (pre & post & E & Hl & Hn).
      rewrite E at 1. unfold slice_from.
      replace (skipn (i + 2) w1) with post.
      * now apply fs_boundary.
      * rewrite E.
        replace (pre ++ lit ". " ++ post) with ((pre ++ lit ". ") ++ post)
          by now rewrite <- app_assoc.
        rewrite skipn_app_exact; auto.
        unfold len in *. rewrite length_app. simpl. lia.
    + apply fs_none. now apply rfind_none.
Qed.

Lemma overlap_seed_suffix current_chunk :
  exists pre, current_chunk = pre ++ overlap_seed CHUNK_OVERLAP current_chunk.
Proof.
  unfold overlap_seed.
  set (w0 := last_chars CHUNK_OVERLAP current_chunk).
  set (w1 := match find (lit " ") w0 with
             | Some first_space => slice_from (first_space + 1) w0
             | None => w0
             end).
  set (w2 := match rfind (lit ". ") w1 with
             | Some last_period => slice_from (last_period + 2) w1
             | None => w1
             end).
  destruct (skipn_suffix (len current_chunk - CHUNK_OVERLAP) current_chunk)
    as (p0 & E0). fold (last_chars CHUNK_OVERLAP current_chunk) in E0.
  fold w0 in E0.
  assert (E1 : exists p1, w0 = p1 ++ w1).
  { unfold w1. destruct (find (lit " ") w0); [apply skipn_suffix | now exists []]. }
  destruct E1 as (p1 & E1).
  assert (E2 : exists p2, w1 = p2 ++ w2).
  { unfold w2. destruct (rfind (lit ". ") w1); [apply skipn_suffix | now exists []]. }
  destruct E2 as (p2 & E2).
  exists (p0 ++ p1 ++ p2). rewrite <- !app_assoc, <- E2, <- E1. exact E0.
Qed.

Lemma overlap_seed_len current_chunk :
  len (overlap_seed CHUNK_OVERLAP current_chunk) <= CHUNK_OVERLAP.
Proof.
  unfold overlap_seed.
  set (w0 := last_chars CHUNK_OVERLAP current_chunk).
  set (w1 := match find (lit " ") w0 with
             | Some first_space => slice_from (first_space + 1) w0
             | None => w0
             end).
  assert (H0 : len w0 <= CHUNK_OVERLAP).
  { unfold w0, last_chars, len. rewrite length_skipn. lia. }
  assert (H1 : len w1 <= len w0).
  { unfold w1, slice_from, len.
    destruct (find (lit " ") w0); [rewrite length_skipn|]; lia. }
  destruct (rfind (lit ". ") w1); unfold slice_from, len in *;
    [rewrite length_skipn|]; lia.
Qed.

(** A buffer that ends in a sentence gives a seed that is not empty
    and ends in the same character. *)
Lemma overlap_seed_ends current_chunk :
  0 < CHUNK_OVERLAP -> ends_nonspace current_chunk ->
  ends_nonspace (overlap_seed CHUNK_OVERLAP current_chunk).
Proof.
  intros Hov He. unfold overlap_seed.
  set (w0 := last_chars CHUNK_OVERLAP current_chunk).
  set (w1 := match find (lit " ") w0 with
             | Some first_space => slice_from (first_space + 1) w0
             | None => w0
             end).
  assert (H0 : ends_nonspace w0).
  { destruct He as (s' & c & E & Hc). unfold w0, last_chars. rewrite E.
    unfold len. rewrite length_app. simpl.
    rewrite skipn_app.
    replace (length s' + 1 - CHUNK_OVERLAP - length s') with 0 by lia.
    simpl. apply ends_nonspace_app. now exists [], c. }
  assert (H1 : ends_nonspace w1).
  { unfold w1, slice_from. destruct (find (lit " ") w0) as [i|] eqn:F; [|assumption].
    destruct (find_char_some _ _ _ F) as (pre & post & E & Hl & _).
    rewrite E in H0 |- *.
    replace (pre ++ " "%char :: post) with ((pre ++ [" "%char]) ++ post)
      by now rewrite <- app_assoc.
    rewrite skipn_app_exact
      by (unfold len in *; rewrite length_app; simpl; lia).
    now apply ends_nonspace_after_space with pre " "%char. }
  destruct (rfind (lit ". ") w1) as [i|] eqn:R; [|assumption].
  destruct (rfind_some (lit ". ") w1 i ltac:(discriminate) R) as (pre & post & E & Hl & _).
  unfold slice_from. rewrite E in H1 |- *.
  replace (pre ++ lit ". " ++ post) with ((pre ++ lit ". ") ++ post)
    by now rewrite <- app_assoc.
  rewrite skipn_app_exact
    by (unfold len in *; rewrite length_app; simpl; lia).
  apply ends_nonspace_after_space with (pre ++ ["."%char]) " "%char; auto.
  now rewrite <- app_assoc.
Qed.

(** *** The specification's seed is unique *)

Lemma first_space_unique (pre pre' post post' : str) :
  ~ In space pre -> ~ In space pre' ->
  pre ++ space :: post = pre' ++ space :: post' ->
  post = post'.
Proof.
  revert pre'. induction pre as [|c pre IH]; intros pre' H H' E.
  - destruct pre' as [|c' pre']; simpl in E.
    + now injection E.
    + injection E as <- _. exfalso. apply H'. now left.
  - destruct pre' as [|c' pre']; simpl in E.
    + injection E as -> _. exfalso. apply H. now left.
    + injection E as _ E. apply (IH pre'); auto.
      * intros Hin. apply H. now right.
      * intros Hin. apply H'. now right.
Qed.

Lemma drop_partial_word_unique s a b :
  drop_partial_word s a -> drop_partial_word s b -> a = b.
Proof.
  intros Ha Hb. destruct Ha as [pre post Hp|w Hw].
  - remember (pre ++ space :: post) as s eqn:Es.
    destruct Hb as [pre' post' Hp'|w' Hw'].
    + now apply first_space_unique with pre pre'.
    + exfalso. apply Hw'. subst w'. apply in_or_app. right. now left.
  - remember w as s eqn:Es in Hb.
    destruct Hb as [pre' post' Hp'|w' Hw'].
    + exfalso. apply Hw. subst w. apply in_or_app. right. now left.
    + now subst.
Qed.

Lemma last_boundary_unique (pre pre' post post' : str) :
  ~ occurs (lit ". ") post -> ~ occurs (lit ". ") post' ->
  pre ++ lit ". " ++ post = pre' ++ lit ". " ++ post' ->
  post = post'.
Proof.
  revert pre'. induction pre as [|c pre IH]; intros pre' H H' E.
  - destruct pre' as [|c' pre']; simpl in E.
    + now injection E.
    + injection E as _ E. destruct pre' as [|c2 pre']; simpl in E.
      * discriminate.
      * injection E as _ E. exfalso. apply H. now exists pre', post'.
  - destruct pre' as [|c' pre']; simpl in E.
    + injection E as _ E. destruct pre as [|c2 pre]; simpl in E.
      * discriminate.
      * injection E as _ E. exfalso. apply H'. now exists pre, post.
    + injection E as _ E. now apply (IH pre').
Qed.

Lemma fresh_sentence_unique s a b :
  fresh_sentence s a -> fresh_sentence s b -> a = b.
Proof.
  intros Ha Hb. destruct Ha as [pre post Hp|w Hw].
  - remember (pre ++ lit ". " ++ post) as s eqn:Es.
    destruct Hb as [pre' post' Hp'|w' Hw'].
    + now apply last_boundary_unique with pre pre'.
    + exfalso. apply Hw'. subst w'. now exists pre, post.
  - remember w as s eqn:Es in Hb.
    destruct Hb as [pre' post' Hp'|w' Hw'].
    + exfalso. apply Hw. subst w. now exists pre', post'.
    + now subst.
Qed.

Lemma spec_seed_unique overlap closed a b :
  spec_seed overlap closed a -> spec_seed overlap closed b -> a = b.
Proof.
  intros (w & Hw & Ha) (w' & Hw' & Hb).
  rewrite (drop_partial_word_unique _ _ _ Hw Hw') in Ha.
  now apply fresh_sentence_unique with w'.
Qed.

End SeedFacts.

(* ================================================================== *)
(** ** Invariants of the trace *)
(* ================================================================== *)

Section TraceFacts.

Variables CHUNK_SIZE CHUNK_OVERLAP : nat.
Hypothesis overlap_pos : 0 < CHUNK_OVERLAP.

Local Abbreviation piece_step' := (piece_step CHUNK_SIZE CHUNK_OVERLAP).
Local Abbreviation para_pieces' := (para_pieces CHUNK_SIZE CHUNK_OVERLAP).

Lemma last_opt_snoc prev l x : last_opt prev (l ++ [x]) = Some x.
Proof. unfold last_opt. now rewrite fold_left_app. Qed.

Lemma chain_snoc prev l x :
  chain CHUNK_OVERLAP prev l ->
  seed x = expected_seed CHUNK_OVERLAP (last_opt prev l) ->
  chain CHUNK_OVERLAP prev (l ++ [x]).
Proof.
  revert prev. induction l as [|y l IH]; intros prev Hc Hx; simpl in *.
  - auto.
  - destruct Hc as [Hy Hc]. split; auto.
Qed.

Lemma chain_adjacent prev l1 p q l2 :
  chain CHUNK_OVERLAP prev (l1 ++ p :: q :: l2) ->
  seed q = expected_seed CHUNK_OVERLAP (Some p).
Proof.
  revert prev. induction l1 as [|y l1 IH]; intros prev H; simpl in H.
  - tauto.
  - destruct H as [_ H]. now apply IH with (Some y).
Qed.

Lemma chain_first ps p l :
  chain CHUNK_OVERLAP None ps -> ps = p :: l -> seed p = None.
Proof. intros H ->. simpl in H. tauto. Qed.

Lemma piece_step_inv st sent :
  tr_inv CHUNK_SIZE CHUNK_OVERLAP st ->
  tr_inv CHUNK_SIZE CHUNK_OVERLAP (piece_step' st sent).
Proof.
  destruct st as [out cur]. unfold tr_inv. simpl.
  intros (Hwf & Hout & Hfo & Hfc & Hso & Hsc & Hch & Hsd).
  unfold piece_step.
  destruct (is_empty (strip sent)) eqn:Es; [simpl; tauto|].
  assert (Hc : clean (strip sent))
    by (apply clean_strip; now apply is_empty_false).
  destruct (negb (is_empty (buffer cur))
            && (CHUNK_SIZE <? len (buffer cur) + len (strip sent) + 1)) eqn:Ec;
    simpl.
  - apply andb_prop in Ec. destruct Ec as [Ene _].
    assert (Hg : group cur <> []).
    { intros Hg. rewrite (buffer_nil _ Hwf Hg) in Ene. discriminate. }
    split; [now apply wf_next_piece|].
    split; [apply Forall_app; split; [assumption|];
            constructor; [now split | constructor]|].
    split; [apply Forall_app; split; [assumption|];
            constructor; [exact Hfc | constructor]|].
    split; [right; now exists (strip sent)|].
    split; [apply Forall_app; split; [assumption|];
            constructor; [exact Hsc | constructor]|].
    split.
    + intros s Hs. unfold next_piece in Hs. simpl in Hs.
      destruct (CHUNK_OVERLAP <? len (buffer cur)); [|discriminate].
      injection Hs as <-. apply overlap_seed_ends; [assumption|].
      now apply buffer_ends.
    + split; [now apply chain_snoc|].
      now rewrite last_opt_snoc.
  - split; [now apply wf_append|].
    repeat (split; [assumption|]).
    split; [|tauto].
    apply andb_false_iff in Ec.
    destruct (group cur) as [|x g] eqn:Eg.
    + right. now exists (strip sent).
    + left. rewrite <- Eg. rewrite <- append_buffer_piece by assumption.
      assert (Hb : buffer cur <> []).
      { apply ends_nonspace_nonempty, buffer_ends; [assumption | congruence]. }
      apply is_empty_false in Hb. rewrite Hb in *.
      destruct Ec as [Ec|Ec]; [discriminate|].
      apply Nat.ltb_ge in Ec.
      unfold len in *. rewrite !length_app. simpl. lia.
Qed.

Lemma piece_fold_inv sents : forall st,
  tr_inv CHUNK_SIZE CHUNK_OVERLAP st ->
  tr_inv CHUNK_SIZE CHUNK_OVERLAP (fold_left piece_step' sents st).
Proof.
  induction sents as [|s sents IH]; intros st H; simpl; auto.
  apply IH. now apply piece_step_inv.
Qed.

Lemma tr_inv_init : tr_inv CHUNK_SIZE CHUNK_OVERLAP ([], empty_piece).
Proof.
  unfold tr_inv. simpl.
  split; [apply wf_empty_piece|].
  split; [constructor|]. split; [constructor|].
  split; [left; unfold len; simpl; lia|].
  split; [constructor|].
  split; [intros s Hs; discriminate|].
  split; [exact I | reflexivity].
Qed.

Lemma close_pieces_ok st :
  tr_inv CHUNK_SIZE CHUNK_OVERLAP st ->
  pieces_ok CHUNK_SIZE CHUNK_OVERLAP (close_pieces st).
Proof.
  destruct st as [out cur]. unfold tr_inv, pieces_ok, close_pieces. simpl.
  intros (Hwf & Hout & Hfo & Hfc & Hso & Hsc & Hch & Hsd).
  destruct (group cur) as [|x g] eqn:Eg; [tauto|].
  split; [apply Forall_app; split; [assumption|];
          constructor; [split; [assumption | congruence] | constructor]|].
  split; [apply Forall_app; split; [assumption|];
          constructor; [|constructor]|].
  { destruct Hfc as [H|H]; [now left | right].
    destruct H as (s & Hs). exists s. congruence. }
  split; [apply Forall_app; split; [assumption|];
          constructor; [assumption | constructor]|].
  now apply chain_snoc.
Qed.

(** The pieces of every paragraph are well formed, fit or hold one
    sentence, and are chained by their seeds. *)
Lemma para_pieces_ok para :
  clean para -> pieces_ok CHUNK_SIZE CHUNK_OVERLAP (para_pieces' para).
Proof.
  intros Hc. unfold para_pieces.
  destruct (len para <=? CHUNK_SIZE) eqn:E.
  - unfold pieces_ok.
    split; [constructor; [|constructor]; split; [|discriminate];
            split; simpl; [now constructor | discriminate]|].
    split; [constructor; [|constructor]; right; now exists para|].
    split; [constructor; [|constructor]; intros s Hs; discriminate|].
    simpl. tauto.
  - apply close_pieces_ok, piece_fold_inv, tr_inv_init.
Qed.

(** *** The groups are the sentence units, in order *)

Lemma piece_step_groups st sent :
  List.concat (map group (fst (piece_step' st sent)))
    ++ group (snd (piece_step' st sent))
  = (List.concat (map group (fst st)) ++ group (snd st))
    ++ (if is_empty (strip sent) then [] else [strip sent]).
Proof.
  destruct st as [out cur]. unfold piece_step.
  destruct (is_empty (strip sent)); [simpl; now rewrite app_nil_r|].
  destruct (negb (is_empty (buffer cur))
            && (CHUNK_SIZE <? len (buffer cur) + len (strip sent) + 1)); simpl.
  - rewrite map_app, concat_app. simpl. now rewrite app_nil_r.
  - now rewrite app_assoc.
Qed.

Lemma piece_fold_groups sents : forall st,
  List.concat (map group (fst (fold_left piece_step' sents st)))
    ++ group (snd (fold_left piece_step' sents st))
  = (List.concat (map group (fst st)) ++ group (snd st))
    ++ filter (fun s => negb (is_empty s)) (map strip sents).
Proof.
  induction sents as [|s sents IH]; intros st; simpl.
  - now rewrite app_nil_r.
  - rewrite IH, piece_step_groups.
    destruct (is_empty (strip s)); simpl.
    + now rewrite app_nil_r.
    + now rewrite <- app_assoc.
Qed.

Lemma close_pieces_groups st :
  List.concat (map group (close_pieces st))
  = List.concat (map group (fst st)) ++ group (snd st).
Proof.
  unfold close_pieces. destruct (group (snd st)) eqn:E.
  - now rewrite app_nil_r.
  - rewrite map_app, concat_app. simpl. now rewrite E, app_nil_r.
Qed.

Lemma para_pieces_groups para :
  List.concat (map group (para_pieces' para)) = para_units CHUNK_SIZE para.
Proof.
  unfold para_pieces, para_units.
  destruct (len para <=? CHUNK_SIZE); [reflexivity|].
  rewrite close_pieces_groups, piece_fold_groups. reflexivity.
Qed.

Lemma page_pieces_groups t :
  List.concat (map group (List.concat (page_pieces CHUNK_SIZE CHUNK_OVERLAP t)))
  = flat_map (para_units CHUNK_SIZE) (paragraphs_of t).
Proof.
  unfold page_pieces. induction (paragraphs_of t) as [|p ps IH]; simpl; auto.
  now rewrite map_app, concat_app, IH, para_pieces_groups.
Qed.

Lemma join_app sep (g1 g2 : list str) :
  g1 <> [] -> g2 <> [] ->
  join sep (g1 ++ g2) = join sep g1 ++ sep ++ join sep g2.
Proof.
  intros H1 H2. induction g1 as [|x g1 IH]; [congruence|].
  destruct g1 as [|y g1].
  - simpl. destruct g2; [congruence | reflexivity].
  - change (join sep ((x :: y :: g1) ++ g2))
      with (x ++ sep ++ join sep ((y :: g1) ++ g2)).
    rewrite IH by discriminate.
    change (join sep (x :: y :: g1)) with (x ++ sep ++ join sep (y :: g1)).
    now rewrite <- !app_assoc.
Qed.

Lemma join_concat sep (gs : list (list str)) :
  Forall (fun g => g <> []) gs ->
  join sep (map (join sep) gs) = join sep (List.concat gs).
Proof.
  induction gs as [|g gs IH]; intros Hall; [reflexivity|].
  inversion Hall as [|? ? Hg Hgs]; subst.
  destruct gs as [|g' gs].
  - simpl. now rewrite app_nil_r.
  - change (join sep (map (join sep) (g :: g' :: gs)))
      with (join sep g ++ sep ++ join sep (map (join sep) (g' :: gs))).
    rewrite IH by assumption.
    change (List.concat (g :: g' :: gs)) with (g ++ List.concat (g' :: gs)).
    rewrite join_app; auto.
    inversion Hgs; subst. simpl. destruct g'; [congruence | discriminate].
Qed.

(** *** The text of a piece *)

Lemma join_starts sep (g : list str) :
  g <> [] -> Forall clean g -> starts_nonspace (join sep g).
Proof.
  destruct g as [|x g]; [congruence|]. intros _ Hall.
  inversion Hall as [|? ? [(c & x' & -> & Hc) _] _]; subst.
  destruct g; simpl; now exists c; eexists.
Qed.

Lemma lstrip_app_ends s t : ends_nonspace s -> lstrip (s ++ t) = lstrip s ++ t.
Proof.
  intros (s' & c & -> & Hc). rewrite <- app_assoc. simpl.
  now apply lstrip_app_nonspace.
Qed.

Lemma lstrip_of_suffix pre s :
  exists pre', lstrip (pre ++ s) = pre' ++ lstrip s.
Proof.
  induction pre as [|x pre IH]; simpl.
  - now exists [].
  - destruct (isspace x); [assumption|].
    destruct (lstrip_suffix s) as (w & Hw & _).
    exists (x :: pre ++ w). simpl. now rewrite <- app_assoc, <- Hw.
Qed.

Lemma piece_text_by_seed p :
  wf_piece p -> group p <> [] -> seed_ok p ->
  piece_text p = piece_text_spec p.
Proof.
  intros Hwf Hg Hs. rewrite piece_text_ends by assumption.
  unfold buffer, piece_text_spec. destruct (seed p) as [s|] eqn:E.
  - apply lstrip_app_ends. now apply Hs.
  - apply lstrip_starts. apply join_starts; [assumption | apply Hwf].
Qed.

End TraceFacts.

(* ================================================================== *)
(** ** Size, seeding, overlap and coverage of the chunks *)
(* ================================================================== *)

Section ChunkBounds.

Variables CHUNK_SIZE CHUNK_OVERLAP : nat.
Hypothesis overlap_pos : 0 < CHUNK_OVERLAP.

Lemma page_pieces_ok t ps :
  In ps (page_pieces CHUNK_SIZE CHUNK_OVERLAP t) ->
  pieces_ok CHUNK_SIZE CHUNK_OVERLAP ps.
Proof.
  unfold page_pieces. intros H. apply in_map_iff in H.
  destruct H as (para & <- & Hin).
  apply para_pieces_ok; [assumption|]. now apply paragraphs_clean with t.
Qed.

Lemma page_piece_facts t p :
  In p (List.concat (page_pieces CHUNK_SIZE CHUNK_OVERLAP t)) ->
  wf_piece p /\ group p <> [] /\ fits CHUNK_SIZE p /\ seed_ok p.
Proof.
  intros H. apply in_concat in H. destruct H as (ps & Hps & Hp).
  destruct (page_pieces_ok _ _ Hps) as (Hwf & Hfit & Hseed & _).
  rewrite Forall_forall in Hwf, Hfit, Hseed.
  destruct (Hwf p Hp). auto.
Qed.

(** Every chunk of a page has at most [CHUNK_SIZE] characters, or is one
    sentence behind, at most, its seed. *)
Lemma page_chunk_fits_or_one_sentence (parent_doc : Node) (n : Node) :
  In n (page_chunks CHUNK_SIZE CHUNK_OVERLAP parent_doc) ->
  len (text n) <= CHUNK_SIZE
  \/ exists p s, text n = piece_text p /\ group p = [s] /\ clean s.
Proof.
  intros Hn. apply (in_map text) in Hn.
  rewrite page_chunks_texts in Hn. apply in_map_iff in Hn.
  destruct Hn as (p & <- & Hp).
  destruct (page_piece_facts _ _ Hp) as (Hwf & Hg & [Hfit|(s & Hs)] & _).
  - left. unfold piece_text. pose proof (strip_len (buffer p)). lia.
  - right. exists p, s. split; [reflexivity|]. split; [assumption|].
    destruct Hwf as [Hall _]. rewrite Hs in Hall. now inversion Hall.
Qed.

(** With a space among the trailing characters, the seed begins right
    after a space of the closed buffer. *)
Lemma overlap_seed_after_space current_chunk :
  find (lit " ") (last_chars CHUNK_OVERLAP current_chunk) <> None ->
  exists pre,
    current_chunk = pre ++ " "%char :: overlap_seed CHUNK_OVERLAP current_chunk.
Proof.
  intros Hf. unfold overlap_seed.
  set (w0 := last_chars CHUNK_OVERLAP current_chunk) in *.
  destruct (skipn_suffix (len current_chunk - CHUNK_OVERLAP) current_chunk)
    as (p0 & E0). fold (last_chars CHUNK_OVERLAP current_chunk) in E0.
  fold w0 in E0.
  destruct (find (lit " ") w0) as [i|] eqn:F; [|congruence].
  destruct (find_char_some _ _ _ F) as (pre & post & E & Hl & _).
  assert (E1 : slice_from (i + 1) w0 = post).
  { unfold slice_from. rewrite E.
    replace (pre ++ " "%char :: post) with ((pre ++ [" "%char]) ++ post)
      by now rewrite <- app_assoc.
    apply skipn_app_exact. unfold len in *. rewrite length_app. simpl. lia. }
  rewrite E1.
  destruct (rfind (lit ". ") post) as [j|] eqn:R.
  - destruct (rfind_some (lit ". ") post j ltac:(discriminate) R)
      as (pre' & post' & E' & Hl' & _).
    assert (E2 : slice_from (j + 2) post = post').
    { unfold slice_from. rewrite E'.
      replace (pre' ++ lit ". " ++ post') with ((pre' ++ lit ". ") ++ post')
        by now rewrite <- app_assoc.
      apply skipn_app_exact. unfold len in *. rewrite length_app. simpl. lia. }
    rewrite E2. exists (p0 ++ pre ++ " "%char :: pre' ++ ["."%char]).
    rewrite E0, E, E'. simpl. rewrite <- !app_assoc. simpl.
    now rewrite <- !app_assoc.
  - exists (p0 ++ pre). rewrite E0, E. now rewrite <- app_assoc.
Qed.

End ChunkBounds.

(** C1.  On a page whose one paragraph is a sentence of 100 characters
    followed by a sentence of 290 characters, the code emits a second
    chunk of 321 characters: the seed of 30 characters, a space, and the
    second sentence.  No sentence of the paragraph exceeds
    [CHUNK_SIZE] = 300, yet the chunk does. *)
Theorem oversized_chunk_without_long_sentence :
  let chunks := snd (create_needle_chunks [page_two_sentences]) in
  map text chunks
    = [sentence 10; lit "abcdefghi abcdefghi abcdefghi. " ++ sentence 29]
  /\ map (fun n => dict_get (lit "chunk_size") (metadata n)) chunks
     = [Some (VInt 100); Some (VInt 321)]
  /\ units_of (text page_two_sentences) = [sentence 10; sentence 29]
  /\ map len (units_of (text page_two_sentences)) = [100; 290]
  /\ config.CHUNK_SIZE = 300.
Proof. vm_compute. repeat split. Qed.

(** C2, the claim as worded fails: the buffer [Hi.] is closed when the
    sentence of 300 characters arrives, and the new buffer is that
    sentence alone; nothing of [Hi.] is copied in front of it. *)
Lemma short_chunk_not_seeded :
  let st := sentence_step config.CHUNK_SIZE config.CHUNK_OVERLAP
              page_short_opening ([], lit "Hi.") (sentence 30) in
  config.CHUNK_SIZE < len (lit "Hi.") + len (strip (sentence 30)) + 1
  /\ map text (fst st) = [lit "Hi."]
  /\ snd st = sentence 30
  /\ map text (page_chunks config.CHUNK_SIZE config.CHUNK_OVERLAP
                 page_short_opening)
     = [lit "Hi."; sentence 30]
  /\ ~ seeding_claim.
Proof.
  split; [vm_compute; lia|].
  split; [reflexivity|].
  split; [vm_compute; reflexivity|].
  split; [vm_compute; reflexivity|].
  intros H.
  destruct (H page_short_opening [] (lit "Hi.") (sentence 30))
    as (seed_text & _ & E).
  - discriminate.
  - vm_compute. discriminate.
  - vm_compute. lia.
  - apply (f_equal len) in E. revert E.
    replace (snd _) with (sentence 30) by (vm_compute; reflexivity).
    replace (strip (sentence 30)) with (sentence 30) by (vm_compute; reflexivity).
    unfold len. rewrite !length_app. simpl. lia.
Qed.

(** C2, amended.  When a sentence arrives that would make a non-empty
    buffer exceed [CHUNK_SIZE], the buffer is closed as a chunk.  If the
    closed buffer is longer than [CHUNK_OVERLAP], the new buffer is the
    corrected seed (the trailing [CHUNK_OVERLAP] characters, past the
    first space if there is one, then past the last [". "] if there is
    one), a single space, and the sentence; that seed is the only text
    the wording of the correction admits.  Otherwise the new buffer is
    the sentence alone. *)
Theorem closed_chunk_seeding
  (parent_doc : Node) (chunks : list Node) (current_chunk sent : str) :
  current_chunk <> [] -> strip sent <> [] ->
  config.CHUNK_SIZE < len current_chunk + len (strip sent) + 1 ->
  let st := sentence_step config.CHUNK_SIZE config.CHUNK_OVERLAP parent_doc
              (chunks, current_chunk) sent in
  fst st = chunks ++ [new_node parent_doc chunks (strip current_chunk)]
  /\ (config.CHUNK_OVERLAP < len current_chunk ->
        exists seed_text,
          spec_seed config.CHUNK_OVERLAP current_chunk seed_text
          /\ (forall s, spec_seed config.CHUNK_OVERLAP current_chunk s ->
                s = seed_text)
          /\ snd st = seed_text ++ lit " " ++ strip sent)
  /\ (len current_chunk <= config.CHUNK_OVERLAP -> snd st = strip sent).
Proof.
  intros Hc Hs Hlen st. unfold st, sentence_step.
  apply is_empty_false in Hc, Hs. rewrite Hc, Hs.
  apply Nat.ltb_lt in Hlen. rewrite Hlen. simpl.
  split; [reflexivity|]. unfold next_buffer. split.
  - intros H. apply Nat.ltb_lt in H. rewrite H.
    exists (overlap_seed config.CHUNK_OVERLAP current_chunk).
    split; [apply overlap_seed_spec|]. split; [|reflexivity].
    intros s0 Hs0. apply spec_seed_unique with config.CHUNK_OVERLAP current_chunk;
      [assumption | apply overlap_seed_spec].
  - intros H. apply Nat.ltb_ge in H. now rewrite H.
Qed.

(** Witness of [closed_chunk_seeding]: the buffer holding the sentence of
    100 characters, closed by the sentence of 290 characters. *)
Lemma closed_chunk_seeding_witness :
  let st := sentence_step config.CHUNK_SIZE config.CHUNK_OVERLAP
              page_two_sentences ([], sentence 10) (sentence 29) in
  fst st = [new_node page_two_sentences [] (strip (sentence 10))]
  /\ exists seed_text,
       spec_seed config.CHUNK_OVERLAP (sentence 10) seed_text
       /\ snd st = seed_text ++ lit " " ++ strip (sentence 29).
Proof.
  destruct (closed_chunk_seeding page_two_sentences [] (sentence 10) (sentence 29))
    as (H1 & H2 & _).
  - vm_compute; discriminate.
  - vm_compute; discriminate.
  - vm_compute; lia.
  - split; [exact H1|].
    destruct H2 as (seed_text & Hs & _ & Hb); [vm_compute; lia|].
    now exists seed_text.
Defined.

(** C5.  On a page whose first sentence ends in a token of 60
    characters, the closed buffer has no space among its last 40
    characters, and the seed of the next chunk is those 40 characters: it
    begins inside the token. *)
Theorem seed_starts_inside_long_token :
  let closed := lit "See " ++ long_token ++ lit "." in
  let seed_text := repeat "x"%char 39 ++ lit "." in
  page_pieces config.CHUNK_SIZE config.CHUNK_OVERLAP (text page_long_token)
    = [[ {| seed := None; group := [closed] |};
         {| seed := Some seed_text; group := [sentence 29] |} ]]
  /\ map text (snd (create_needle_chunks [page_long_token]))
     = [closed; seed_text ++ lit " " ++ sentence 29]
  /\ overlap_seed config.CHUNK_OVERLAP closed = seed_text
  /\ find (lit " ") (last_chars config.CHUNK_OVERLAP closed) = None
  /\ starts_mid_word closed seed_text.
Proof.
  intros closed seed_text.
  split; [vm_compute; reflexivity|].
  split; [vm_compute; reflexivity|].
  split; [vm_compute; reflexivity|].
  split; [vm_compute; reflexivity|].
  exists (lit "See " ++ repeat "x"%char 20), "x"%char, "x"%char,
    (repeat "x"%char 38 ++ lit ".").
  repeat split; vm_compute; reflexivity.
Qed.

(** C4, the claim as worded fails.  The paragraph gives four chunks.
    The first, [Hi.], and the second share nothing; the second and the
    third share 30 characters, not 40; and the third is not the last. *)
Lemma overlap_shorter_than_configured :
  let ps := para_pieces config.CHUNK_SIZE config.CHUNK_OVERLAP para_four_chunks in
  let seed_text := lit "abcdefghi abcdefghi abcdefghi." in
  map text (snd (create_needle_chunks [mkdoc (lit "page_1") para_four_chunks]))
    = [lit "Hi."; sentence 30;
       seed_text ++ lit " " ++ sentence 25;
       seed_text ++ lit " " ++ sentence 5]
  /\ map piece_text ps
     = [lit "Hi."; sentence 30;
        seed_text ++ lit " " ++ sentence 25;
        seed_text ++ lit " " ++ sentence 5]
  /\ map seed ps = [None; None; Some seed_text; Some seed_text]
  /\ len seed_text = 30
  /\ ~ shares_overlap config.CHUNK_OVERLAP (lit "Hi.") (sentence 30)
  /\ ~ shares_overlap config.CHUNK_OVERLAP (sentence 30)
         (seed_text ++ lit " " ++ sentence 25)
  /\ ~ exact_overlap_claim.
Proof.
  intros ps seed_text.
  assert (Hps : ps = [ {| seed := None; group := [lit "Hi."] |};
                       {| seed := None; group := [sentence 30] |};
                       {| seed := Some seed_text; group := [sentence 25] |};
                       {| seed := Some seed_text; group := [sentence 5] |} ])
    by (vm_compute; reflexivity).
  assert (H1 : ~ shares_overlap config.CHUNK_OVERLAP (lit "Hi.") (sentence 30)).
  { intros (H & _). vm_compute in H. lia. }
  assert (H2 : ~ shares_overlap config.CHUNK_OVERLAP (sentence 30)
                   (seed_text ++ lit " " ++ sentence 25)).
  { intros (_ & _ & H). vm_compute in H. discriminate. }
  split; [vm_compute; reflexivity|].
  split; [vm_compute; reflexivity|].
  split; [vm_compute; reflexivity|].
  split; [reflexivity|].
  split; [exact H1|]. split; [exact H2|].
  intros H. apply H2.
  apply (H para_four_chunks
           [ {| seed := None; group := [lit "Hi."] |} ]
           {| seed := None; group := [sentence 30] |}
           {| seed := Some seed_text; group := [sentence 25] |}
           [ {| seed := Some seed_text; group := [sentence 5] |} ]).
  - split; [now exists "H"%char; eexists|].
    exists (removelast para_four_chunks), "."%char. split; vm_compute; reflexivity.
  - exact Hps.
  - discriminate.
Qed.

(** C4, amended.  The chunk texts of a page are the texts of the pieces
    of its paragraphs, and for two consecutive pieces of one paragraph:
    the later chunk carries the seed computed from the earlier chunk's
    buffer when that buffer has more than [CHUNK_OVERLAP] = 40
    characters, and no seed otherwise.  A seed, its leading white space
    aside, has between 1 and 40 characters, ends the earlier chunk's
    text and begins the later chunk's text, where a single space and the
    chunk's sentences follow it. *)
Theorem consecutive_chunks_overlap
  (parent_doc : Node) (para : str) (l1 : list piece) (p q : piece)
  (l2 : list piece) :
  In para (paragraphs_of (text parent_doc)) ->
  para_pieces config.CHUNK_SIZE config.CHUNK_OVERLAP para
    = l1 ++ p :: q :: l2 ->
  map text (page_chunks config.CHUNK_SIZE config.CHUNK_OVERLAP parent_doc)
    = map piece_text
        (List.concat
           (map (para_pieces config.CHUNK_SIZE config.CHUNK_OVERLAP)
              (paragraphs_of (text parent_doc))))
  /\ seed q = (if config.CHUNK_OVERLAP <? len (buffer p)
               then Some (overlap_seed config.CHUNK_OVERLAP (buffer p))
               else None)
  /\ piece_text q = piece_text_spec q
  /\ (forall s, seed q = Some s ->
        1 <= len (lstrip s) <= config.CHUNK_OVERLAP
        /\ (exists pre, piece_text p = pre ++ lstrip s)
        /\ piece_text q = lstrip s ++ lit " " ++ body q).
Proof.
  intros Hin Hps.
  assert (Hov : 0 < config.CHUNK_OVERLAP) by (unfold config.CHUNK_OVERLAP; lia).
  pose proof (para_pieces_ok config.CHUNK_SIZE config.CHUNK_OVERLAP Hov para
                (paragraphs_clean _ _ Hin)) as (Hwf & _ & Hseed & Hch).
  rewrite Hps in Hwf, Hseed, Hch.
  rewrite Forall_forall in Hwf, Hseed.
  destruct (Hwf p) as [Hwp Hgp]; [apply in_or_app; right; simpl; auto|].
  destruct (Hwf q) as [Hwq Hgq]; [apply in_or_app; right; simpl; auto|].
  assert (Hsq : seed_ok q) by (apply Hseed, in_or_app; right; simpl; auto).
  pose proof (chain_adjacent _ _ _ _ _ _ Hch) as Hq. simpl in Hq.
  assert (Htq : piece_text q = piece_text_spec q)
    by now apply piece_text_by_seed.
  split; [apply page_chunks_texts|].
  split; [exact Hq|]. split; [exact Htq|].
  intros s Hs.
  assert (He : ends_nonspace s) by now apply Hsq.
  rewrite Hs in Hq.
  destruct (config.CHUNK_OVERLAP <? len (buffer p)); [|discriminate].
  injection Hq as ->.
  split; [|split].
  - split.
    + apply lstrip_ends, ends_nonspace_nonempty in He.
      destruct (lstrip _); [congruence | unfold len; simpl; lia].
    + pose proof (lstrip_len (overlap_seed config.CHUNK_OVERLAP (buffer p))).
      pose proof (overlap_seed_len config.CHUNK_OVERLAP (buffer p)). lia.
  - rewrite piece_text_ends by assumption.
    destruct (overlap_seed_suffix config.CHUNK_OVERLAP (buffer p)) as (pre & E).
    destruct (lstrip_of_suffix pre (overlap_seed config.CHUNK_OVERLAP (buffer p)))
      as (pre' & E').
    exists pre'. rewrite <- E'. now rewrite <- E.
  - rewrite Htq. unfold piece_text_spec. now rewrite Hs.
Qed.

(** Witness of [consecutive_chunks_overlap]: the second and third chunks
    of the paragraph of four chunks. *)
Lemma consecutive_chunks_overlap_witness :
  let doc := mkdoc (lit "page_1") para_four_chunks in
  let p := {| seed := None; group := [sentence 30] |} in
  let q := {| seed := Some (lit "abcdefghi abcdefghi abcdefghi.");
              group := [sentence 25] |} in
  In para_four_chunks (paragraphs_of (text doc))
  /\ seed q = (if config.CHUNK_OVERLAP <? len (buffer p)
               then Some (overlap_seed config.CHUNK_OVERLAP (buffer p))
               else None)
  /\ piece_text q = piece_text_spec q.
Proof.
  intros doc p q.
  assert (Hin : In para_four_chunks (paragraphs_of (text doc)))
    by (vm_compute; auto).
  split; [exact Hin|].
  destruct (consecutive_chunks_overlap doc para_four_chunks
              [ {| seed := None; group := [lit "Hi."] |} ] p q
              [ {| seed := Some (lit "abcdefghi abcdefghi abcdefghi.");
                   group := [sentence 5] |} ] Hin)
    as (_ & H1 & H2 & _).
  - vm_compute; reflexivity.
  - split; assumption.
Defined.

(* ================================================================== *)
(** ** Coverage *)
(* ================================================================== *)

Section Coverage.

Lemma cut_prefixes_length cuts : forall texts,
  List.length (List.concat (cut_prefixes cuts texts))
  <= List.length (List.concat texts).
Proof.
  induction cuts as [|n cuts IH]; intros texts; simpl; [lia|].
  destruct texts as [|t texts]; simpl; [lia|].
  rewrite !length_app, length_skipn. specialize (IH texts). lia.
Qed.

Lemma split_from_chars sep c s : forall k acc p,
  In p (split_from sep k acc s) -> In c p -> In c acc \/ In c s.
Proof.
  induction s as [|x s IH]; intros k acc p Hp Hc; simpl in Hp.
  - destruct Hp as [<-|[]]. now left.
  - destruct k as [|k].
    + destruct (starts_with sep (x :: s)).
      * destruct Hp as [<-|Hp]; [now left|].
        destruct (IH _ _ _ Hp Hc) as [H|H]; [destruct H | right; now right].
      * destruct (IH _ _ _ Hp Hc) as [H|H]; [|right; now right].
        apply in_app_or in H. destruct H as [H|[<-|[]]]; [now left|].
        right. now left.
    + destruct (IH _ _ _ Hp Hc) as [H|H]; [now left | right; now right].
Qed.

Lemma lstrip_chars c s : In c (lstrip s) -> In c s.
Proof.
  destruct (lstrip_suffix s) as (w & E & _). intros H.
  rewrite E. apply in_or_app. now right.
Qed.

Lemma strip_chars c s : In c (strip s) -> In c s.
Proof.
  unfold strip. destruct (rstrip_prefix (lstrip s)) as (w & E & _). intros H.
  apply lstrip_chars. rewrite E. apply in_or_app. now left.
Qed.

Lemma paragraphs_chars c t para :
  In para (paragraphs_of t) -> In c para -> In c t.
Proof.
  unfold paragraphs_of. intros Hp Hc.
  apply filter_In in Hp. destruct Hp as [Hp _].
  apply in_map_iff in Hp. destruct Hp as (x & <- & Hx).
  apply strip_chars in Hc.
  destruct (split_from_chars _ c _ _ _ _ Hx Hc) as [[]|H]. exact H.
Qed.

Lemma starts_with_cons a p b s :
  starts_with (a :: p) (b :: s) = Ascii.eqb a b && starts_with p s.
Proof. reflexivity. Qed.

Lemma replace_from_cons old new c s :
  replace_from old new 0 (c :: s)
  = if starts_with old (c :: s)
    then new ++ replace_from old new (len old - 1) s
    else c :: replace_from old new 0 s.
Proof. reflexivity. Qed.

Lemma split_from_cons sep acc c s :
  split_from sep 0 acc (c :: s)
  = if starts_with sep (c :: s)
    then acc :: split_from sep (len sep - 1) [] s
    else split_from sep 0 (acc ++ [c]) s.
Proof. reflexivity. Qed.

Lemma split_bar_char acc c s :
  Ascii.eqb "|"%char c = false ->
  split_from (lit "|") 0 acc (c :: s) = split_from (lit "|") 0 (acc ++ [c]) s.
Proof.
  intros H. rewrite split_from_cons.
  change (lit "|") with ["|"%char]. rewrite starts_with_cons, H. reflexivity.
Qed.

Lemma split_bar_bar acc s :
  split_from (lit "|") 0 acc ("|"%char :: s) = acc :: split_from (lit "|") 0 [] s.
Proof. reflexivity. Qed.

Lemma replace_dot_space s :
  replace_from (lit ". ") (lit ".|") 0 ("."%char :: " "%char :: s)
  = "."%char :: "|"%char :: replace_from (lit ". ") (lit ".|") 0 s.
Proof. reflexivity. Qed.

Lemma replace_other c s :
  starts_with (lit ". ") (c :: s) = false ->
  replace_from (lit ". ") (lit ".|") 0 (c :: s)
  = c :: replace_from (lit ". ") (lit ".|") 0 s.
Proof. intros H. now rewrite replace_from_cons, H. Qed.

Lemma cut_sentences_dot_space acc s :
  cut_sentences acc ("."%char :: " "%char :: s)
  = (acc ++ ["."%char]) :: cut_sentences [] s.
Proof. reflexivity. Qed.

Lemma cut_sentences_other acc c s :
  starts_with (lit ". ") (c :: s) = false ->
  cut_sentences acc (c :: s) = cut_sentences (acc ++ [c]) s.
Proof.
  intros H. destruct s as [|c' s']; [reflexivity|].
  cbn [cut_sentences].
  change (lit ". ") with ["."%char; " "%char] in H.
  rewrite !starts_with_cons in H. cbn [starts_with] in H.
  rewrite Bool.andb_true_r in H.
  rewrite (Ascii.eqb_sym c), (Ascii.eqb_sym c'), H. reflexivity.
Qed.

(** Without a vertical bar in the paragraph, the code's replace-and-split
    cuts it after every full stop that a space follows. *)
Lemma sentences_from_cut n : forall s acc,
  List.length s <= n -> ~ In "|"%char s ->
  split_from (lit "|") 0 acc (replace_from (lit ". ") (lit ".|") 0 s)
  = cut_sentences acc s.
Proof.
  induction n as [|n IH]; intros s acc Hlen Hbar.
  - destruct s; [reflexivity | simpl in Hlen; lia].
  - destruct s as [|c rest]; [reflexivity|].
    assert (Hc : Ascii.eqb "|"%char c = false).
    { apply Ascii.eqb_neq. intros <-. apply Hbar. now left. }
    assert (Hrest : ~ In "|"%char rest) by (intros H; apply Hbar; now right).
    simpl in Hlen.
    destruct (starts_with (lit ". ") (c :: rest)) eqn:E.
    + destruct (starts_with_split _ _ E) as (post & Hp).
      change (lit ". " ++ post) with ("."%char :: " "%char :: post) in Hp.
      injection Hp as -> ->.
      rewrite replace_dot_space, cut_sentences_dot_space.
      rewrite split_bar_char by reflexivity.
      rewrite split_bar_bar. f_equal.
      apply IH; [simpl in Hlen; lia|].
      intros H. apply Hrest. now right.
    + rewrite replace_other, cut_sentences_other by assumption.
      rewrite split_bar_char by assumption.
      apply IH; [lia | assumption].
Qed.

Lemma sentences_of_cut s :
  ~ In "|"%char s -> sentences_of s = cut_sentences [] s.
Proof.
  intros H. unfold sentences_of, split, replace.
  now apply sentences_from_cut with (List.length s).
Qed.

Lemma para_units_spec chunk_size para :
  ~ In "|"%char para -> para_units chunk_size para = spec_units chunk_size para.
Proof.
  intros H. unfold para_units, spec_units, units_of.
  now rewrite sentences_of_cut.
Qed.

Lemma flat_map_ext_in {A B : Type} (f g : A -> list B) l :
  (forall x, In x l -> f x = g x) -> flat_map f l = flat_map g l.
Proof.
  induction l as [|x l IH]; intros H; simpl; auto.
  rewrite H by now left. rewrite IH; auto. intros y Hy. apply H. now right.
Qed.

End Coverage.

(** C3, the claim as worded fails.  The page [Hi. ] followed by a
    sentence of 300 characters has 304 characters in one paragraph; its
    two chunks, [Hi.] and the sentence, have 303 characters together, so
    no removal of prefixes makes their concatenation the paragraph: the
    space between the sentences is in no chunk. *)
Lemma chunk_texts_lose_separator :
  let texts := map text (page_chunks config.CHUNK_SIZE config.CHUNK_OVERLAP
                           page_short_opening) in
  texts = [lit "Hi."; sentence 30]
  /\ paragraphs_of (text page_short_opening) = [lit "Hi. " ++ sentence 30]
  /\ map (fun p => (seed p, body p))
       (List.concat (page_pieces config.CHUNK_SIZE config.CHUNK_OVERLAP
                       (text page_short_opening)))
     = [(None, lit "Hi."); (None, sentence 30)]
  /\ (forall cuts,
        List.concat (cut_prefixes cuts texts)
        <> List.concat (paragraphs_of (text page_short_opening)))
  /\ ~ coverage_claim.
Proof.
  intros texts.
  assert (Ht : texts = [lit "Hi."; sentence 30]) by (vm_compute; reflexivity).
  assert (Hp : paragraphs_of (text page_short_opening) = [lit "Hi. " ++ sentence 30])
    by (vm_compute; reflexivity).
  assert (Hno : forall cuts,
             List.concat (cut_prefixes cuts texts)
             <> List.concat (paragraphs_of (text page_short_opening))).
  { intros cuts E. apply (f_equal (@List.length ascii)) in E.
    pose proof (cut_prefixes_length cuts texts) as H.
    rewrite E, Ht, Hp in H. vm_compute in H. lia. }
  split; [exact Ht|]. split; [exact Hp|].
  split; [vm_compute; reflexivity|].
  split; [exact Hno|].
  intros H. destruct (H page_short_opening) as (cuts & E).
  now apply (Hno cuts).
Qed.

(** C3, amended.  For every page whose text holds no vertical bar: the
    chunk texts are the texts of the page's pieces; each text is its
    seed (leading white space aside), a single space and its body, or the
    body alone when it has no seed; and the bodies, joined by single
    spaces, are the page's units joined by single spaces, where the
    units are, in order, each paragraph of at most [CHUNK_SIZE]
    characters and, for each longer paragraph, its stripped non-empty
    sentences, cut after every full stop that a space follows. *)
Theorem page_bodies_cover (parent_doc : Node) :
  ~ In "|"%char (text parent_doc) ->
  let pieces :=
    List.concat (page_pieces config.CHUNK_SIZE config.CHUNK_OVERLAP
                   (text parent_doc)) in
  map text (page_chunks config.CHUNK_SIZE config.CHUNK_OVERLAP parent_doc)
    = map piece_text pieces
  /\ Forall (fun p => piece_text p = piece_text_spec p) pieces
  /\ List.concat (map group pieces)
     = flat_map (spec_units config.CHUNK_SIZE) (paragraphs_of (text parent_doc))
  /\ join (lit " ") (map body pieces)
     = join (lit " ")
         (flat_map (spec_units config.CHUNK_SIZE)
            (paragraphs_of (text parent_doc))).
Proof.
  intros Hbar pieces.
  assert (Hov : 0 < config.CHUNK_OVERLAP) by (unfold config.CHUNK_OVERLAP; lia).
  assert (Hgroups : List.concat (map group pieces)
                    = flat_map (spec_units config.CHUNK_SIZE)
                        (paragraphs_of (text parent_doc))).
  { unfold pieces. rewrite page_pieces_groups.
    apply flat_map_ext_in. intros para Hpara.
    apply para_units_spec. intros H. apply Hbar.
    now apply paragraphs_chars with para. }
  split; [apply page_chunks_texts|].
  split; [|split; [exact Hgroups|]].
  - apply Forall_forall. intros p Hp.
    destruct (page_piece_facts _ _ Hov _ _ Hp) as (Hwf & Hg & _ & Hs).
    now apply piece_text_by_seed.
  - rewrite <- Hgroups. unfold body.
    rewrite <- (map_map group (join (lit " "))).
    apply join_concat. apply Forall_map, Forall_forall. intros p Hp.
    now destruct (page_piece_facts _ _ Hov _ _ Hp) as (_ & Hg & _).
Qed.

(** Witness of [page_bodies_cover]: the page of two sentences. *)
Lemma page_bodies_cover_witness :
  ~ In "|"%char (text page_two_sentences)
  /\ join (lit " ")
       (map body
          (List.concat (page_pieces config.CHUNK_SIZE config.CHUNK_OVERLAP
                          (text page_two_sentences))))
     = join (lit " ")
         (flat_map (spec_units config.CHUNK_SIZE)
            (paragraphs_of (text page_two_sentences))).
Proof.
  assert (H : ~ In "|"%char (text page_two_sentences)).
  { intros H. apply (In_nth _ _ " "%char) in H.
    destruct H as (i & Hi & E). revert E.
    assert (forallb (fun c => negb (Ascii.eqb c "|"%char))
              (text page_two_sentences) = true) as Hall
      by (vm_compute; reflexivity).
    rewrite forallb_forall in Hall. intros E.
    specialize (Hall _ (nth_In _ " "%char Hi)). rewrite E in Hall.
    discriminate. }
  split; [exact H|].
  exact (proj2 (proj2 (proj2 (page_bodies_cover page_two_sentences H)))).
Defined.

(* ================================================================== *)
(** ** The chunk table *)
(* ================================================================== *)

Section StoreFacts.

Variable Emb : Type.
Variable get_text_embedding : str -> Emb.

Local Abbreviation Row' := (Row Emb).
Local Abbreviation Table' := (list (Row Emb)).

Lemma value_eqb_eq a b : value_eqb a b = true <-> a = b.
Proof.
  destruct a, b; simpl; split; intros H; try discriminate.
  - apply eqb_eq in H. now subst.
  - injection H as ->. apply eqb_refl.
  - apply Nat.eqb_eq in H. now subst.
  - injection H as ->. apply Nat.eqb_refl.
Qed.

Lemma value_eqb_refl a : value_eqb a a = true.
Proof. now apply value_eqb_eq. Qed.

Lemma value_eqb_neq a b : value_eqb a b = false <-> a <> b.
Proof.
  split; intros H.
  - intros ->. now rewrite value_eqb_refl in H.
  - destruct (value_eqb a b) eqn:E; [|reflexivity].
    apply value_eqb_eq in E. contradiction.
Qed.

Lemma on_conflict_same_id (x r : Row') :
  chunk_id x = chunk_id r -> on_conflict_update x r = r.
Proof. destruct r. unfold on_conflict_update. simpl. now intros ->. Qed.

Lemma upsert_present (r : Row') t :
  has_id (chunk_id r) t = true -> upsert r t = set_row r t.
Proof.
  intros H. unfold upsert, set_row. rewrite H.
  apply map_ext. intros x.
  destruct (value_eqb (chunk_id x) (chunk_id r)) eqn:E; [|reflexivity].
  apply on_conflict_same_id. now apply value_eqb_eq.
Qed.

Lemma upsert_absent (r : Row') t :
  has_id (chunk_id r) t = false -> upsert r t = t ++ [r].
Proof. intros H. unfold upsert. now rewrite H. Qed.

Lemma has_id_In k (t : Table') : has_id k t = true <-> In k (map chunk_id t).
Proof.
  unfold has_id. rewrite existsb_exists, in_map_iff. split.
  - intros (x & Hx & E). apply value_eqb_eq in E. now exists x.
  - intros (x & E & Hx). exists x. split; [assumption|]. now apply value_eqb_eq.
Qed.

Lemma set_row_ids (r : Row') t : map chunk_id (set_row r t) = map chunk_id t.
Proof.
  unfold set_row. rewrite map_map. apply map_ext. intros x.
  destruct (value_eqb (chunk_id x) (chunk_id r)) eqn:E; [|reflexivity].
  apply value_eqb_eq in E. now rewrite E.
Qed.

Lemma upsert_ids (r : Row') t :
  map chunk_id (upsert r t)
  = if has_id (chunk_id r) t then map chunk_id t
    else map chunk_id t ++ [chunk_id r].
Proof.
  destruct (has_id (chunk_id r) t) eqn:H.
  - rewrite upsert_present by assumption. apply set_row_ids.
  - rewrite upsert_absent by assumption. now rewrite map_app.
Qed.

Lemma upsert_nodup (r : Row') t :
  NoDup (map chunk_id t) -> NoDup (map chunk_id (upsert r t)).
Proof.
  intros H. rewrite upsert_ids.
  destruct (has_id (chunk_id r) t) eqn:E; [assumption|].
  apply NoDup_app; [assumption | repeat constructor; auto |].
  intros k Hk [<-|[]].
  apply has_id_In in Hk. congruence.
Qed.

Lemma upsert_all_nodup rows : forall (t : Table'),
  NoDup (map chunk_id t) -> NoDup (map chunk_id (upsert_all rows t)).
Proof.
  induction rows as [|r rows IH]; intros t H; simpl; auto.
  apply IH. now apply upsert_nodup.
Qed.

Lemma has_id_upsert_self (r : Row') t : has_id (chunk_id r) (upsert r t) = true.
Proof.
  apply has_id_In. rewrite upsert_ids.
  destruct (has_id (chunk_id r) t) eqn:E.
  - now apply has_id_In.
  - apply in_or_app. right. now left.
Qed.

Lemma has_id_upsert_keep k (r : Row') t :
  has_id k t = true -> has_id k (upsert r t) = true.
Proof.
  intros H. apply has_id_In. apply has_id_In in H. rewrite upsert_ids.
  destruct (has_id (chunk_id r) t); [assumption|].
  apply in_or_app. now left.
Qed.

Lemma has_id_upsert_all_keep k rows : forall (t : Table'),
  has_id k t = true -> has_id k (upsert_all rows t) = true.
Proof.
  induction rows as [|r rows IH]; intros t H; simpl; auto.
  apply IH. now apply has_id_upsert_keep.
Qed.

Lemma has_id_upsert_all rows : forall (t : Table') r,
  In r rows -> has_id (chunk_id r) (upsert_all rows t) = true.
Proof.
  induction rows as [|r0 rows IH]; intros t r Hr; simpl; [destruct Hr|].
  destruct Hr as [->|Hr].
  - apply has_id_upsert_all_keep, has_id_upsert_self.
  - now apply IH.
Qed.

Lemma upsert_all_app p s (t : Table') :
  upsert_all (p ++ s) t = upsert_all s (upsert_all p t).
Proof. unfold upsert_all. apply fold_left_app. Qed.

Lemma last_write_id k p : forall (acc : Row'),
  chunk_id acc = k -> chunk_id (last_write k p acc) = k.
Proof.
  induction p as [|r p IH]; intros acc H; simpl; auto.
  apply IH. destruct (value_eqb (chunk_id r) k) eqn:E; [|assumption].
  now apply value_eqb_eq.
Qed.

Lemma overwrite_cons r p (x : Row') :
  overwrite (r :: p) x
  = overwrite p (if value_eqb (chunk_id x) (chunk_id r) then r else x).
Proof.
  unfold overwrite. simpl.
  destruct (value_eqb (chunk_id x) (chunk_id r)) eqn:E.
  - apply value_eqb_eq in E. rewrite E, value_eqb_refl. reflexivity.
  - replace (value_eqb (chunk_id r) (chunk_id x)) with false; [reflexivity|].
    symmetry. apply value_eqb_neq. apply value_eqb_neq in E. congruence.
Qed.

Lemma overwrite_snoc p r (x : Row') :
  overwrite (p ++ [r]) x
  = if value_eqb (chunk_id r) (chunk_id x) then r else overwrite p x.
Proof. unfold overwrite, last_write. now rewrite fold_left_app. Qed.

(** When every id of [p] is in the table, writing [p] overwrites rows
    in place. *)
Lemma upsert_all_present p : forall (t : Table'),
  (forall r, In r p -> has_id (chunk_id r) t = true) ->
  upsert_all p t = map (overwrite p) t.
Proof.
  induction p as [|r p IH]; intros t H; simpl.
  - unfold overwrite. simpl. now rewrite map_id.
  - rewrite upsert_present by (apply H; now left).
    rewrite IH.
    + unfold set_row. rewrite map_map. apply map_ext. intros x.
      now rewrite overwrite_cons.
    + intros r' Hr'. apply has_id_In. rewrite set_row_ids.
      apply has_id_In. apply H. now right.
Qed.

Lemma upsert_rows (r x : Row') t :
  In x (upsert r t) -> x = r \/ (In x t /\ chunk_id x <> chunk_id r).
Proof.
  destruct (has_id (chunk_id r) t) eqn:H.
  - rewrite upsert_present by assumption. unfold set_row.
    intros Hx. apply in_map_iff in Hx. destruct Hx as (y & E & Hy).
    destruct (value_eqb (chunk_id y) (chunk_id r)) eqn:Ey.
    + now left.
    + right. subst y. split; [assumption|]. now apply value_eqb_neq.
  - rewrite upsert_absent by assumption. intros Hx.
    apply in_app_or in Hx. destruct Hx as [Hx|[<-|[]]]; [|now left].
    right. split; [assumption|]. intros E.
    assert (has_id (chunk_id r) t = true); [|congruence].
    apply has_id_In. rewrite <- E. now apply in_map.
Qed.

(** After [p] has been written, every row is the one [p] leaves under
    its id. *)
Lemma upsert_all_settled p : forall (t : Table') x,
  In x (upsert_all p t) -> overwrite p x = x.
Proof.
  induction p as [|r p IH] using rev_ind; intros t x Hx.
  - reflexivity.
  - rewrite upsert_all_app in Hx. simpl in Hx.
    rewrite overwrite_snoc.
    destruct (upsert_rows _ _ _ Hx) as [->|[Hin Hne]].
    + now rewrite value_eqb_refl.
    + replace (value_eqb (chunk_id r) (chunk_id x)) with false.
      * now apply IH with t.
      * symmetry. apply value_eqb_neq. congruence.
Qed.

(** Writing the same rows again changes nothing. *)
Lemma upsert_all_idempotent p (t : Table') :
  upsert_all p (upsert_all p t) = upsert_all p t.
Proof.
  rewrite upsert_all_present.
  - rewrite <- (map_id (upsert_all p t)) at 2.
    apply map_ext_in. intros x Hx. now apply upsert_all_settled with t.
  - intros r Hr. now apply has_id_upsert_all.
Qed.

(** Writing all the rows after a first part of them has been written
    gives the table that writing all of them once gives. *)
Lemma upsert_all_resume p s (t : Table') :
  upsert_all (p ++ s) (upsert_all p t) = upsert_all (p ++ s) t.
Proof. now rewrite !upsert_all_app, upsert_all_idempotent. Qed.

Lemma upsert_replaces (r : Row') t :
  has_id (chunk_id r) t = true ->
  List.length (upsert r t) = List.length t
  /\ map chunk_id (upsert r t) = map chunk_id t
  /\ In r (upsert r t)
  /\ (forall x, In x (upsert r t) -> chunk_id x = chunk_id r -> x = r).
Proof.
  intros H. split; [|split; [|split]].
  - rewrite upsert_present by assumption. unfold set_row. apply length_map.
  - rewrite upsert_ids. now rewrite H.
  - rewrite upsert_present by assumption. unfold set_row.
    apply has_id_In in H. apply in_map_iff in H. destruct H as (y & E & Hy).
    apply in_map_iff. exists y. split; [|assumption].
    rewrite E, value_eqb_refl. reflexivity.
  - intros x Hx E. destruct (upsert_rows _ _ _ Hx) as [->|[_ Hne]]; congruence.
Qed.

(** *** The loop of [store_in_supabase] *)

Lemma rows_of_cons node nodes rows :
  rows_of get_text_embedding (node :: nodes) = inr rows ->
  exists r rs, row_of_node get_text_embedding node = inr r
               /\ rows_of get_text_embedding nodes = inr rs
               /\ rows = r :: rs.
Proof.
  simpl. unfold bind.
  destruct (row_of_node get_text_embedding node) as [e|r]; [discriminate|].
  destruct (rows_of get_text_embedding nodes) as [e|rs]; [discriminate|].
  intros H. injection H as <-. now exists r, rs.
Qed.

(** When every REST upsert succeeds the loop writes all the rows. *)
Lemma supabase_loop_done api nodes : forall rows i (t : Table'),
  rows_of get_text_embedding nodes = inr rows ->
  (forall j, j < List.length nodes -> api (i + j) = RestStored) ->
  supabase_loop get_text_embedding api i nodes t = (LoopDone, upsert_all rows t).
Proof.
  induction nodes as [|node nodes IH]; intros rows i t Hrows Hapi.
  - simpl in Hrows. injection Hrows as <-. reflexivity.
  - destruct (rows_of_cons _ _ _ Hrows) as (r & rs & Hr & Hrs & ->).
    simpl. rewrite Hr.
    replace (api i) with RestStored
      by (symmetry; rewrite <- (Nat.add_0_r i); apply Hapi; simpl; lia).
    apply IH; [assumption|].
    intros j Hj. replace (S i + j) with (i + S j) by lia.
    apply Hapi. simpl. lia.
Qed.

(** When the [k]-th REST upsert is the first to fail, the loop stops
    there, having written the rows before it and perhaps that one. *)
Lemma supabase_loop_fallback api nodes : forall rows i k (t : Table'),
  rows_of get_text_embedding nodes = inr rows ->
  k < List.length nodes ->
  api (i + k) <> RestStored ->
  (forall j, j < k -> api (i + j) = RestStored) ->
  exists p s,
    rows = p ++ s
    /\ supabase_loop get_text_embedding api i nodes t
       = (LoopFallback, upsert_all p t).
Proof.
  induction nodes as [|node nodes IH]; intros rows i k t Hrows Hk Hfail Hok.
  - simpl in Hk. lia.
  - destruct (rows_of_cons _ _ _ Hrows) as (r & rs & Hr & Hrs & ->).
    simpl. rewrite Hr. destruct k as [|k].
    + rewrite Nat.add_0_r in Hfail.
      destruct (api i) as [|written]; [congruence|].
      destruct written.
      * exists [r], rs. split; reflexivity.
      * exists [], (r :: rs). split; reflexivity.
    + replace (api i) with RestStored
        by (symmetry; rewrite <- (Nat.add_0_r i); apply Hok; lia).
      destruct (IH rs (S i) k (upsert r t) Hrs) as (p & s & -> & E).
      * simpl in Hk. lia.
      * now replace (S i + k) with (i + S k) by lia.
      * intros j Hj. replace (S i + j) with (i + S j) by lia. apply Hok. lia.
      * exists (r :: p), s. split; [reflexivity | exact E].
Qed.

End StoreFacts.

Section StoreClaims.

Variable Emb : Type.

Lemma erase_upsert (r : Row Emb) t :
  map erase_embedding (upsert r t)
  = upsert (erase_embedding r) (map erase_embedding t).
Proof.
  unfold upsert.
  replace (has_id (chunk_id (erase_embedding r)) (map erase_embedding t))
    with (has_id (chunk_id r) t).
  - destruct (has_id (chunk_id r) t).
    + rewrite !map_map. apply map_ext. intros x. simpl.
      now destruct (value_eqb (chunk_id x) (chunk_id r)).
    + now rewrite map_app.
  - unfold has_id. induction t as [|x t IH]; simpl; [reflexivity|].
    now rewrite IH.
Qed.

Lemma erase_upsert_all rows : forall (t : list (Row Emb)),
  map erase_embedding (upsert_all rows t)
  = upsert_all (map erase_embedding rows) (map erase_embedding t).
Proof.
  induction rows as [|r rows IH]; intros t; simpl; [reflexivity|].
  now rewrite IH, erase_upsert.
Qed.

(** The rows of the same nodes under two embedding models differ in
    their embeddings only. *)
Lemma rows_of_erase (e1 e2 : str -> Emb) nodes : forall rows1 rows2,
  rows_of e1 nodes = inr rows1 -> rows_of e2 nodes = inr rows2 ->
  map erase_embedding rows1 = map erase_embedding rows2.
Proof.
  induction nodes as [|node nodes IH]; intros rows1 rows2 H1 H2.
  - simpl in H1, H2. injection H1 as <-. injection H2 as <-. reflexivity.
  - destruct (rows_of_cons _ _ _ _ _ H1) as (r1 & rs1 & Hr1 & Hrs1 & ->).
    destruct (rows_of_cons _ _ _ _ _ H2) as (r2 & rs2 & Hr2 & Hrs2 & ->).
    simpl. rewrite (IH _ _ Hrs1 Hrs2). f_equal.
    unfold row_of_node, bind, dict_item in Hr1, Hr2.
    destruct (dict_get (lit "chunk_id") (metadata node)); [|discriminate].
    destruct (dict_get (lit "page_number") (metadata node)); [|discriminate].
    destruct (dict_get (lit "chunk_index") (metadata node)); [|discriminate].
    destruct (dict_get (lit "parent_id") (metadata node)); [|discriminate].
    injection Hr1 as <-. injection Hr2 as <-. reflexivity.
Qed.

Variable get_text_embedding : str -> Emb.

Lemma supabase_loop_cases api nodes : forall i (t : list (Row Emb)) res t',
  supabase_loop get_text_embedding api i nodes t = (res, t') ->
  match res with
  | LoopDone =>
      exists rows, rows_of get_text_embedding nodes = inr rows
                   /\ t' = upsert_all rows t
  | LoopFallback =>
      exists p, t' = upsert_all p t
                /\ forall rows, rows_of get_text_embedding nodes = inr rows ->
                                exists s, rows = p ++ s
  | LoopRaised _ => True
  end.
Proof.
  induction nodes as [|node nodes IH]; intros i t res t' H; simpl in H.
  - injection H as <- <-. now exists [].
  - destruct (row_of_node get_text_embedding node) as [e|r] eqn:Hr.
    + injection H as <- <-. exact I.
    + destruct (api i) as [|written].
      * specialize (IH _ _ _ _ H). destruct res; [| |exact I].
        -- destruct IH as (rows & Hrows & ->).
           exists (r :: rows). split; [|reflexivity].
           simpl. now rewrite Hr, Hrows.
        -- destruct IH as (p & -> & Hp).
           exists (r :: p). split; [reflexivity|].
           intros rows Hrows. simpl in Hrows. rewrite Hr in Hrows.
           unfold bind in Hrows.
           destruct (rows_of get_text_embedding nodes) as [e|rs]; [discriminate|].
           injection Hrows as <-.
           destruct (Hp rs eq_refl) as (s & ->). now exists s.
      * injection H as <- <-. destruct written.
        -- exists [r]. split; [reflexivity|].
           intros rows Hrows. simpl in Hrows. rewrite Hr in Hrows.
           unfold bind in Hrows.
           destruct (rows_of get_text_embedding nodes) as [e|rs]; [discriminate|].
           injection Hrows as <-. now exists rs.
        -- exists []. split; [reflexivity|]. intros rows _. now exists rows.
Qed.

(** Whichever path stored the chunks, the table is the one that writing
    every row once gives. *)
Lemma store_in_supabase_returns api pg child_nodes parent_nodes
  (t : list (Row Emb)) s t' :
  store_in_supabase get_text_embedding api pg child_nodes parent_nodes t
    = (inr s, t') ->
  exists rows,
    rows_of get_text_embedding child_nodes = inr rows
    /\ t' = upsert_all rows t.
Proof.
  unfold store_in_supabase.
  destruct (supabase_loop get_text_embedding api 0 child_nodes t)
    as [res t0] eqn:L.
  pose proof (supabase_loop_cases _ _ _ _ _ _ L) as Hc.
  destruct res.
  - intros H. injection H as _ <-. exact Hc.
  - destruct Hc as (p & -> & Hp).
    unfold store_via_postgres. destruct pg; [|discriminate].
    destruct (rows_of get_text_embedding child_nodes) as [e|rows];
      [discriminate|].
    intros H. injection H as _ <-.
    exists rows. split; [reflexivity|].
    destruct (Hp rows eq_refl) as (s0 & ->). apply upsert_all_resume.
  - discriminate.
Qed.

Lemma supabase_loop_no_raise api nodes : forall rows i (t : list (Row Emb)) e t',
  rows_of get_text_embedding nodes = inr rows ->
  supabase_loop get_text_embedding api i nodes t <> (LoopRaised e, t').
Proof.
  induction nodes as [|node nodes IH]; intros rows i t e t' Hrows; simpl.
  - discriminate.
  - destruct (rows_of_cons _ _ _ _ _ Hrows) as (r & rs & Hr & Hrs & ->).
    rewrite Hr. destruct (api i); [now apply IH with rs | discriminate].
Qed.

(** With the direct connection available, a run on nodes whose rows can
    be built returns, and has written every row once. *)
Lemma store_in_supabase_total api child_nodes parent_nodes rows
  (t : list (Row Emb)) :
  rows_of get_text_embedding child_nodes = inr rows ->
  exists s,
    store_in_supabase get_text_embedding api true child_nodes parent_nodes t
    = (inr s, upsert_all rows t).
Proof.
  intros Hrows. unfold store_in_supabase.
  destruct (supabase_loop get_text_embedding api 0 child_nodes t)
    as [res t0] eqn:L.
  pose proof (supabase_loop_cases _ _ _ _ _ _ L) as Hc.
  destruct res.
  - destruct Hc as (rows' & Hrows' & ->).
    assert (rows' = rows) by congruence. subst. eexists. reflexivity.
  - destruct Hc as (p & -> & Hp).
    unfold store_via_postgres. rewrite Hrows.
    destruct (Hp rows Hrows) as (s0 & ->).
    rewrite upsert_all_resume. eexists. reflexivity.
  - exfalso. now apply (supabase_loop_no_raise api child_nodes rows 0 t e t0).
Qed.

Lemma dict_set_has k k' v d :
  dict_get k d <> None -> dict_get k (dict_set k' v d) <> None.
Proof.
  intros H. destruct (list_eq_dec ascii_dec k' k) as [->|Hne].
  - rewrite dict_get_set_same. discriminate.
  - now rewrite dict_get_set_other.
Qed.

Lemma dict_update_has other : forall d k,
  dict_get k d <> None -> dict_get k (dict_update d other) <> None.
Proof.
  unfold dict_update.
  induction other as [|[k0 v0] other IH]; intros d k H; simpl; auto.
  apply IH. now apply dict_set_has.
Qed.

Lemma dict_update_adds other : forall d k,
  In k (map fst other) -> dict_get k (dict_update d other) <> None.
Proof.
  induction other as [|[k0 v0] other IH]; intros d k H; [destruct H|].
  destruct H as [H|H]; simpl in H.
  - subst k0. change (dict_update d ((k, v0) :: other))
      with (dict_update (dict_set k v0 d) other).
    apply dict_update_has. rewrite dict_get_set_same. discriminate.
  - now apply IH.
Qed.

Lemma dict_get_In k d : dict_get k d <> None -> In k (map fst d).
Proof.
  induction d as [|[k0 v0] d IH]; simpl; [congruence|].
  destruct (PyStr.eqb k0 k) eqn:E.
  - apply eqb_eq in E. now left.
  - intros H. right. now apply IH.
Qed.

(** A chunk of a page that carries a page number gives a row. *)
Lemma row_of_new_node parent_doc chunks t :
  dict_get (lit "page_number") (metadata parent_doc) <> None ->
  exists r,
    row_of_node get_text_embedding (new_node parent_doc chunks t) = inr r
    /\ chunk_id r = VStr (id_ (new_node parent_doc chunks t))
    /\ content r = t.
Proof.
  intros Hpn. unfold row_of_node, dict_item, bind.
  rewrite new_node_chunk_id, new_node_chunk_index, new_node_parent_id.
  destruct (dict_get (lit "page_number")
              (metadata (new_node parent_doc chunks t))) as [pn|] eqn:E.
  - eexists. split; [reflexivity|]. split; reflexivity.
  - exfalso. revert E. unfold new_node. cbn [metadata].
    rewrite !dict_get_set_other by (vm_compute; discriminate).
    apply dict_update_adds. now apply dict_get_In.
Qed.

Lemma rows_of_app nodes1 nodes2 rows1 rows2 :
  rows_of get_text_embedding nodes1 = inr rows1 ->
  rows_of get_text_embedding nodes2 = inr rows2 ->
  rows_of get_text_embedding (nodes1 ++ nodes2) = inr (rows1 ++ rows2).
Proof.
  revert rows1. induction nodes1 as [|n nodes1 IH]; intros rows1 H1 H2.
  - simpl in H1. injection H1 as <-. exact H2.
  - destruct (rows_of_cons _ _ _ _ _ H1) as (r & rs & Hr & Hrs & ->).
    simpl. rewrite Hr. simpl. rewrite (IH rs Hrs H2). reflexivity.
Qed.

Lemma rows_of_new_nodes parent_doc (nodes : list Node) :
  dict_get (lit "page_number") (metadata parent_doc) <> None ->
  Forall (fun n => exists prev, n = new_node parent_doc prev (text n)) nodes ->
  exists rows,
    rows_of get_text_embedding nodes = inr rows
    /\ map chunk_id rows = map (fun n => VStr (id_ n)) nodes
    /\ map content rows = map text nodes.
Proof.
  intros Hpn. induction nodes as [|n nodes IH]; intros Hall.
  - exists []. repeat split.
  - inversion Hall as [|? ? (prev & Hn) Hrest]; subst.
    destruct (IH Hrest) as (rs & Hrs & Hid & Hc).
    destruct (row_of_new_node parent_doc prev (text n) Hpn) as (r & Hr & Hi & Ht).
    rewrite <- Hn in Hr, Hi.
    exists (r :: rs). simpl. rewrite Hr, Hrs. simpl.
    now rewrite Hid, Hc, Hi, Ht.
Qed.

(** The chunks of pages that carry a page number give rows, one per
    chunk, with the chunk's id and text. *)
Lemma rows_of_child_nodes (documents : list Node) :
  Forall (fun d => dict_get (lit "page_number") (metadata d) <> None) documents ->
  exists rows,
    rows_of get_text_embedding (snd (create_needle_chunks documents)) = inr rows
    /\ map chunk_id rows
       = map (fun n => VStr (id_ n)) (snd (create_needle_chunks documents))
    /\ map content rows = map text (snd (create_needle_chunks documents)).
Proof.
  unfold create_needle_chunks, create_needle_chunks_with. simpl.
  induction documents as [|d documents IH]; intros Hall.
  - exists []. repeat split.
  - inversion Hall as [|? ? Hd Hrest]; subst.
    destruct (IH Hrest) as (rs & Hrs & Hid & Hc).
    destruct (rows_of_new_nodes d
                (page_chunks config.CHUNK_SIZE config.CHUNK_OVERLAP d) Hd)
      as (r1 & Hr1 & Hid1 & Hc1).
    { apply Forall_forall. intros n Hn.
      apply In_nth_error in Hn. destruct Hn as (i & Hi).
      eexists. exact (page_chunks_indexed _ _ _ _ _ Hi). }
    exists (r1 ++ rs). simpl.
    rewrite (rows_of_app _ _ _ _ Hr1 Hrs), !map_app, Hid, Hc, Hid1, Hc1.
    repeat split.
Qed.

End StoreClaims.

(** C7.  Both write paths upsert by [chunk_id].  Writing a row whose
    [chunk_id] is already in the table keeps the number of rows and the
    ids, and leaves that row, alone under its id, with the new content;
    no write breaks the uniqueness of the ids.  Storing the chunks of the
    same pages a second time, by whichever path each run takes and
    whatever the embedding model answers, leaves every column but the
    embedding as the first run left it; with the same embeddings the
    table is unchanged.  With the direct connection available, a run on
    the chunks of pages that carry a page number returns, having written
    one row per chunk, with the chunk's id and text. *)
Theorem chunk_writes_idempotent (Emb : Type) :
  (forall (r : Row Emb) (t : list (Row Emb)),
     has_id (chunk_id r) t = true ->
     List.length (upsert r t) = List.length t
     /\ map chunk_id (upsert r t) = map chunk_id t
     /\ In r (upsert r t)
     /\ (forall x, In x (upsert r t) -> chunk_id x = chunk_id r -> x = r))
  /\ (forall (r : Row Emb) (t : list (Row Emb)),
        NoDup (map chunk_id t) -> NoDup (map chunk_id (upsert r t)))
  /\ (forall (e1 e2 : str -> Emb) (documents : list Node)
             api1 api2 pg1 pg2 (t t1 t2 : list (Row Emb)) s1 s2,
        let parent_nodes := fst (create_needle_chunks documents) in
        let child_nodes := snd (create_needle_chunks documents) in
        store_in_supabase e1 api1 pg1 child_nodes parent_nodes t = (inr s1, t1) ->
        store_in_supabase e2 api2 pg2 child_nodes parent_nodes t1 = (inr s2, t2) ->
        map erase_embedding t2 = map erase_embedding t1
        /\ ((forall x, e2 x = e1 x) -> t2 = t1))
  /\ (forall (e : str -> Emb) (documents : list Node) api (t : list (Row Emb)),
        let parent_nodes := fst (create_needle_chunks documents) in
        let child_nodes := snd (create_needle_chunks documents) in
        Forall (fun d => dict_get (lit "page_number") (metadata d) <> None)
          documents ->
        exists s rows,
          store_in_supabase e api true child_nodes parent_nodes t
            = (inr s, upsert_all rows t)
          /\ map chunk_id rows = map (fun n => VStr (id_ n)) child_nodes
          /\ map content rows = map text child_nodes).
Proof.
  split; [|split; [|split]].
  - intros r t. apply upsert_replaces.
  - intros r t. apply upsert_nodup.
  - intros e1 e2 documents api1 api2 pg1 pg2 t t1 t2 s1 s2
      parent_nodes child_nodes H1 H2.
    destruct (store_in_supabase_returns _ _ _ _ _ _ _ _ _ H1) as (rows1 & R1 & ->).
    destruct (store_in_supabase_returns _ _ _ _ _ _ _ _ _ H2) as (rows2 & R2 & ->).
    split.
    + rewrite !erase_upsert_all.
      rewrite (rows_of_erase _ _ _ _ _ _ R2 R1).
      apply upsert_all_idempotent.
    + intros He.
      assert (rows2 = rows1); [|subst; apply upsert_all_idempotent].
      assert (E : rows_of e2 child_nodes = rows_of e1 child_nodes).
      { clear -He. induction child_nodes as [|n ns IH]; simpl; [reflexivity|].
        unfold row_of_node. now rewrite IH, He. }
      congruence.
  - intros e documents api t parent_nodes child_nodes Hall.
    destruct (rows_of_child_nodes Emb e documents Hall) as (rows & Hrows & Hid & Hc).
    destruct (store_in_supabase_total Emb e api child_nodes parent_nodes rows t
                Hrows) as (s & Hs).
    now exists s, rows.
Qed.

(** Witness of [chunk_writes_idempotent]: the chunks of an enriched
    page, stored first through the REST endpoint and then again through
    the direct connection, starting from an empty table. *)
Lemma chunk_writes_idempotent_witness :
  let child_nodes := snd (create_needle_chunks [page_enriched]) in
  let run1 := store_in_supabase len (fun _ => RestStored) true
                child_nodes [page_enriched] [] in
  let run2 := store_in_supabase len api_fails_at_1 true
                child_nodes [page_enriched] (snd run1) in
  map chunk_id (snd run1)
    = [VStr (lit "page_1_chunk_0"); VStr (lit "page_1_chunk_1")]
  /\ snd run2 = snd run1.
Proof.
  intros child_nodes run1 run2.
  split; [vm_compute; reflexivity|].
  destruct (chunk_writes_idempotent nat) as (_ & _ & H & _).
  destruct run1 as [[e|s1] t1] eqn:E1; [vm_compute in E1; discriminate|].
  destruct run2 as [[e|s2] t2] eqn:E2; [vm_compute in E2; discriminate|].
  simpl in E2 |- *.
  apply (H len len [page_enriched] _ _ _ _ _ _ _ _ _ E1 E2).
  reflexivity.
Defined.

(** C8.  When the REST upsert of the [k]-th chunk is the first to fail,
    [store_in_supabase] stops its loop and returns what
    [store_via_postgres] returns on all the chunks.  With the direct
    connection available, the chunks are stored by the fallback and the
    table is the one a run without failure gives: every row written
    once, whatever the REST endpoint had already stored, and without two
    rows of the same [chunk_id]. *)
Theorem fallback_after_primary_failure (Emb : Type)
  (get_text_embedding : str -> Emb) (api : nat -> rest_outcome)
  (child_nodes parent_nodes : list Node) (rows : list (Row Emb))
  (t : list (Row Emb)) (k : nat) :
  rows_of get_text_embedding child_nodes = inr rows ->
  k < List.length child_nodes ->
  api k <> RestStored ->
  (forall j, j < k -> api j = RestStored) ->
  (exists t_partial,
     supabase_loop get_text_embedding api 0 child_nodes t
       = (LoopFallback, t_partial)
     /\ forall pg,
          store_in_supabase get_text_embedding api pg child_nodes parent_nodes t
          = store_via_postgres get_text_embedding pg child_nodes parent_nodes
              parent_nodes t_partial)
  /\ store_in_supabase get_text_embedding api true child_nodes parent_nodes t
     = (inr {| path := Fallback; index_nodes := child_nodes;
               docstore := parent_nodes |},
        upsert_all rows t)
  /\ store_in_supabase get_text_embedding (fun _ => RestStored) true
       child_nodes parent_nodes t
     = (inr {| path := Primary; index_nodes := child_nodes;
               docstore := parent_nodes |},
        upsert_all rows t)
  /\ (NoDup (map chunk_id t) -> NoDup (map chunk_id (upsert_all rows t))).
Proof.
  intros Hrows Hk Hfail Hok.
  destruct (supabase_loop_fallback _ get_text_embedding api child_nodes rows 0 k t
              Hrows Hk Hfail Hok) as (p & s & -> & L).
  split; [|split; [|split]].
  - exists (upsert_all p t). split; [exact L|].
    intros pg. unfold store_in_supabase. now rewrite L.
  - unfold store_in_supabase. rewrite L.
    unfold store_via_postgres. rewrite Hrows.
    now rewrite upsert_all_resume.
  - unfold store_in_supabase.
    rewrite (supabase_loop_done _ get_text_embedding (fun _ => RestStored)
               child_nodes (p ++ s) 0 t Hrows); auto.
  - apply upsert_all_nodup.
Qed.

(** Witness of [fallback_after_primary_failure]: the REST endpoint
    stores the first chunk of the enriched page and fails at the
    second. *)
Lemma fallback_after_primary_failure_witness :
  let child_nodes := snd (create_needle_chunks [page_enriched]) in
  exists rows,
    rows_of len child_nodes = inr rows
    /\ store_in_supabase len api_fails_at_1 true child_nodes [page_enriched] []
       = (inr {| path := Fallback; index_nodes := child_nodes;
                 docstore := [page_enriched] |},
          upsert_all rows [])
    /\ List.length (upsert_all rows []) = 2.
Proof.
  intros child_nodes.
  destruct (rows_of len child_nodes) as [e|rows] eqn:R;
    [vm_compute in R; discriminate|].
  exists rows. split; [reflexivity|].
  destruct (fallback_after_primary_failure nat len api_fails_at_1
              child_nodes [page_enriched] rows [] 1 R) as (_ & H & _).
  - vm_compute; lia.
  - discriminate.
  - intros j Hj. destruct j; [reflexivity | lia].
  - split; [exact H|].
    vm_compute in R. injection R as <-. reflexivity.
Defined.

(* ================================================================== *)
(** ** The orchestrator *)
(* ================================================================== *)

Section OrchestratorFacts.

Variables World Answer : Type.
Variable route : str -> World -> (exn + str) * World.
Variable summary_answer_query :
  str -> World -> (exn + AgentResult Answer) * World.
Variable needle_answer_query :
  str -> World -> (exn + AgentResult Answer) * World.

Local Abbreviation query' :=
  (query route summary_answer_query needle_answer_query).

Lemma format_response_route q rt agent (result : AgentResult Answer)
  response :
  format_response q rt agent result = inr response ->
  resp_query response = q /\ resp_route response = rt
  /\ resp_agent response = agent
  /\ res_answer result = Some (resp_answer response)
  /\ res_sources result = Some (resp_sources response).
Proof.
  unfold format_response, bind, field.
  destruct (res_answer result) as [a|]; [|discriminate].
  destruct (res_sources result) as [s|]; [|discriminate].
  intros H. injection H as <-. simpl. repeat split.
Qed.

Lemma format_response_returns q rt agent (result : AgentResult Answer)
  a s :
  res_answer result = Some a -> res_sources result = Some s ->
  exists response,
    format_response q rt agent result = inr response
    /\ resp_answer response = a /\ resp_sources response = s
    /\ resp_route response = rt.
Proof.
  intros Ha Hs. unfold format_response, bind, field. rewrite Ha, Hs.
  eexists. split; [reflexivity|]. simpl. repeat split.
Qed.

Lemma print_sources_ok sources :
  Forall source_ok sources -> print_sources sources = inr tt.
Proof.
  induction sources as [|source rest IH]; intros H; [reflexivity|].
  inversion H as [|? ? [Hp Hh] Hrest]; subst.
  cbn [print_sources]. unfold bind, dict_item.
  destruct (dict_get (lit "page") source); [|congruence].
  destruct (dict_get (lit "header") source); [|congruence].
  now apply IH.
Qed.

Lemma print_sources_returns sources u :
  print_sources sources = inr u -> Forall source_ok sources.
Proof.
  induction sources as [|source rest IH]; intros H; [constructor|].
  cbn [print_sources] in H. unfold bind, dict_item in H.
  destruct (dict_get (lit "page") source) eqn:Ep; [|discriminate].
  destruct (dict_get (lit "header") source) eqn:Eh; [|discriminate].
  constructor; [|now apply IH].
  unfold source_ok. rewrite Ep, Eh. split; discriminate.
Qed.

(** The loop stops at the first source that lacks a key. *)
Lemma print_sources_raises pre source post :
  Forall source_ok pre ->
  (dict_get (lit "page") source = None ->
   print_sources (pre ++ source :: post) = inl (KeyError (lit "page")))
  /\ (dict_get (lit "page") source <> None ->
      dict_get (lit "header") source = None ->
      print_sources (pre ++ source :: post) = inl (KeyError (lit "header"))).
Proof.
  induction pre as [|p pre IH]; intros H.
  - split.
    + intros Hp. cbn [app print_sources]. unfold bind, dict_item.
      now rewrite Hp.
    + intros Hp Hh. cbn [app print_sources]. unfold bind, dict_item.
      destruct (dict_get (lit "page") source); [|congruence].
      now rewrite Hh.
  - inversion H as [|? ? [Hp Hh] Hrest]; subst.
    destruct (IH Hrest) as [I1 I2].
    split; intros; cbn [app print_sources]; unfold bind, dict_item;
      (destruct (dict_get (lit "page") p); [|congruence]);
      (destruct (dict_get (lit "header") p); [|congruence]); auto.
Qed.

Lemma respond_returns q rt agent (result : AgentResult Answer) verbose
  response :
  respond q rt agent result verbose = inr response ->
  format_response q rt agent result = inr response
  /\ (verbose = true -> Forall source_ok (resp_sources response)).
Proof.
  unfold respond, bind.
  destruct (format_response q rt agent result) as [e|r]; [discriminate|].
  destruct verbose.
  - destruct (print_response agent r) as [e|u] eqn:P; [discriminate|].
    intros H. injection H as <-. split; [reflexivity|]. intros _.
    unfold print_response, bind in P.
    destruct (print_sources (resp_sources r)) as [e|u'] eqn:S; [discriminate|].
    now apply print_sources_returns with u'.
  - intros H. injection H as <-. split; [reflexivity | discriminate].
Qed.

(** The response is returned when nothing is printed, or when what is
    printed can be read. *)
Lemma respond_printable q rt agent (result : AgentResult Answer) verbose a s :
  res_answer result = Some a -> res_sources result = Some s ->
  verbose = false
  \/ (Forall source_ok s
      /\ (agent = lit "needle" ->
          is_number (get_or (res_parent_pages_used result) (VInt 0)))) ->
  exists response,
    respond q rt agent result verbose = inr response
    /\ resp_answer response = a /\ resp_sources response = s
    /\ resp_route response = rt.
Proof.
  intros Ha Hs Hp.
  destruct (format_response_returns q rt agent result a s Ha Hs)
    as (response & Hf & Hra & Hrs & Hrt).
  exists response. split; [|auto].
  unfold respond. rewrite Hf. cbn [bind].
  destruct verbose; [|reflexivity].
  destruct Hp as [Hp|[Hall Hn]]; [discriminate|].
  unfold print_response. rewrite Hrs, (print_sources_ok s Hall). cbn [bind].
  destruct (PyStr.eqb agent (lit "needle")) eqn:E; [|reflexivity].
  apply eqb_eq in E. destruct (Hn E) as (n & Hnum).
  unfold format_response, bind, field in Hf. rewrite Ha, Hs in Hf.
  injection Hf as <-. cbn [resp_metadata parent_pages_used].
  now rewrite Hnum.
Qed.

(** Under [verbose] a source that lacks a key makes the call raise. *)
Lemma respond_source_error q rt agent (result : AgentResult Answer) a
  pre source post :
  res_answer result = Some a ->
  res_sources result = Some (pre ++ source :: post) ->
  Forall source_ok pre ->
  (dict_get (lit "page") source = None ->
   respond q rt agent result true = inl (KeyError (lit "page")))
  /\ (dict_get (lit "page") source <> None ->
      dict_get (lit "header") source = None ->
      respond q rt agent result true = inl (KeyError (lit "header"))).
Proof.
  intros Ha Hs Hpre.
  destruct (format_response_returns q rt agent result a _ Ha Hs)
    as (response & Hf & _ & Hrs & _).
  destruct (print_sources_raises pre source post Hpre) as [P1 P2].
  unfold respond, print_response. rewrite Hf. cbn [bind]. rewrite Hrs.
  split.
  - intros H. now rewrite (P1 H).
  - intros H1 H2. now rewrite (P2 H1 H2).
Qed.

(** Under [verbose] the needle agent's number of parent pages has to be
    a number. *)
Lemma respond_count_error q rt (result : AgentResult Answer) a s x :
  res_answer result = Some a -> res_sources result = Some s ->
  Forall source_ok s ->
  res_parent_pages_used result = Some (VStr x) ->
  respond q rt (lit "needle") result true = inl TypeError.
Proof.
  intros Ha Hs Hall Hx.
  unfold respond, format_response, bind, field. rewrite Ha, Hs.
  unfold print_response. cbn [resp_sources resp_metadata parent_pages_used].
  rewrite (print_sources_ok s Hall), Hx. reflexivity.
Qed.

Lemma query_summary q verbose w w1 :
  route q w = (inr (lit "summary"), w1) ->
  query' q verbose w
  = match summary_answer_query q w1 with
    | (inl e, w2) => (inl e, w2, [RouteCall q; SummaryCall q])
    | (inr result, w2) =>
        (respond q (lit "summary") (lit "summary") result verbose, w2,
         [RouteCall q; SummaryCall q])
    end.
Proof. intros H. unfold query. now rewrite H. Qed.

Lemma query_needle q verbose w w1 rt :
  route q w = (inr rt, w1) -> rt <> lit "summary" ->
  query' q verbose w
  = match needle_answer_query q w1 with
    | (inl e, w2) => (inl e, w2, [RouteCall q; NeedleCall q])
    | (inr result, w2) =>
        (respond q rt (lit "needle") result verbose, w2,
         [RouteCall q; NeedleCall q])
    end.
Proof.
  intros H Hne. unfold query. rewrite H.
  apply eqb_neq in Hne. now rewrite Hne.
Qed.

End OrchestratorFacts.

(** C9.  For every query on which the router returns a decision [rt]:
    the calls [query] makes are the router and then the summary agent
    when [rt] is ["summary"], the router and then the needle agent for
    any other [rt]; and every response returned carries [rt] as its
    route, and names the agent called.  When the agent called returns a
    result that has an answer and sources, [query] returns a response
    if it is not verbose, or if every source has a page and a header
    and, for the needle agent, the number of parent pages is a number;
    under [verbose] the first source that lacks one of the two keys
    makes it raise that [KeyError], and a number of parent pages that
    is a string makes it raise [TypeError], in both cases after the
    agent has been called. *)
Theorem query_dispatch (World Answer : Type)
  (route : str -> World -> (exn + str) * World)
  (summary_answer_query needle_answer_query :
     str -> World -> (exn + AgentResult Answer) * World)
  (q : str) (verbose : bool) (w w1 : World) (rt : str) :
  route q w = (inr rt, w1) ->
  let run := query route summary_answer_query needle_answer_query q verbose w in
  let out := fst (fst run) in
  let calls := snd run in
  let called := if PyStr.eqb rt (lit "summary")
                then summary_answer_query else needle_answer_query in
  (rt = lit "summary" -> calls = [RouteCall q; SummaryCall q])
  /\ (rt <> lit "summary" -> calls = [RouteCall q; NeedleCall q])
  /\ (In (SummaryCall q) calls <-> rt = lit "summary")
  /\ (In (NeedleCall q) calls <-> rt <> lit "summary")
  /\ (forall result w2 a s,
        called q w1 = (inr result, w2) ->
        res_answer result = Some a -> res_sources result = Some s ->
        verbose = false
        \/ (Forall source_ok s
            /\ (rt <> lit "summary" ->
                is_number (get_or (res_parent_pages_used result) (VInt 0)))) ->
        exists response,
          run = (inr response, w2, calls)
          /\ resp_answer response = a /\ resp_sources response = s)
  /\ (forall result w2 a pre source post,
        verbose = true ->
        called q w1 = (inr result, w2) ->
        res_answer result = Some a ->
        res_sources result = Some (pre ++ source :: post) ->
        Forall source_ok pre ->
        (dict_get (lit "page") source = None ->
         run = (inl (KeyError (lit "page")), w2, calls))
        /\ (dict_get (lit "page") source <> None ->
            dict_get (lit "header") source = None ->
            run = (inl (KeyError (lit "header")), w2, calls)))
  /\ (forall result w2 a s x,
        verbose = true -> rt <> lit "summary" ->
        called q w1 = (inr result, w2) ->
        res_answer result = Some a -> res_sources result = Some s ->
        Forall source_ok s ->
        res_parent_pages_used result = Some (VStr x) ->
        run = (inl TypeError, w2, calls))
  /\ (forall response,
        out = inr response ->
        resp_route response = rt
        /\ resp_query response = q
        /\ resp_agent response
           = (if PyStr.eqb rt (lit "summary")
              then lit "summary" else lit "needle")
        /\ (verbose = true -> Forall source_ok (resp_sources response))).
Proof.
  intros Hr run out calls called.
  destruct (PyStr.eqb rt (lit "summary")) eqn:E.
  - apply eqb_eq in E. subst rt.
    assert (Hq := query_summary World Answer route summary_answer_query
                    needle_answer_query q verbose w w1 Hr).
    fold run in Hq.
    assert (Hc : calls = [RouteCall q; SummaryCall q]).
    { unfold calls. rewrite Hq.
      destruct (summary_answer_query q w1) as [[e|result] w2]; reflexivity. }
    split; [auto|]. split; [congruence|].
    split; [rewrite Hc; simpl; intuition congruence|].
    split; [rewrite Hc; simpl; intuition congruence|].
    split; [|split; [|split; [|]]].
    + intros result w2 a s Hcall Ha Hs Hp. unfold called in Hcall.
      rewrite Hq, Hcall.
      destruct (respond_printable Answer q (lit "summary") (lit "summary")
                  result verbose a s Ha Hs) as (response & Hf & Hra & Hrs & _).
      { destruct Hp as [Hp|[Hall _]]; [now left | right].
        split; [exact Hall|]. intros Hn. vm_compute in Hn. discriminate. }
      exists response. rewrite Hf, Hc. auto.
    + intros result w2 a pre source post Hv Hcall Ha Hs Hpre.
      unfold called in Hcall. rewrite Hq, Hcall, Hc, Hv.
      destruct (respond_source_error Answer q (lit "summary") (lit "summary")
                  result a pre source post Ha Hs Hpre) as [R1 R2].
      split.
      * intros H. now rewrite (R1 H).
      * intros H1 H2. now rewrite (R2 H1 H2).
    + intros result w2 a s x _ Hne. congruence.
    + intros response Hout. unfold out in Hout. rewrite Hq in Hout.
      destruct (summary_answer_query q w1) as [[e|result] w2];
        simpl in Hout; [discriminate|].
      destruct (respond_returns _ _ _ _ _ _ _ Hout) as (Hf & Hv).
      destruct (format_response_route _ _ _ _ _ _ Hf) as (H1 & H2 & H3 & _).
      auto.
  - apply eqb_neq in E.
    assert (Hq := query_needle World Answer route summary_answer_query
                    needle_answer_query q verbose w w1 rt Hr E).
    fold run in Hq.
    assert (Hc : calls = [RouteCall q; NeedleCall q]).
    { unfold calls. rewrite Hq.
      destruct (needle_answer_query q w1) as [[e|result] w2]; reflexivity. }
    split; [congruence|]. split; [auto|].
    split; [rewrite Hc; simpl; intuition congruence|].
    split; [rewrite Hc; simpl; intuition congruence|].
    split; [|split; [|split; [|]]].
    + intros result w2 a s Hcall Ha Hs Hp. unfold called in Hcall.
      rewrite Hq, Hcall.
      destruct (respond_printable Answer q rt (lit "needle")
                  result verbose a s Ha Hs) as (response & Hf & Hra & Hrs & _).
      { destruct Hp as [Hp|[Hall Hn]]; [now left | right].
        split; [exact Hall|]. intros _. now apply Hn. }
      exists response. rewrite Hf, Hc. auto.
    + intros result w2 a pre source post Hv Hcall Ha Hs Hpre.
      unfold called in Hcall. rewrite Hq, Hcall, Hc, Hv.
      destruct (respond_source_error Answer q rt (lit "needle")
                  result a pre source post Ha Hs Hpre) as [R1 R2].
      split.
      * intros H. now rewrite (R1 H).
      * intros H1 H2. now rewrite (R2 H1 H2).
    + intros result w2 a s x Hv _ Hcall Ha Hs Hall Hx.
      unfold called in Hcall. rewrite Hq, Hcall, Hc, Hv.
      now rewrite (respond_count_error Answer q rt result a s x Ha Hs Hall Hx).
    + intros response Hout. unfold out in Hout. rewrite Hq in Hout.
      destruct (needle_answer_query q w1) as [[e|result] w2];
        simpl in Hout; [discriminate|].
      destruct (respond_returns _ _ _ _ _ _ _ Hout) as (Hf & Hv).
      destruct (format_response_route _ _ _ _ _ _ Hf) as (H1 & H2 & H3 & _).
      auto.
Qed.

(** Witness of [query_dispatch]: the router answers [other], a decision
    that is neither of the two names, and the needle agent is called;
    with an agent whose second source has no header, the verbose call
    raises after the agent has answered. *)
Lemma query_dispatch_witness :
  let run := query route_example (agent_example (lit "S"))
               (agent_example (lit "N")) (lit "q") true 0 in
  let run' := query route_example (agent_example (lit "S"))
                agent_without_header (lit "q") true 0 in
  route_example (lit "q") 0 = (inr (lit "other"), 1)
  /\ snd run = [RouteCall (lit "q"); NeedleCall (lit "q")]
  /\ (exists response,
        fst (fst run) = inr response /\ resp_route response = lit "other")
  /\ run' = (inl (KeyError (lit "header")), 2,
             [RouteCall (lit "q"); NeedleCall (lit "q")]).
Proof.
  intros run run'.
  assert (Hr : route_example (lit "q") 0 = (inr (lit "other"), 1))
    by reflexivity.
  destruct (query_dispatch nat str route_example (agent_example (lit "S"))
              (agent_example (lit "N")) (lit "q") true 0 1 (lit "other") Hr)
    as (_ & Hn & _ & _ & _ & _ & _ & Hresp).
  destruct (query_dispatch nat str route_example (agent_example (lit "S"))
              agent_without_header (lit "q") true 0 1 (lit "other") Hr)
    as (_ & Hn' & _ & _ & _ & Hraise & _).
  split; [exact Hr|].
  split; [apply Hn; vm_compute; discriminate|].
  split.
  - destruct (fst (fst run)) as [e|response] eqn:E;
      [vm_compute in E; discriminate|].
    exists response. split; [reflexivity|].
    apply Hresp. exact E.
  - fold run' in Hn', Hraise.
    rewrite <- (Hn' ltac:(vm_compute; discriminate)).
    apply (Hraise _ 2 (lit "answer")
             [ [ (lit "page", VInt 3); (lit "header", VStr (lit "Header")) ] ]
             [ (lit "page", VInt 4) ] []
             eq_refl eq_refl eq_refl eq_refl).
    + constructor; [|constructor]. split; vm_compute; discriminate.
    + vm_compute. discriminate.
    + reflexivity.
Defined.

(* ================================================================== *)
(** ** Loading the pages *)
(* ================================================================== *)

Section LoadFacts.

Lemma str_of_nat_inj a b : str_of_nat a = str_of_nat b -> a = b.
Proof.
  unfold str_of_nat, lit. intros H.
  apply (f_equal string_of_list_ascii) in H.
  rewrite !string_of_list_ascii_of_string in H.
  apply (f_equal NilEmpty.uint_of_string) in H.
  rewrite !NilEmpty.usu in H. injection H as H.
  apply (f_equal Nat.of_uint) in H.
  now rewrite !DecimalNat.Unsigned.of_to in H.
Qed.

Lemma page_key_inj a b : page_key_of a = page_key_of b -> a = b.
Proof.
  unfold page_key_of. intros H. apply app_inv_head in H.
  now apply str_of_nat_inj.
Qed.

Lemma enrich_fields key m doc doc' :
  enrich key m doc = inr doc' ->
  id_ doc' = key /\ text doc' = text doc
  /\ dict_get (lit "page_id") (metadata doc') = Some (VStr key)
  /\ dict_get (lit "page_number") (metadata doc') = m_page_number m.
Proof.
  unfold enrich, bind, field.
  destruct (m_page_number m) as [pn|]; [|discriminate].
  destruct (m_header m) as [h|]; [|discriminate].
  destruct (m_involved_parties m) as [ip|]; [|discriminate].
  destruct (m_date m) as [d|]; [|discriminate].
  destruct (m_type m) as [ty|]; [|discriminate].
  intros H. injection H as <-. cbn [id_ text metadata].
  split; [reflexivity|]. split; [reflexivity|].
  unfold dict_update. cbn [fold_left fst snd]. split.
  - apply dict_get_set_same.
  - rewrite !dict_get_set_other by (vm_compute; discriminate).
    apply dict_get_set_same.
Qed.

Lemma enrich_complete key m doc :
  complete m -> exists doc', enrich key m doc = inr doc'.
Proof.
  intros (H1 & H2 & H3 & H4 & H5). unfold enrich, bind, field.
  destruct (m_page_number m); [|congruence].
  destruct (m_header m); [|congruence].
  destruct (m_involved_parties m); [|congruence].
  destruct (m_date m); [|congruence].
  destruct (m_type m); [|congruence].
  eexists. reflexivity.
Qed.

Lemma numbered_bounds docs : forall i j d,
  In (j, d) (numbered i docs) -> i <= j < i + List.length docs.
Proof.
  induction docs as [|x docs IH]; intros i j d H; simpl in *; [destruct H|].
  destruct H as [H|H].
  - injection H as <- <-. lia.
  - apply IH in H. lia.
Qed.

(** What the loop returns, when it returns. *)
Lemma enrich_loop_result md pdf : forall i acc res,
  enrich_loop md i pdf acc = inr res ->
  exists docs,
    res = acc ++ docs
    /\ map id_ docs
       = map (fun nd => page_key_of (fst nd)) (filter (kept md) (numbered i pdf))
    /\ map text docs
       = map (fun nd => text (snd nd)) (filter (kept md) (numbered i pdf))
    /\ Forall (fun d => dict_get (lit "page_id") (metadata d) = Some (VStr (id_ d)))
         docs.
Proof.
  induction pdf as [|doc pdf IH]; intros i acc res H; simpl in H.
  - injection H as <-. exists []. rewrite app_nil_r. repeat split. constructor.
  - cbn [numbered filter].
    destruct (meta_get (page_key_of i) md) as [m|] eqn:G.
    + assert (K : kept md (i, doc) = true)
        by (unfold kept; cbn [fst]; now rewrite G).
      rewrite K. unfold bind in H.
      destruct (enrich (page_key_of i) m doc) as [e|doc'] eqn:En; [discriminate|].
      destruct (IH _ _ _ H) as (docs & -> & Hid & Htx & Hall).
      destruct (enrich_fields _ _ _ _ En) as (E1 & E2 & E3 & _).
      exists (doc' :: docs). rewrite <- app_assoc.
      cbn [map fst snd app]. rewrite Hid, Htx, E1, E2.
      split; [reflexivity|]. split; [reflexivity|]. split; [reflexivity|].
      constructor; [congruence | assumption].
    + assert (K : kept md (i, doc) = false)
        by (unfold kept; cbn [fst]; now rewrite G).
      rewrite K. apply IH. exact H.
Qed.

(** The loop returns when every entry it reads is complete. *)
Lemma enrich_loop_returns md pdf : forall i acc,
  (forall j m, i <= j < i + List.length pdf ->
     meta_get (page_key_of j) md = Some m -> complete m) ->
  exists res, enrich_loop md i pdf acc = inr res.
Proof.
  induction pdf as [|doc pdf IH]; intros i acc H; simpl.
  - now exists acc.
  - destruct (meta_get (page_key_of i) md) as [m|] eqn:G.
    + destruct (enrich_complete (page_key_of i) m doc) as (doc' & E).
      { apply (H i); [simpl; lia | assumption]. }
      rewrite E. simpl. apply IH.
      intros j m' Hj. apply H. simpl. lia.
    + apply IH. intros j m' Hj. apply H. simpl. lia.
Qed.

End LoadFacts.

(** C10.  When [load_pdf_with_metadata] returns, the pages returned are,
    in order, the pages whose key [page_i] is in the metadata, each with
    that key as its id and [page_id] and with its text; a page whose key
    is not in the metadata is not among them.  An iteration on such a
    page changes nothing and raises nothing, and the function returns
    whenever the entries it finds have their five fields, whatever the
    number of pages without an entry. *)
Theorem load_keeps_matched_pages
  (pdf_documents : list Node) (metadata_dict : metadata_json) :
  (forall docs,
     load_pdf_with_metadata pdf_documents metadata_dict = inr docs ->
     map id_ docs
       = map (fun nd => page_key_of (fst nd))
           (filter (kept metadata_dict) (numbered 1 pdf_documents))
     /\ map text docs
        = map (fun nd => text (snd nd))
            (filter (kept metadata_dict) (numbered 1 pdf_documents))
     /\ Forall (fun d => dict_get (lit "page_id") (metadata d)
                         = Some (VStr (id_ d))) docs
     /\ (forall i, meta_get (page_key_of i) metadata_dict = None ->
           ~ In (page_key_of i) (map id_ docs)))
  /\ (forall i doc rest enriched_docs,
        meta_get (page_key_of i) metadata_dict = None ->
        enrich_loop metadata_dict i (doc :: rest) enriched_docs
        = enrich_loop metadata_dict (S i) rest enriched_docs)
  /\ ((forall i m, 1 <= i <= List.length pdf_documents ->
         meta_get (page_key_of i) metadata_dict = Some m -> complete m) ->
      exists docs, load_pdf_with_metadata pdf_documents metadata_dict = inr docs).
Proof.
  split; [|split].
  - intros docs H. unfold load_pdf_with_metadata in H.
    destruct (enrich_loop_result _ _ _ _ _ H) as (docs' & E & Hid & Htx & Hall).
    simpl in E. subst docs'.
    split; [exact Hid|]. split; [exact Htx|]. split; [exact Hall|].
    intros i Hnone Hin. rewrite Hid in Hin.
    apply in_map_iff in Hin. destruct Hin as ([j d] & Hk & Hf).
    simpl in Hk. apply page_key_inj in Hk. subst j.
    apply filter_In in Hf. destruct Hf as [_ Hf].
    unfold kept in Hf. simpl in Hf. now rewrite Hnone in Hf.
  - intros i doc rest enriched_docs H. simpl. now rewrite H.
  - intros H. apply enrich_loop_returns.
    intros j m Hj. apply H. lia.
Qed.

(** Witness of [load_keeps_matched_pages]: three pages, metadata for
    the first and the third; the second page is dropped. *)
Lemma load_keeps_matched_pages_witness :
  exists docs,
    load_pdf_with_metadata three_pages metadata_1_3 = inr docs
    /\ map id_ docs = [lit "page_1"; lit "page_3"]
    /\ map text docs = [lit "one"; lit "three"]
    /\ ~ In (page_key_of 2) (map id_ docs).
Proof.
  destruct (load_keeps_matched_pages three_pages metadata_1_3) as (H1 & _ & H3).
  destruct H3 as (docs & E).
  { intros i m Hi Hm. simpl in Hi.
    assert (Hc : complete (entry_for i))
      by (repeat split; discriminate).
    destruct i as [|[|[|[|i]]]]; try lia;
      vm_compute in Hm; try discriminate;
      injection Hm as <-; repeat split; discriminate. }
  exists docs. split; [exact E|].
  destruct (H1 docs E) as (Hid & Htx & _ & Hno).
  split; [rewrite Hid; vm_compute; reflexivity|].
  split; [rewrite Htx; vm_compute; reflexivity|].
  apply Hno. vm_compute. reflexivity.
Defined.

(** The ids of a page's chunks are pairwise distinct, so the rows of one
    page never meet in the conflict clause. *)
Lemma page_chunk_ids_nodup (chunk_size overlap : nat) (parent_doc : Node) :
  NoDup (map id_ (page_chunks chunk_size overlap parent_doc)).
Proof.
  apply NoDup_nth_error. intros i j Hi E.
  rewrite length_map in Hi. rewrite !nth_error_map in E.
  destruct (nth_error (page_chunks chunk_size overlap parent_doc) i)
    as [n|] eqn:Ei; [|apply nth_error_None in Ei; lia].
  destruct (nth_error (page_chunks chunk_size overlap parent_doc) j)
    as [m|] eqn:Ej; [|discriminate].
  simpl in E. injection E as E.
  pose proof (page_chunks_indexed chunk_size overlap parent_doc i n Ei) as Hn.
  pose proof (page_chunks_indexed chunk_size overlap parent_doc j m Ej) as Hm.
  rewrite Hn, Hm, !new_node_id in E.
  apply app_inv_head, app_inv_head, str_of_nat_inj in E.
  rewrite !firstn_length_le in E; [exact E | |].
  - apply Nat.lt_le_incl, nth_error_Some. congruence.
  - apply Nat.lt_le_incl, nth_error_Some. congruence.
Qed.

(* ================================================================== *)
(** ** More on the chunks of a page *)
(* ================================================================== *)

Section ChunkExtras.

Lemma chain_seed_len overlap ps : forall prev,
  chain overlap prev ps ->
  Forall (fun p => forall s, seed p = Some s -> len s <= overlap) ps.
Proof.
  induction ps as [|q ps IH]; intros prev H; [constructor|].
  destruct H as [Hq Hc]. constructor; [|now apply IH with (Some q)].
  intros s Hs. rewrite Hq in Hs. destruct prev as [p|]; [|discriminate].
  simpl in Hs. destruct (overlap <? len (buffer p)); [|discriminate].
  injection Hs as <-. apply overlap_seed_len.
Qed.

Lemma forall_space_lstrip s :
  Forall (fun c => isspace c = true) s -> lstrip s = [].
Proof.
  induction s as [|c s IH]; intros H; [reflexivity|].
  inversion H as [|? ? Hc Hs]; subst. simpl. rewrite Hc. now apply IH.
Qed.

Lemma forall_space_strip s :
  Forall (fun c => isspace c = true) s -> strip s = [].
Proof. intros H. unfold strip. now rewrite forall_space_lstrip. Qed.

Lemma dict_get_set k k' v d :
  dict_get k (dict_set k' v d)
  = if PyStr.eqb k' k then Some v else dict_get k d.
Proof.
  destruct (PyStr.eqb k' k) eqn:E.
  - apply eqb_eq in E. subst. apply dict_get_set_same.
  - apply dict_get_set_other. now apply eqb_neq.
Qed.

Lemma dict_update_snoc d other k v :
  dict_update d (other ++ [(k, v)]) = dict_set k v (dict_update d other).
Proof. unfold dict_update. now rewrite fold_left_app. Qed.

Lemma last_binding_snoc k other k0 v0 :
  last_binding k (other ++ [(k0, v0)])
  = if PyStr.eqb k0 k then Some v0 else last_binding k other.
Proof. unfold last_binding. now rewrite fold_left_app. Qed.

(** [d.update(other)] read back: the last value [other] binds to the
    key, or the value [d] had. *)
Lemma dict_update_get k other : forall d,
  dict_get k (dict_update d other)
  = match last_binding k other with
    | Some v => Some v
    | None => dict_get k d
    end.
Proof.
  induction other as [|[k0 v0] other IH] using rev_ind; intros d.
  - reflexivity.
  - rewrite dict_update_snoc, last_binding_snoc, dict_get_set.
    destruct (PyStr.eqb k0 k); [reflexivity | apply IH].
Qed.

Lemma last_binding_absent k (other : dict) : forall acc : option value,
  ~ In k (map fst other) ->
  fold_left (fun acc kv => if PyStr.eqb (fst kv) k then Some (snd kv) else acc)
    other acc = acc.
Proof.
  induction other as [|[k0 v0] other IH]; intros acc H; simpl; [reflexivity|].
  simpl in H. replace (PyStr.eqb k0 k) with false.
  - apply IH. tauto.
  - symmetry. apply eqb_neq. tauto.
Qed.

(** In a dictionary whose keys are distinct, the last binding of a key
    is its binding. *)
Lemma last_binding_nodup k d :
  NoDup (map fst d) -> last_binding k d = dict_get k d.
Proof.
  induction d as [|[k0 v0] d IH]; intros H; [reflexivity|].
  inversion H as [|? ? Hk Hd]; subst. simpl.
  unfold last_binding. simpl. destruct (PyStr.eqb k0 k) eqn:E.
  - apply eqb_eq in E. subst. now apply last_binding_absent.
  - now apply IH.
Qed.

Lemma page_chunks_of_new_node chunk_size overlap parent_doc n :
  In n (page_chunks chunk_size overlap parent_doc) ->
  exists prev, n = new_node parent_doc prev (text n).
Proof.
  intros Hn. apply In_nth_error in Hn. destruct Hn as (i & Hi).
  eexists. exact (page_chunks_indexed _ _ _ _ _ Hi).
Qed.

End ChunkExtras.

(** X1.  If no sentence unit of a paragraph longer than [CHUNK_SIZE]
    has itself more than [CHUNK_SIZE] characters, every chunk of the page
    has at most [CHUNK_SIZE + CHUNK_OVERLAP + 1] = 341 characters, and so
    has the [chunk_size] it records. *)
Theorem chunk_size_within_overlap_bound (parent_doc : Node) :
  (forall para u,
     In para (paragraphs_of (text parent_doc)) ->
     config.CHUNK_SIZE < len para ->
     In u (units_of para) -> len u <= config.CHUNK_SIZE) ->
  forall n,
    In n (page_chunks config.CHUNK_SIZE config.CHUNK_OVERLAP parent_doc) ->
    len (text n) <= config.CHUNK_SIZE + config.CHUNK_OVERLAP + 1
    /\ dict_get (lit "chunk_size") (metadata n) = Some (VInt (len (text n))).
Proof.
  intros Hunits n Hn.
  assert (Hov : 0 < config.CHUNK_OVERLAP) by (unfold config.CHUNK_OVERLAP; lia).
  split.
  - apply (in_map text) in Hn. rewrite page_chunks_texts in Hn.
    apply in_map_iff in Hn. destruct Hn as (p & <- & Hp).
    apply in_concat in Hp. destruct Hp as (ps & Hps & Hp).
    unfold page_pieces in Hps. apply in_map_iff in Hps.
    destruct Hps as (para & <- & Hpara).
    pose proof (para_pieces_ok config.CHUNK_SIZE config.CHUNK_OVERLAP Hov para
                  (paragraphs_clean _ _ Hpara)) as (Hwf & Hfit & Hseed & Hch).
    rewrite Forall_forall in Hwf, Hfit, Hseed.
    destruct (Hwf p Hp) as [Hwp Hgp].
    destruct (Hfit p Hp) as [Hle|(s & Hs)].
    + unfold piece_text. pose proof (strip_len (buffer p)). lia.
    + assert (Hsu : In s (para_units config.CHUNK_SIZE para)).
      { rewrite <- para_pieces_groups with (CHUNK_OVERLAP := config.CHUNK_OVERLAP).
        apply in_concat. exists (group p). split.
        - now apply in_map.
        - rewrite Hs. now left. }
      assert (Hls : len s <= config.CHUNK_SIZE).
      { unfold para_units in Hsu.
        destruct (len para <=? config.CHUNK_SIZE) eqn:E.
        - destruct Hsu as [<-|[]]. now apply Nat.leb_le.
        - apply Nat.leb_gt in E. now apply Hunits with para. }
      rewrite (piece_text_by_seed p Hwp Hgp (Hseed p Hp)).
      unfold piece_text_spec, body. rewrite Hs. cbn [join].
      destruct (seed p) as [sd|] eqn:Esd; [|lia].
      pose proof (chain_seed_len _ _ _ Hch) as Hlen.
      rewrite Forall_forall in Hlen. specialize (Hlen p Hp sd Esd).
      pose proof (lstrip_len sd).
      unfold len in *. rewrite !length_app. simpl List.length. lia.
  - destruct (page_chunks_of_new_node _ _ _ _ Hn) as (prev & E).
    rewrite E at 1. apply new_node_chunk_size.
Qed.

(** Witness of [chunk_size_within_overlap_bound]: the page of two
    sentences, whose second chunk has 321 characters. *)
Lemma chunk_size_within_overlap_bound_witness :
  exists n,
    nth_error (page_chunks config.CHUNK_SIZE config.CHUNK_OVERLAP
                 page_two_sentences) 1 = Some n
    /\ len (text n) = 321
    /\ len (text n) <= config.CHUNK_SIZE + config.CHUNK_OVERLAP + 1.
Proof.
  destruct (nth_error (page_chunks config.CHUNK_SIZE config.CHUNK_OVERLAP
                         page_two_sentences) 1) as [n|] eqn:E;
    [|vm_compute in E; discriminate].
  exists n. split; [reflexivity|].
  split; [vm_compute in E; injection E as <-; reflexivity|].
  apply (chunk_size_within_overlap_bound page_two_sentences).
  - intros para u Hpara _ Hu.
    assert (Hp : paragraphs_of (text page_two_sentences)
                 = [sentence 10 ++ lit " " ++ sentence 29])
      by (vm_compute; reflexivity).
    rewrite Hp in Hpara. destruct Hpara as [<-|[]].
    assert (Hus : units_of (sentence 10 ++ lit " " ++ sentence 29)
                  = [sentence 10; sentence 29])
      by (vm_compute; reflexivity).
    rewrite Hus in Hu.
    destruct Hu as [<-|[<-|[]]]; vm_compute; lia.
  - now apply nth_error_In with 1.
Defined.

(** X2.  A page whose text is empty or holds white space only gives no
    chunk. *)
Theorem blank_page_has_no_chunks (parent_doc : Node) :
  Forall (fun c => isspace c = true) (text parent_doc) ->
  page_chunks config.CHUNK_SIZE config.CHUNK_OVERLAP parent_doc = [].
Proof.
  intros Hall.
  assert (Hp : paragraphs_of (text parent_doc) = []).
  { unfold paragraphs_of.
    assert (Hl : Forall (fun p => Forall (fun c => isspace c = true) p)
                   (split [nl; nl] (text parent_doc))).
    { apply Forall_forall. intros p Hp. apply Forall_forall. intros c Hc.
      destruct (split_from_chars _ c _ _ _ _ Hp Hc) as [[]|H].
      rewrite Forall_forall in Hall. now apply Hall. }
    induction Hl as [|x l Hx Hl IH]; [reflexivity|].
    simpl. now rewrite (forall_space_strip x Hx). }
  apply map_eq_nil with (f := text).
  rewrite page_chunks_texts. unfold page_pieces. now rewrite Hp.
Qed.

(** Witness of [blank_page_has_no_chunks]: a page of blanks and line
    breaks. *)
Lemma blank_page_has_no_chunks_witness :
  Forall (fun c => isspace c = true) (text page_blank)
  /\ snd (create_needle_chunks [page_blank]) = [].
Proof.
  assert (H : Forall (fun c => isspace c = true) (text page_blank))
    by (vm_compute; repeat constructor).
  split; [exact H|].
  change (snd (create_needle_chunks [page_blank]))
    with (page_chunks config.CHUNK_SIZE config.CHUNK_OVERLAP page_blank ++ []).
  rewrite (blank_page_has_no_chunks page_blank H). reflexivity.
Defined.

(* ================================================================== *)
(** ** Parents, inherited metadata and the log lines *)
(* ================================================================== *)

(** X3.  [create_needle_chunks] returns the documents themselves as
    parents, and every child node is a chunk of one of them: its
    [parent_id] is that document's id, and its own id is that id followed
    by [_chunk_] and a number. *)
Theorem child_nodes_reference_parents (documents : list Node) (n : Node) :
  In n (snd (create_needle_chunks documents)) ->
  fst (create_needle_chunks documents) = documents
  /\ exists doc i,
       In doc (fst (create_needle_chunks documents))
       /\ nth_error (page_chunks config.CHUNK_SIZE config.CHUNK_OVERLAP doc) i
          = Some n
       /\ dict_get (lit "parent_id") (metadata n) = Some (VStr (id_ doc))
       /\ id_ n = id_ doc ++ lit "_chunk_" ++ str_of_nat i.
Proof.
  unfold create_needle_chunks, create_needle_chunks_with. simpl.
  intros Hn. split; [reflexivity|].
  apply in_flat_map in Hn. destruct Hn as (doc & Hdoc & Hn).
  apply In_nth_error in Hn. destruct Hn as (i & Hi).
  exists doc, i. split; [assumption|]. split; [assumption|].
  pose proof (page_chunks_indexed _ _ _ _ _ Hi) as E.
  assert (Hlen : List.length
                   (firstn i (page_chunks config.CHUNK_SIZE config.CHUNK_OVERLAP doc))
                 = i).
  { apply firstn_length_le, Nat.lt_le_incl, nth_error_Some. congruence. }
  rewrite E. rewrite new_node_parent_id, new_node_id, Hlen. auto.
Qed.

(** Witness of [child_nodes_reference_parents]: the second chunk of the
    second of two pages. *)
Lemma child_nodes_reference_parents_witness :
  exists n,
    nth_error (snd (create_needle_chunks [page_enriched; page_three_sentences])) 3
      = Some n
    /\ id_ n = lit "page_2_chunk_1"
    /\ exists doc, In doc [page_enriched; page_three_sentences]
                   /\ dict_get (lit "parent_id") (metadata n)
                      = Some (VStr (id_ doc)).
Proof.
  destruct (nth_error (snd (create_needle_chunks
                              [page_enriched; page_three_sentences])) 3)
    as [n|] eqn:E; [|vm_compute in E; discriminate].
  exists n. split; [reflexivity|].
  split; [vm_compute in E; injection E as <-; reflexivity|].
  destruct (child_nodes_reference_parents
              [page_enriched; page_three_sentences] n)
    as (Hp & doc & i & Hdoc & _ & Hpid & _).
  - now apply nth_error_In with 3.
  - exists doc. rewrite Hp in Hdoc. split; assumption.
Defined.

(** X4.  A chunk carries its page's metadata: under every key other than
    the four chunk keys it has the value the page's metadata binds last
    to that key, which is the value the page has when the page's keys
    are distinct, and nothing when the page has no such key. *)
Theorem chunk_inherits_parent_metadata (parent_doc n : Node) (k : str) :
  In n (page_chunks config.CHUNK_SIZE config.CHUNK_OVERLAP parent_doc) ->
  ~ In k chunk_keys ->
  dict_get k (metadata n) = last_binding k (metadata parent_doc)
  /\ (NoDup (map fst (metadata parent_doc)) ->
      dict_get k (metadata n) = dict_get k (metadata parent_doc)).
Proof.
  intros Hn Hk.
  destruct (page_chunks_of_new_node _ _ _ _ Hn) as (prev & E).
  assert (H : dict_get k (metadata n) = last_binding k (metadata parent_doc)).
  { rewrite E. unfold new_node. cbn [metadata].
    unfold chunk_keys in Hk. simpl in Hk.
    rewrite !dict_get_set_other
      by (intros Ek; apply Hk; rewrite <- Ek; simpl; auto 6).
    rewrite dict_update_get. simpl.
    now destruct (last_binding k (metadata parent_doc)). }
  split; [exact H|].
  intros Hnd. rewrite H. now apply last_binding_nodup.
Qed.

(** Witness of [chunk_inherits_parent_metadata]: the header of the
    enriched page on its second chunk. *)
Lemma chunk_inherits_parent_metadata_witness :
  exists n,
    nth_error (page_chunks config.CHUNK_SIZE config.CHUNK_OVERLAP page_enriched) 1
      = Some n
    /\ dict_get (lit "header") (metadata n) = Some (VStr (lit "Overview")).
Proof.
  destruct (nth_error (page_chunks config.CHUNK_SIZE config.CHUNK_OVERLAP
                         page_enriched) 1) as [n|] eqn:E;
    [|vm_compute in E; discriminate].
  exists n. split; [reflexivity|].
  destruct (chunk_inherits_parent_metadata page_enriched n (lit "header"))
    as (_ & H).
  - now apply nth_error_In with 1.
  - vm_compute. intuition discriminate.
  - rewrite H; [reflexivity|].
    vm_compute. repeat constructor; simpl; intuition discriminate.
Defined.

Section LogLines.

Lemma parents_loop_result documents : forall acc res,
  parents_loop documents acc = inr res ->
  res = acc ++ documents /\ Forall has_log_keys documents.
Proof.
  induction documents as [|doc rest IH]; intros acc res H; simpl in H.
  - injection H as <-. rewrite app_nil_r. split; [reflexivity | constructor].
  - unfold bind in H.
    destruct (parent_log_line doc) as [e|[pid h]] eqn:L; [discriminate|].
    destruct (IH _ _ H) as (-> & Hall).
    split; [now rewrite <- app_assoc|].
    constructor; [|assumption].
    unfold parent_log_line, bind, dict_item in L. unfold has_log_keys.
    destruct (dict_get (lit "page_id") (metadata doc)); [|discriminate].
    destruct (dict_get (lit "header") (metadata doc)); [|discriminate].
    split; discriminate.
Qed.

Lemma parent_log_line_ok doc :
  has_log_keys doc -> exists r, parent_log_line doc = inr r.
Proof.
  intros [H1 H2]. unfold parent_log_line, bind, dict_item.
  destruct (dict_get (lit "page_id") (metadata doc)); [|congruence].
  destruct (dict_get (lit "header") (metadata doc)); [|congruence].
  eexists. reflexivity.
Qed.

Lemma parents_loop_returns documents : forall acc,
  Forall has_log_keys documents ->
  parents_loop documents acc = inr (acc ++ documents).
Proof.
  induction documents as [|doc rest IH]; intros acc H; simpl.
  - now rewrite app_nil_r.
  - inversion H as [|? ? Hd Hr]; subst.
    destruct (parent_log_line_ok doc Hd) as (r & ->). simpl.
    rewrite IH by assumption. now rewrite <- app_assoc.
Qed.

Lemma parents_loop_raises pre doc post e : forall acc,
  Forall has_log_keys pre ->
  parent_log_line doc = inl e ->
  parents_loop (pre ++ doc :: post) acc = inl e.
Proof.
  induction pre as [|d pre IH]; intros acc H L; simpl.
  - now rewrite L.
  - inversion H as [|? ? Hd Hr]; subst.
    destruct (parent_log_line_ok d Hd) as (r & ->). simpl. now apply IH.
Qed.

End LogLines.

(** X5.  [create_needle_chunks] reads [page_id] and [header] of every
    document before it cuts any page.  It returns, with the documents as
    parents and their chunks as children, exactly when every document
    has both keys; otherwise it raises the [KeyError] of the first
    document that lacks one, [page_id] before [header], and returns no
    chunk at all. *)
Theorem create_needle_chunks_needs_log_keys (documents : list Node) :
  (Forall has_log_keys documents ->
   create_needle_chunks_logged documents = inr (create_needle_chunks documents))
  /\ (forall r, create_needle_chunks_logged documents = inr r ->
        r = create_needle_chunks documents /\ Forall has_log_keys documents)
  /\ (forall pre doc post,
        documents = pre ++ doc :: post -> Forall has_log_keys pre ->
        (dict_get (lit "page_id") (metadata doc) = None ->
         create_needle_chunks_logged documents
         = inl (KeyError (lit "page_id")))
        /\ (dict_get (lit "page_id") (metadata doc) <> None ->
            dict_get (lit "header") (metadata doc) = None ->
            create_needle_chunks_logged documents
            = inl (KeyError (lit "header")))).
Proof.
  split; [|split].
  - intros H. unfold create_needle_chunks_logged.
    now rewrite parents_loop_returns.
  - intros r H. unfold create_needle_chunks_logged, bind in H.
    destruct (parents_loop documents []) as [e|ps] eqn:P; [discriminate|].
    destruct (parents_loop_result _ _ _ P) as (-> & Hall).
    injection H as <-. split; [reflexivity | assumption].
  - intros pre doc post -> Hpre. split.
    + intros Hn. unfold create_needle_chunks_logged.
      rewrite (parents_loop_raises pre doc post (KeyError (lit "page_id")));
        auto.
      unfold parent_log_line, dict_item. now rewrite Hn.
    + intros Hp Hn. unfold create_needle_chunks_logged.
      rewrite (parents_loop_raises pre doc post (KeyError (lit "header")));
        auto.
      unfold parent_log_line, dict_item, bind.
      destruct (dict_get (lit "page_id") (metadata doc)); [|congruence].
      now rewrite Hn.
Qed.

(** Witness of [create_needle_chunks_needs_log_keys]: an enriched page
    followed by a page that has no [header]. *)
Lemma create_needle_chunks_needs_log_keys_witness :
  create_needle_chunks_logged [page_enriched]
    = inr (create_needle_chunks [page_enriched])
  /\ create_needle_chunks_logged [page_enriched; page_without_header]
     = inl (KeyError (lit "header")).
Proof.
  split.
  - apply (proj1 (create_needle_chunks_needs_log_keys [page_enriched])).
    constructor; [|constructor]. split; vm_compute; discriminate.
  - destruct (create_needle_chunks_needs_log_keys
                [page_enriched; page_without_header]) as (_ & _ & H).
    destruct (H [page_enriched] page_without_header [] eq_refl) as (_ & H2).
    + constructor; [|constructor]. split; vm_compute; discriminate.
    + apply H2; vm_compute; [discriminate | reflexivity].
Defined.

(* ================================================================== *)
(** ** More on the loaded pages *)
(* ================================================================== *)

Section LoadExtras.

Lemma enriched_get (d : dict) (pn h : value) (ip : list str)
  (dt ty : value) (key : str) :
  let d' := dict_update d
              [ (lit "page_number", pn);
                (lit "header", h);
                (lit "involved_parties", VStr (join (lit ", ") ip));
                (lit "date", dt);
                (lit "type", ty);
                (lit "page_id", VStr key) ] in
  dict_get (lit "page_number") d' = Some pn
  /\ dict_get (lit "header") d' = Some h
  /\ dict_get (lit "involved_parties") d' = Some (VStr (join (lit ", ") ip))
  /\ dict_get (lit "date") d' = Some dt
  /\ dict_get (lit "type") d' = Some ty
  /\ dict_get (lit "page_id") d' = Some (VStr key)
  /\ (forall k, ~ In k page_keys -> dict_get k d' = dict_get k d).
Proof.
  intros d'. subst d'.
  split; [|split; [|split; [|split; [|split; [|split]]]]];
    try (rewrite dict_update_get; reflexivity).
  intros k Hk. rewrite dict_update_get.
  unfold last_binding. rewrite last_binding_absent; [reflexivity|].
  exact Hk.
Qed.

Lemma enrich_metadata key m doc doc' :
  enrich key m doc = inr doc' ->
  dict_get (lit "page_number") (metadata doc') = m_page_number m
  /\ dict_get (lit "header") (metadata doc') = m_header m
  /\ dict_get (lit "involved_parties") (metadata doc')
     = option_map (fun ip => VStr (join (lit ", ") ip)) (m_involved_parties m)
  /\ dict_get (lit "date") (metadata doc') = m_date m
  /\ dict_get (lit "type") (metadata doc') = m_type m
  /\ dict_get (lit "page_id") (metadata doc') = Some (VStr key)
  /\ (forall k, ~ In k page_keys ->
        dict_get k (metadata doc') = dict_get k (metadata doc)).
Proof.
  unfold enrich, bind, field.
  destruct (m_page_number m) as [pn|]; [|discriminate].
  destruct (m_header m) as [h|]; [|discriminate].
  destruct (m_involved_parties m) as [ip|]; [|discriminate].
  destruct (m_date m) as [d|]; [|discriminate].
  destruct (m_type m) as [ty|]; [|discriminate].
  intros H. injection H as <-.
  exact (enriched_get (metadata doc) pn h ip d ty key).
Qed.

Lemma enrich_first_missing key m doc f :
  first_missing m = Some f -> enrich key m doc = inl (KeyError (lit f)).
Proof.
  unfold first_missing, enrich, bind, field.
  destruct (m_page_number m); [|now intros [= <-]].
  destruct (m_header m); [|now intros [= <-]].
  destruct (m_involved_parties m); [|now intros [= <-]].
  destruct (m_date m); [|now intros [= <-]].
  destruct (m_type m); [discriminate | now intros [= <-]].
Qed.

Lemma enrich_loop_sources md pdf : forall i acc res,
  enrich_loop md i pdf acc = inr res ->
  exists docs,
    res = acc ++ docs
    /\ Forall (fun d => exists j original m,
                 In (j, original) (numbered i pdf)
                 /\ meta_get (page_key_of j) md = Some m
                 /\ enrich (page_key_of j) m original = inr d) docs.
Proof.
  induction pdf as [|doc pdf IH]; intros i acc res H; simpl in H.
  - injection H as <-. exists []. rewrite app_nil_r. split; [reflexivity|constructor].
  - destruct (meta_get (page_key_of i) md) as [m|] eqn:G.
    + unfold bind in H.
      destruct (enrich (page_key_of i) m doc) as [e|doc'] eqn:En; [discriminate|].
      destruct (IH _ _ _ H) as (docs & -> & Hall).
      exists (doc' :: docs). rewrite <- app_assoc. split; [reflexivity|].
      constructor.
      * exists i, doc, m. simpl. auto.
      * eapply Forall_impl; [|exact Hall].
        intros d (j & o & mj & Hin & Hg & He). exists j, o, mj.
        simpl. auto.
    + destruct (IH _ _ _ H) as (docs & -> & Hall).
      exists docs. split; [reflexivity|].
      eapply Forall_impl; [|exact Hall].
      intros d (j & o & mj & Hin & Hg & He). exists j, o, mj.
      simpl. auto.
Qed.

Lemma enrich_loop_raises md pre doc post m f : forall i acc,
  (forall j mj, i <= j < i + List.length pre ->
     meta_get (page_key_of j) md = Some mj -> complete mj) ->
  meta_get (page_key_of (i + List.length pre)) md = Some m ->
  first_missing m = Some f ->
  enrich_loop md i (pre ++ doc :: post) acc = inl (KeyError (lit f)).
Proof.
  induction pre as [|d pre IH]; intros i acc Hpre Hm Hf; simpl.
  - simpl in Hm. rewrite Nat.add_0_r in Hm. rewrite Hm.
    now rewrite (enrich_first_missing _ _ _ _ Hf).
  - assert (Hrest : forall j mj, S i <= j < S i + List.length pre ->
              meta_get (page_key_of j) md = Some mj -> complete mj).
    { intros j mj Hj. apply Hpre. simpl. lia. }
    assert (Hm' : meta_get (page_key_of (S i + List.length pre)) md = Some m).
    { simpl in Hm. now replace (S i + List.length pre)
                         with (i + S (List.length pre)) by lia. }
    destruct (meta_get (page_key_of i) md) as [mi|] eqn:G.
    + destruct (enrich_complete (page_key_of i) mi d) as (d' & E).
      { apply (Hpre i); [simpl; lia | assumption]. }
      rewrite E. simpl. now apply IH.
    + now apply IH.
Qed.

End LoadExtras.

(** X7.  Every page [load_pdf_with_metadata] returns comes from a page
    of the PDF, numbered [i], whose key [page_i] has an entry: it has
    that key as id, the text of the PDF page, the entry's page number,
    header, date and type, the involved parties joined by a comma and a
    space, and [page_id] the key; under every other key it keeps what
    the PDF reader had put there. *)
Theorem loaded_page_metadata
  (pdf_documents : list Node) (metadata_dict : metadata_json)
  (docs : list Node) (d : Node) :
  load_pdf_with_metadata pdf_documents metadata_dict = inr docs ->
  In d docs ->
  exists i original m,
    In (i, original) (numbered 1 pdf_documents)
    /\ 1 <= i <= List.length pdf_documents
    /\ meta_get (page_key_of i) metadata_dict = Some m
    /\ id_ d = page_key_of i
    /\ text d = text original
    /\ dict_get (lit "page_number") (metadata d) = m_page_number m
    /\ dict_get (lit "header") (metadata d) = m_header m
    /\ dict_get (lit "involved_parties") (metadata d)
       = option_map (fun ip => VStr (join (lit ", ") ip)) (m_involved_parties m)
    /\ dict_get (lit "date") (metadata d) = m_date m
    /\ dict_get (lit "type") (metadata d) = m_type m
    /\ dict_get (lit "page_id") (metadata d) = Some (VStr (page_key_of i))
    /\ complete m
    /\ (forall k, ~ In k page_keys ->
          dict_get k (metadata d) = dict_get k (metadata original)).
Proof.
  intros H Hd. unfold load_pdf_with_metadata in H.
  destruct (enrich_loop_sources _ _ _ _ _ H) as (docs' & E & Hall).
  simpl in E. subst docs'. rewrite Forall_forall in Hall.
  destruct (Hall d Hd) as (i & original & m & Hin & Hg & He).
  exists i, original, m.
  destruct (enrich_fields _ _ _ _ He) as (E1 & E2 & _).
  destruct (enrich_metadata _ _ _ _ He) as (M1 & M2 & M3 & M4 & M5 & M6 & M7).
  pose proof (numbered_bounds _ _ _ _ Hin) as Hb.
  repeat (split; [first [assumption | lia]|]).
  split; [|assumption].
  unfold complete. rewrite <- M1, <- M2, <- M4, <- M5.
  unfold enrich, bind, field in He.
  destruct (m_page_number m); [|discriminate].
  destruct (m_header m); [|discriminate].
  destruct (m_involved_parties m); [|discriminate].
  destruct (m_date m); [|discriminate].
  destruct (m_type m); [|discriminate].
  rewrite M1, M2, M4, M5. repeat split; discriminate.
Qed.

(** Witness of [loaded_page_metadata]: one page from the reader, with
    its entry; the reader's [file_path] is kept. *)
Lemma loaded_page_metadata_witness :
  exists docs d,
    load_pdf_with_metadata [page_from_reader] metadata_1_3 = inr docs
    /\ In d docs
    /\ id_ d = lit "page_1"
    /\ dict_get (lit "involved_parties") (metadata d) = Some (VStr (lit "A, B"))
    /\ dict_get (lit "file_path") (metadata d)
       = Some (VStr (lit "Data/insurance_claim.pdf")).
Proof.
  destruct (load_pdf_with_metadata [page_from_reader] metadata_1_3)
    as [e|docs] eqn:E; [vm_compute in E; discriminate|].
  destruct docs as [|d docs]; [vm_compute in E; discriminate|].
  exists (d :: docs), d. split; [reflexivity|].
  assert (Hd : In d (d :: docs)) by now left.
  split; [exact Hd|].
  destruct (loaded_page_metadata [page_from_reader] metadata_1_3 (d :: docs) d E Hd)
    as (i & original & m & Hin & Hb & Hg & Hid & _ & _ & _ & Hip & _ & _ & _ & _ & Hk).
  simpl in Hin, Hb. destruct Hin as [Hin|[]]. injection Hin as <- <-.
  vm_compute in Hg. injection Hg as <-.
  split; [exact Hid|]. split; [exact Hip|].
  rewrite Hk; [reflexivity|].
  vm_compute. intuition discriminate.
Defined.

(** X8.  When the entries of the pages before it have their five fields
    and the entry of a page lacks one, [load_pdf_with_metadata] raises
    the [KeyError] of the first field that entry lacks, in the order
    page number, header, involved parties, date, type, and returns no
    page. *)
Theorem load_raises_on_incomplete_entry
  (pre : list Node) (doc : Node) (post : list Node)
  (metadata_dict : metadata_json) (m : MetaEntry) (f : string) :
  (forall j mj, 1 <= j <= List.length pre ->
     meta_get (page_key_of j) metadata_dict = Some mj -> complete mj) ->
  meta_get (page_key_of (S (List.length pre))) metadata_dict = Some m ->
  first_missing m = Some f ->
  load_pdf_with_metadata (pre ++ doc :: post) metadata_dict
  = inl (KeyError (lit f)).
Proof.
  intros Hpre Hm Hf. unfold load_pdf_with_metadata.
  apply enrich_loop_raises with m; auto.
  intros j mj Hj. apply Hpre. lia.
Qed.

(** Witness of [load_raises_on_incomplete_entry]: the entry of the
    second page has neither date nor type. *)
Lemma load_raises_on_incomplete_entry_witness :
  load_pdf_with_metadata three_pages metadata_no_date
  = inl (KeyError (lit "date")).
Proof.
  apply (load_raises_on_incomplete_entry
           [ {| id_ := lit "a"; text := lit "one"; metadata := [] |} ]
           {| id_ := lit "b"; text := lit "two"; metadata := [] |}
           [ {| id_ := lit "c"; text := lit "three"; metadata := [] |} ]
           metadata_no_date
           {| m_page_number := Some (VInt 2);
              m_header := Some (VStr (lit "Header"));
              m_involved_parties := Some [lit "A"];
              m_date := None;
              m_type := None |}).
  - intros j mj Hj Hg. simpl in Hj. assert (j = 1) by lia. subst j.
    vm_compute in Hg. injection Hg as <-. repeat split; discriminate.
  - reflexivity.
  - reflexivity.
Defined.

(* ================================================================== *)
(** ** More on the two write paths *)
(* ================================================================== *)

Section StoreExtras.

Variable Emb : Type.
Variable get_text_embedding : str -> Emb.

Local Abbreviation row_from := (row_from get_text_embedding).

Lemma row_from_mono nodes nodes' r :
  incl nodes nodes' -> row_from nodes r -> row_from nodes' r.
Proof. intros Hi (n & Hn & E). exists n. split; [now apply Hi | exact E]. Qed.

Lemma row_of_node_chunk_id n (r : Row Emb) :
  row_of_node get_text_embedding n = inr r ->
  dict_get (lit "chunk_id") (metadata n) = Some (chunk_id r).
Proof.
  unfold row_of_node, bind, dict_item.
  destruct (dict_get (lit "chunk_id") (metadata n)) as [cid|]; [|discriminate].
  destruct (dict_get (lit "page_number") (metadata n)); [|discriminate].
  destruct (dict_get (lit "chunk_index") (metadata n)); [|discriminate].
  destruct (dict_get (lit "parent_id") (metadata n)); [|discriminate].
  intros H. injection H as <-. reflexivity.
Qed.

Lemma rows_of_from nodes : forall rows,
  rows_of get_text_embedding nodes = inr rows -> Forall (row_from nodes) rows.
Proof.
  induction nodes as [|n nodes IH]; intros rows H.
  - simpl in H. injection H as <-. constructor.
  - destruct (rows_of_cons _ _ _ _ _ H) as (r & rs & Hr & Hrs & ->).
    constructor.
    + exists n. split; [now left | exact Hr].
    + eapply Forall_impl; [|apply IH; exact Hrs].
      intros x. apply row_from_mono. intros y Hy. now right.
Qed.

(** Whatever the loop of [store_in_supabase] ends with, the table is the
    old one with some rows of the nodes written into it. *)
Lemma supabase_loop_written api nodes : forall i (t : list (Row Emb)) res t',
  supabase_loop get_text_embedding api i nodes t = (res, t') ->
  exists p, t' = upsert_all p t /\ Forall (row_from nodes) p.
Proof.
  induction nodes as [|node nodes IH]; intros i t res t' H; simpl in H.
  - injection H as _ <-. exists []. split; [reflexivity | constructor].
  - destruct (row_of_node get_text_embedding node) as [e|r] eqn:Hr.
    + injection H as _ <-. exists []. split; [reflexivity | constructor].
    + assert (Hfrom : row_from (node :: nodes) r).
      { exists node. split; [now left | exact Hr]. }
      destruct (api i) as [|written].
      * destruct (IH _ _ _ _ H) as (p & -> & Hp).
        exists (r :: p). split; [reflexivity|].
        constructor; [exact Hfrom|].
        eapply Forall_impl; [|exact Hp].
        intros x. apply row_from_mono. intros y Hy. now right.
      * injection H as _ <-. destruct written.
        -- exists [r]. split; [reflexivity|]. now constructor.
        -- exists []. split; [reflexivity | constructor].
Qed.

Lemma store_in_supabase_written api pg child_nodes parent_nodes
  (t : list (Row Emb)) res t' :
  store_in_supabase get_text_embedding api pg child_nodes parent_nodes t
    = (res, t') ->
  exists p, t' = upsert_all p t /\ Forall (row_from child_nodes) p.
Proof.
  unfold store_in_supabase.
  destruct (supabase_loop get_text_embedding api 0 child_nodes t)
    as [lr t0] eqn:L.
  destruct (supabase_loop_written _ _ _ _ _ _ L) as (p & -> & Hp).
  destruct lr.
  - intros H. injection H as _ <-. now exists p.
  - unfold store_via_postgres. destruct pg.
    + destruct (rows_of get_text_embedding child_nodes) as [e|rows] eqn:R.
      * intros H. injection H as _ <-. now exists p.
      * intros H. injection H as _ <-. exists (p ++ rows).
        split; [now rewrite upsert_all_app|].
        apply Forall_app. split; [exact Hp | now apply rows_of_from].
    + intros H. injection H as _ <-. now exists p.
  - intros H. injection H as _ <-. now exists p.
Qed.

Lemma upsert_ids_extend (r : Row Emb) t :
  exists added, map chunk_id (upsert r t) = map chunk_id t ++ added.
Proof.
  rewrite upsert_ids. destruct (has_id (chunk_id r) t).
  - exists []. now rewrite app_nil_r.
  - now exists [chunk_id r].
Qed.

Lemma upsert_all_ids_extend p : forall (t : list (Row Emb)),
  exists added, map chunk_id (upsert_all p t) = map chunk_id t ++ added.
Proof.
  induction p as [|r p IH]; intros t; simpl.
  - exists []. now rewrite app_nil_r.
  - destruct (IH (upsert r t)) as (a2 & E2).
    destruct (upsert_ids_extend r t) as (a1 & E1).
    exists (a1 ++ a2). now rewrite E2, E1, app_assoc.
Qed.

Lemma upsert_nth_other (r x : Row Emb) t i :
  nth_error t i = Some x -> chunk_id x <> chunk_id r ->
  nth_error (upsert r t) i = Some x.
Proof.
  intros Hx Hne. unfold upsert. destruct (has_id (chunk_id r) t).
  - rewrite nth_error_map, Hx. simpl.
    replace (value_eqb (chunk_id x) (chunk_id r)) with false; [reflexivity|].
    symmetry. now apply value_eqb_neq.
  - rewrite nth_error_app1; [exact Hx|].
    apply nth_error_Some. congruence.
Qed.

Lemma upsert_all_nth_other p (x : Row Emb) : forall t i,
  nth_error t i = Some x ->
  Forall (fun r => chunk_id x <> chunk_id r) p ->
  nth_error (upsert_all p t) i = Some x.
Proof.
  induction p as [|r p IH]; intros t i Hx Hp; simpl; [exact Hx|].
  inversion Hp as [|? ? Hr Hrest]; subst.
  apply IH; [|exact Hrest]. now apply upsert_nth_other.
Qed.

Lemma rows_of_raises pre bad post rows e :
  rows_of get_text_embedding pre = inr rows ->
  row_of_node get_text_embedding bad = inl e ->
  rows_of get_text_embedding (pre ++ bad :: post) = inl e.
Proof.
  revert rows. induction pre as [|n pre IH]; intros rows Hrows Hbad; simpl.
  - now rewrite Hbad.
  - destruct (rows_of_cons _ _ _ _ _ Hrows) as (r & rs & Hr & Hrs & ->).
    rewrite Hr. simpl. now rewrite (IH rs Hrs Hbad).
Qed.

Lemma supabase_loop_raises api pre bad post e : forall rows i (t : list (Row Emb)),
  rows_of get_text_embedding pre = inr rows ->
  row_of_node get_text_embedding bad = inl e ->
  (forall j, j < List.length pre -> api (i + j) = RestStored) ->
  supabase_loop get_text_embedding api i (pre ++ bad :: post) t
  = (LoopRaised e, upsert_all rows t).
Proof.
  induction pre as [|n pre IH]; intros rows i t Hrows Hbad Hapi.
  - simpl in Hrows. injection Hrows as <-. simpl. now rewrite Hbad.
  - destruct (rows_of_cons _ _ _ _ _ Hrows) as (r & rs & Hr & Hrs & ->).
    simpl. rewrite Hr.
    replace (api i) with RestStored
      by (symmetry; rewrite <- (Nat.add_0_r i); apply Hapi; simpl; lia).
    apply IH; [assumption | assumption |].
    intros j Hj. replace (S i + j) with (i + S j) by lia.
    apply Hapi. simpl. lia.
Qed.

End StoreExtras.

(** X9.  Whatever [store_in_supabase] ends with, a result of either
    path or an exception, it has deleted nothing: the ids of the table
    are the old ids, in their order, followed by the new ones; ids that
    were distinct stay distinct; and a row whose [chunk_id] is the
    [chunk_id] of none of the nodes is still at its place, unchanged. *)
Theorem store_keeps_other_rows (Emb : Type)
  (get_text_embedding : str -> Emb) (api : nat -> rest_outcome) (pg : bool)
  (child_nodes parent_nodes : list Node) (t t' : list (Row Emb))
  (res : exn + Stored) :
  store_in_supabase get_text_embedding api pg child_nodes parent_nodes t
    = (res, t') ->
  (exists added, map chunk_id t' = map chunk_id t ++ added)
  /\ (NoDup (map chunk_id t) -> NoDup (map chunk_id t'))
  /\ (forall i x,
        nth_error t i = Some x ->
        (forall n, In n child_nodes ->
           dict_get (lit "chunk_id") (metadata n) <> Some (chunk_id x)) ->
        nth_error t' i = Some x).
Proof.
  intros H.
  destruct (store_in_supabase_written Emb get_text_embedding _ _ _ _ _ _ _ H)
    as (p & -> & Hp).
  split; [|split].
  - apply upsert_all_ids_extend.
  - apply upsert_all_nodup.
  - intros i x Hx Hother. apply upsert_all_nth_other; [exact Hx|].
    eapply Forall_impl; [|exact Hp].
    intros r (n & Hn & Hr) E.
    apply (Hother n Hn).
    rewrite (row_of_node_chunk_id Emb get_text_embedding n r Hr). now rewrite E.
Qed.

(** Witness of [store_keeps_other_rows]: the chunks of the enriched
    page written, through the fallback, into a table that holds a row of
    another document. *)
Lemma store_keeps_other_rows_witness :
  let child_nodes := snd (create_needle_chunks [page_enriched]) in
  let run := store_in_supabase len api_fails_at_1 true
               child_nodes [page_enriched] [other_row] in
  nth_error (snd run) 0 = Some other_row
  /\ NoDup (map chunk_id (snd run)).
Proof.
  intros child_nodes run.
  destruct (store_keeps_other_rows nat len api_fails_at_1 true
              child_nodes [page_enriched] [other_row] (snd run) (fst run))
    as (_ & Hn & Hk).
  - apply surjective_pairing.
  - split.
    + apply Hk; [reflexivity|].
      intros n Hn'. vm_compute in Hn'.
      destruct Hn' as [<-|[<-|[]]]; vm_compute; discriminate.
    + apply Hn. repeat constructor. simpl. tauto.
Defined.

(** X10.  The primary path is not atomic, the fallback is.  When the
    REST endpoint has stored the rows of the first nodes and the next
    node lacks one of the four metadata keys a row reads,
    [store_in_supabase] raises that [KeyError] without trying the
    fallback, and the rows of the earlier nodes stay written; on the
    same nodes [store_via_postgres] raises the same error and leaves
    the table as it was. *)
Theorem primary_path_keeps_partial_write (Emb : Type)
  (get_text_embedding : str -> Emb) (api : nat -> rest_outcome) (pg : bool)
  (pre : list Node) (bad : Node) (post : list Node)
  (parent_nodes store : list Node)
  (rows : list (Row Emb)) (t : list (Row Emb)) (e : exn) :
  rows_of get_text_embedding pre = inr rows ->
  row_of_node get_text_embedding bad = inl e ->
  (forall j, j < List.length pre -> api j = RestStored) ->
  store_in_supabase get_text_embedding api pg (pre ++ bad :: post)
    parent_nodes t
  = (inl e, upsert_all rows t)
  /\ store_via_postgres get_text_embedding true (pre ++ bad :: post)
       parent_nodes store t
     = (inl e, t)
  /\ (forall r, In r rows -> has_id (chunk_id r) (upsert_all rows t) = true).
Proof.
  intros Hrows Hbad Hapi. split; [|split].
  - unfold store_in_supabase.
    now rewrite (supabase_loop_raises Emb get_text_embedding api pre bad post e
                   rows 0 t Hrows Hbad Hapi).
  - unfold store_via_postgres.
    now rewrite (rows_of_raises Emb get_text_embedding pre bad post rows e
                   Hrows Hbad).
  - intros r Hr. now apply has_id_upsert_all.
Qed.

(** Witness of [primary_path_keeps_partial_write]: the two chunks of
    the enriched page followed by a chunk without page number. *)
Lemma primary_path_keeps_partial_write_witness :
  let pre := snd (create_needle_chunks [page_enriched]) in
  exists rows,
    rows_of len pre = inr rows
    /\ fst (store_in_supabase len (fun _ => RestStored) false
              (pre ++ [node_without_page_number]) [page_enriched] [])
       = inl (KeyError (lit "page_number"))
    /\ List.length (snd (store_in_supabase len (fun _ => RestStored) false
              (pre ++ [node_without_page_number]) [page_enriched] [])) = 2
    /\ snd (store_via_postgres len true
              (pre ++ [node_without_page_number]) [page_enriched]
              [page_enriched] [])
       = [].
Proof.
  intros pre.
  destruct (rows_of len pre) as [e|rows] eqn:R;
    [vm_compute in R; discriminate|].
  exists rows. split; [reflexivity|].
  destruct (primary_path_keeps_partial_write nat len (fun _ => RestStored)
              false pre node_without_page_number [] [page_enriched]
              [page_enriched] rows [] (KeyError (lit "page_number")) R)
    as (H1 & H2 & _).
  - reflexivity.
  - reflexivity.
  - rewrite H1, H2. split; [reflexivity|]. split; [|reflexivity].
    vm_compute in R. injection R as <-. reflexivity.
Defined.

(* ================================================================== *)
(** ** From the loaded pages to the chunk table *)
(* ================================================================== *)

Section Pipeline.

(** The pages the loader returns carry the keys the later stages
    read. *)
Lemma loaded_pages_keys pdf_documents metadata_dict docs :
  load_pdf_with_metadata pdf_documents metadata_dict = inr docs ->
  Forall (fun d => has_log_keys d
                   /\ dict_get (lit "page_number") (metadata d) <> None) docs.
Proof.
  intros H. unfold load_pdf_with_metadata in H.
  destruct (enrich_loop_sources _ _ _ _ _ H) as (docs' & E & Hall).
  simpl in E. subst docs'.
  eapply Forall_impl; [|exact Hall].
  intros d (j & original & m & _ & _ & He).
  destruct (enrich_metadata _ _ _ _ He) as (M1 & M2 & _ & _ & _ & M6 & _).
  unfold has_log_keys. rewrite M1, M2, M6.
  unfold enrich, bind, field in He.
  destruct (m_page_number m); [|discriminate].
  destruct (m_header m); [|discriminate].
  repeat split; discriminate.
Qed.

Lemma store_in_supabase_outcome (Emb : Type) (e : str -> Emb) api pg
  child_nodes parent_nodes rows (t : list (Row Emb)) :
  rows_of e child_nodes = inr rows ->
  (exists s, fst (store_in_supabase e api pg child_nodes parent_nodes t) = inr s)
  \/ (pg = false
      /\ fst (store_in_supabase e api pg child_nodes parent_nodes t)
         = inl ConnectionError).
Proof.
  intros Hrows. unfold store_in_supabase.
  destruct (supabase_loop e api 0 child_nodes t) as [lr t0] eqn:L.
  destruct lr.
  - left. eexists. reflexivity.
  - unfold store_via_postgres. rewrite Hrows. destruct pg.
    + left. eexists. reflexivity.
    + right. split; reflexivity.
  - exfalso. now apply (supabase_loop_no_raise Emb e api child_nodes rows 0 t e0 t0).
Qed.

End Pipeline.

(** X11.  The stages fit: on the pages [load_pdf_with_metadata]
    returns, [create_needle_chunks] finds the keys of its log line and
    returns the pages as parents with their chunks; every chunk gives a
    row, so no [KeyError] comes from the store; with the direct
    connection available [store_in_supabase] returns having written one
    row per chunk, and without it the only exception left is the failed
    connection of the fallback. *)
Theorem loaded_pages_are_indexed (Emb : Type)
  (get_text_embedding : str -> Emb)
  (pdf_documents : list Node) (metadata_dict : metadata_json)
  (docs : list Node) :
  load_pdf_with_metadata pdf_documents metadata_dict = inr docs ->
  let child_nodes := snd (create_needle_chunks docs) in
  create_needle_chunks_logged docs = inr (docs, child_nodes)
  /\ exists rows,
       rows_of get_text_embedding child_nodes = inr rows
       /\ map chunk_id rows = map (fun n => VStr (id_ n)) child_nodes
       /\ map content rows = map text child_nodes
       /\ (forall api t, exists s,
             store_in_supabase get_text_embedding api true child_nodes docs t
             = (inr s, upsert_all rows t))
       /\ (forall api pg t,
             (exists s,
                fst (store_in_supabase get_text_embedding api pg
                       child_nodes docs t) = inr s)
             \/ (pg = false
                 /\ fst (store_in_supabase get_text_embedding api pg
                           child_nodes docs t) = inl ConnectionError)).
Proof.
  intros H child_nodes.
  pose proof (loaded_pages_keys _ _ _ H) as Hk.
  split.
  - unfold create_needle_chunks_logged.
    rewrite parents_loop_returns.
    + reflexivity.
    + eapply Forall_impl; [|exact Hk]. now intros d [Hd _].
  - destruct (rows_of_child_nodes Emb get_text_embedding docs)
      as (rows & Hrows & Hid & Hc).
    { eapply Forall_impl; [|exact Hk]. now intros d [_ Hd]. }
    exists rows. split; [exact Hrows|]. split; [exact Hid|].
    split; [exact Hc|]. split.
    + intros api t.
      apply (store_in_supabase_total Emb get_text_embedding api
               child_nodes docs rows t Hrows).
    + intros api pg t.
      now apply store_in_supabase_outcome with rows.
Qed.

(** Witness of [loaded_pages_are_indexed]: the first and third of three
    pages have an entry; their chunks are stored through the fallback. *)
Lemma loaded_pages_are_indexed_witness :
  exists docs rows,
    load_pdf_with_metadata three_pages metadata_1_3 = inr docs
    /\ List.length docs = 2
    /\ rows_of len (snd (create_needle_chunks docs)) = inr rows
    /\ List.length rows = 2
    /\ snd (store_in_supabase len api_fails_at_1 true
              (snd (create_needle_chunks docs)) docs [])
       = upsert_all rows [].
Proof.
  destruct (load_pdf_with_metadata three_pages metadata_1_3)
    as [e|docs] eqn:L; [vm_compute in L; discriminate|].
  destruct (loaded_pages_are_indexed nat len three_pages metadata_1_3 docs L)
    as (_ & rows & Hrows & _ & Hc & Hs & _).
  exists docs, rows. split; [reflexivity|].
  split; [vm_compute in L; injection L as <-; reflexivity|].
  split; [exact Hrows|].
  split.
  - rewrite <- (length_map content), Hc, length_map.
    vm_compute in L. injection L as <-. reflexivity.
  - destruct (Hs api_fails_at_1 []) as (s & ->). reflexivity.
Defined.

(* ================================================================== *)
(** ** Batches, menus and the question mode *)
(* ================================================================== *)

Section MainFacts.

Variables World Answer : Type.
Variable route : str -> World -> (exn + str) * World.
Variable summary_answer_query :
  str -> World -> (exn + AgentResult Answer) * World.
Variable needle_answer_query :
  str -> World -> (exn + AgentResult Answer) * World.

Local Abbreviation query' :=
  (query route summary_answer_query needle_answer_query).
Local Abbreviation batch_loop' :=
  (batch_loop route summary_answer_query needle_answer_query).
Local Abbreviation ask_loop' :=
  (ask_loop route summary_answer_query needle_answer_query).

Lemma routed_app a b : routed (a ++ b) = routed a ++ routed b.
Proof. unfold routed. now rewrite flat_map_app. Qed.

Lemma answered_app a b : answered (a ++ b) = answered a ++ answered b.
Proof. unfold answered. now rewrite flat_map_app. Qed.

(** One query: the router is called once, then at most one agent; a
    response means that an agent was called, and carries the query. *)
Lemma query_calls q verbose w res w' cs :
  query' q verbose w = (res, w', cs) ->
  routed cs = [q]
  /\ (answered cs = [q] \/ (answered cs = [] /\ exists e, res = inl e))
  /\ (forall response, res = inr response ->
        answered cs = [q] /\ resp_query response = q
        /\ (resp_agent response = lit "summary"
            /\ resp_route response = lit "summary"
            \/ resp_agent response = lit "needle"
               /\ resp_route response <> lit "summary")).
Proof.
  unfold query.
  destruct (route q w) as [[e|rt] w1].
  - intros H. injection H as <- <- <-.
    split; [reflexivity|]. split.
    + right. split; [reflexivity|]. now exists e.
    + discriminate.
  - destruct (PyStr.eqb rt (lit "summary")) eqn:E.
    + destruct (summary_answer_query q w1) as [[e|result] w2];
        intros H; injection H as <- <- <-.
      * split; [reflexivity|]. split; [now left | discriminate].
      * split; [reflexivity|]. split; [now left|].
        intros response Hr.
        destruct (respond_returns _ _ _ _ _ _ _ Hr) as (Hf & _).
        destruct (format_response_route _ _ _ _ _ _ Hf)
          as (Hq & Hrt & Ha & _).
        apply eqb_eq in E. subst rt.
        split; [reflexivity|]. split; [exact Hq|]. left. now split.
    + destruct (needle_answer_query q w1) as [[e|result] w2];
        intros H; injection H as <- <- <-.
      * split; [reflexivity|]. split; [now left | discriminate].
      * split; [reflexivity|]. split; [now left|].
        intros response Hr.
        destruct (respond_returns _ _ _ _ _ _ _ Hr) as (Hf & _).
        destruct (format_response_route _ _ _ _ _ _ Hf)
          as (Hq & Hrt & Ha & _).
        apply eqb_neq in E.
        split; [reflexivity|]. split; [exact Hq|]. right.
        split; [exact Ha | now rewrite Hrt].
Qed.

Lemma batch_loop_returns queries : forall w results calls rs w' cs,
  batch_loop' queries w results calls = (inr rs, w', cs) ->
  exists rs' cs',
    rs = results ++ rs' /\ cs = calls ++ cs'
    /\ map resp_query rs' = queries
    /\ routed cs' = queries /\ answered cs' = queries
    /\ Forall well_routed rs'.
Proof.
  induction queries as [|q queries IH]; intros w results calls rs w' cs H;
    simpl in H.
  - injection H as <- <- <-. exists [], [].
    rewrite !app_nil_r. repeat split. constructor.
  - destruct (query' q true w) as [[[e|r] w1] c1] eqn:Q; [discriminate|].
    destruct (query_calls _ _ _ _ _ _ Q) as (Hr & _ & Hresp).
    destruct (Hresp r eq_refl) as (Ha & Hq & Hw).
    destruct (IH _ _ _ _ _ _ H) as (rs' & cs' & -> & -> & Hm & Hro & Han & Hall).
    exists (r :: rs'), (c1 ++ cs'). rewrite <- !app_assoc.
    split; [reflexivity|]. split; [reflexivity|].
    simpl. rewrite routed_app, answered_app, Hr, Ha, Hq, Hm, Hro, Han.
    repeat split. now constructor.
Qed.

Lemma batch_loop_raises queries : forall w results calls e w' cs,
  batch_loop' queries w results calls = (inl e, w', cs) ->
  exists k q rs wk ck cq,
    nth_error queries k = Some q
    /\ batch_loop' (firstn k queries) w results calls
       = (inr rs, wk, calls ++ ck)
    /\ query' q true wk = (inl e, w', cq)
    /\ cs = calls ++ ck ++ cq
    /\ routed (ck ++ cq) = firstn (S k) queries
    /\ (answered (ck ++ cq) = firstn (S k) queries
        \/ answered (ck ++ cq) = firstn k queries)
    /\ forall more, batch_loop' (queries ++ more) w results calls
                    = (inl e, w', cs).
Proof.
  induction queries as [|q queries IH]; intros w results calls e w' cs H;
    simpl in H.
  - discriminate.
  - destruct (query' q true w) as [[[e1|r] w1] c1] eqn:Q.
    + injection H as <- <- <-.
      destruct (query_calls _ _ _ _ _ _ Q) as (Hr & Ha & _).
      exists 0, q, results, w, [], c1.
      split; [reflexivity|]. split; [cbn; now rewrite app_nil_r|].
      split; [exact Q|]. split; [reflexivity|].
      split; [exact Hr|]. split.
      * destruct Ha as [Ha|[Ha _]]; [now left | now right].
      * intros more. simpl. now rewrite Q.
    + destruct (query_calls _ _ _ _ _ _ Q) as (Hr & _ & Hresp).
      destruct (Hresp r eq_refl) as (Ha & _ & _).
      destruct (IH _ _ _ _ _ _ H)
        as (k & q' & rs & wk & ck & cq & Hn & Hpre & Hq & -> & Hro & Han & Hmore).
      exists (S k), q', rs, wk, (c1 ++ ck), cq.
      split; [exact Hn|]. split.
      * cbn [firstn batch_loop]. rewrite Q, Hpre. now rewrite <- app_assoc.
      * split; [exact Hq|]. rewrite <- !app_assoc.
        split; [reflexivity|].
        rewrite routed_app, answered_app, Hr, Ha.
        split; [now rewrite Hro|]. split.
        -- destruct Han as [-> | ->]; [now left | right].
           destruct k; reflexivity.
        -- intros more. simpl. rewrite Q. rewrite Hmore.
           now rewrite <- !app_assoc.
Qed.

Lemma batch_loop_raises_at pre q post e : forall w results calls rs wk ck w' cq,
  batch_loop' pre w results calls = (inr rs, wk, ck) ->
  query' q true wk = (inl e, w', cq) ->
  batch_loop' (pre ++ q :: post) w results calls = (inl e, w', ck ++ cq).
Proof.
  induction pre as [|p pre IH]; intros w results calls rs wk ck w' cq H Q.
  - simpl in H. injection H as <- <- <-. simpl. now rewrite Q.
  - simpl in H. simpl.
    destruct (query' p true w) as [[[e1|r] w1] c1]; [discriminate|].
    now apply IH with rs wk.
Qed.

Lemma ask_loop_line s rest w calls :
  ask_loop' (Line s :: rest) w calls
  = if str_in (lower (strip s)) exit_words then (Returned, w, calls)
    else if is_empty (strip s) then ask_loop' rest w calls
    else match query' (strip s) true w with
         | (_, w1, cs) => ask_loop' rest w1 (calls ++ cs)
         end.
Proof. reflexivity. Qed.

Lemma stripped_lines_line s events :
  stripped_lines (Line s :: events) = strip s :: stripped_lines events.
Proof. reflexivity. Qed.

Lemma ask_loop_waiting events : forall w calls,
  forallb (fun ev => negb (ends_session ev)) events = true ->
  exists w' cs,
    ask_loop' events w calls = (Waiting, w', calls ++ cs)
    /\ routed cs = filter nonempty (stripped_lines events)
    /\ (forall stop more, ends_session stop = true ->
          ask_loop' (events ++ stop :: more) w calls
          = (Returned, w', calls ++ cs)).
Proof.
  induction events as [|ev events IH]; intros w calls H.
  - exists w, []. rewrite app_nil_r. split; [reflexivity|].
    split; [reflexivity|].
    intros stop more Hs. rewrite app_nil_l.
    destruct stop as [s| |]; cbn [ends_session] in Hs.
    + now rewrite ask_loop_line, Hs.
    + reflexivity.
    + discriminate.
  - cbn [forallb] in H. apply andb_true_iff in H. destruct H as [Hev H].
    destruct ev as [s| |]; cbn [ends_session] in Hev.
    + apply negb_true_iff in Hev. rewrite ask_loop_line, Hev.
      rewrite stripped_lines_line. cbn [filter].
      destruct (is_empty (strip s)) eqn:Em.
      * destruct (IH w calls H) as (w' & cs & E & Hr & Hstop).
        exists w', cs. split; [exact E|].
        unfold nonempty at 1. rewrite Em. cbn [negb]. split; [exact Hr|].
        intros stop more Hs.
        rewrite <- app_comm_cons, ask_loop_line, Hev, Em. now apply Hstop.
      * destruct (query' (strip s) true w) as [[res w1] c1] eqn:Q.
        destruct (query_calls _ _ _ _ _ _ Q) as (Hq & _).
        destruct (IH w1 (calls ++ c1) H) as (w' & cs & E & Hr & Hstop).
        exists w', (c1 ++ cs). rewrite app_assoc. split; [exact E|].
        unfold nonempty at 1. rewrite Em. cbn [negb].
        rewrite routed_app, Hq. split; [now rewrite <- Hr|].
        intros stop more Hs.
        rewrite <- app_comm_cons, ask_loop_line, Hev, Em, Q. now apply Hstop.
    + discriminate.
    + destruct (IH w calls H) as (w' & cs & E & Hr & Hstop).
      exists w', cs. split; [exact E|]. split; [exact Hr|].
      intros stop more Hs. rewrite <- app_comm_cons. now apply Hstop.
Qed.

End MainFacts.

Section MenuFacts.

Lemma str_in_In x l : str_in x l = true <-> In x l.
Proof.
  unfold str_in. rewrite existsb_exists. split.
  - intros (y & Hy & E). apply eqb_eq in E. now subst.
  - intros H. exists x. split; [exact H | apply eqb_refl].
Qed.

Lemma menu_loop_line valid s rest errors :
  menu_loop valid (Line s :: rest) errors
  = if str_in (strip s) valid then (Chosen (strip s), rest, errors)
    else menu_loop valid rest (S errors).
Proof. reflexivity. Qed.

Lemma menu_loop_chosen valid events : forall errors c rest n,
  menu_loop valid events errors = (Chosen c, rest, n)
  <-> exists pre s,
        events = map Line pre ++ Line s :: rest
        /\ c = strip s /\ In c valid
        /\ Forall (fun x => ~ In (strip x) valid) pre
        /\ n = errors + List.length pre.
Proof.
  induction events as [|ev events IH]; intros errors c rest n.
  - split; [discriminate|].
    intros (pre & s & E & _). destruct pre; discriminate.
  - destruct ev as [s0| |].
    + rewrite menu_loop_line. destruct (str_in (strip s0) valid) eqn:V.
      * split.
        -- intros H. injection H as <- <- <-. exists [], s0.
           split; [reflexivity|]. split; [reflexivity|].
           split; [now apply str_in_In|]. split; [constructor | simpl; lia].
        -- intros (pre & s & E & -> & Hin & Hpre & ->).
           destruct pre as [|p pre].
           ++ simpl in E. injection E as <- <-.
              now rewrite Nat.add_0_r.
           ++ simpl in E. injection E as <- _.
              inversion Hpre as [|? ? Hp _]; subst.
              exfalso. apply Hp. now apply str_in_In.
      * rewrite IH. split.
        -- intros (pre & s & -> & -> & Hin & Hpre & ->).
           exists (s0 :: pre), s. split; [reflexivity|].
           split; [reflexivity|]. split; [exact Hin|]. split.
           ++ constructor; [|exact Hpre]. intros Hc.
              apply str_in_In in Hc. congruence.
           ++ simpl. lia.
        -- intros (pre & s & E & -> & Hin & Hpre & ->).
           destruct pre as [|p pre].
           ++ simpl in E. injection E as <- <-.
              apply str_in_In in Hin. congruence.
           ++ simpl in E. injection E as <- ->.
              inversion Hpre as [|? ? _ Hrest]; subst.
              exists pre, s. split; [reflexivity|].
              split; [reflexivity|]. split; [exact Hin|].
              split; [exact Hrest | simpl; lia].
    + split; [discriminate|].
      intros (pre & s & E & _). destruct pre; discriminate.
    + split; [discriminate|].
      intros (pre & s & E & _). destruct pre; discriminate.
Qed.

End MenuFacts.

(** X12.  When [batch_query] returns, it returns one response per
    query, in the order of the queries and each carrying its query; the
    router was called once on every query, in order, and one agent once
    on every query; and the agent each response names is the one its
    route selects. *)
Theorem batch_query_returns_in_order (World Answer : Type)
  (route : str -> World -> (exn + str) * World)
  (summary_answer_query needle_answer_query :
     str -> World -> (exn + AgentResult Answer) * World)
  (queries : list str) (w w' : World)
  (results : list (Response Answer)) (calls : list agent_call) :
  batch_query route summary_answer_query needle_answer_query queries w
    = (inr results, w', calls) ->
  map resp_query results = queries
  /\ List.length results = List.length queries
  /\ routed calls = queries
  /\ answered calls = queries
  /\ List.length calls = 2 * List.length queries
  /\ Forall well_routed results.
Proof.
  intros H. unfold batch_query in H.
  destruct (batch_loop_returns _ _ _ _ _ _ _ _ _ _ _ _ H)
    as (rs & cs & -> & -> & Hm & Hr & Ha & Hw).
  simpl. split; [exact Hm|].
  split; [now rewrite <- Hm, length_map|].
  split; [exact Hr|]. split; [exact Ha|]. split; [|exact Hw].
  assert (E : List.length cs
              = List.length (routed cs) + List.length (answered cs)).
  { clear. induction cs as [|c cs IH]; [reflexivity|].
    destruct c; simpl; rewrite IH; lia. }
  rewrite E, Hr, Ha. lia.
Qed.

(** Witness of [batch_query_returns_in_order]: two queries, the first
    routed to the summary agent. *)
Lemma batch_query_returns_in_order_witness :
  exists results w' calls,
    batch_query route_example (agent_example (lit "S"))
      (agent_example (lit "N")) [lit "s"; lit "x"] 0
    = (inr results, w', calls)
    /\ map resp_query results = [lit "s"; lit "x"]
    /\ List.length calls = 4.
Proof.
  destruct (batch_query route_example (agent_example (lit "S"))
              (agent_example (lit "N")) [lit "s"; lit "x"] 0)
    as [[[e|results] w'] calls] eqn:B; [vm_compute in B; discriminate|].
  exists results, w', calls. split; [reflexivity|].
  destruct (batch_query_returns_in_order nat str route_example
              (agent_example (lit "S")) (agent_example (lit "N"))
              [lit "s"; lit "x"] 0 w' results calls B)
    as (Hm & _ & _ & _ & Hl & _).
  split; [exact Hm | exact Hl].
Defined.

(** X13.  [batch_query] has no error handling.  It raises exactly
    when one of its queries raises after the queries before it have
    returned, and then it raises the exception of that query, from the
    world that query left, and returns none of the responses it had
    collected.  The router has been called on the queries up to the
    failing one and on none after it, an agent on all of these or on
    all but the last, and the queries after the failing one change
    nothing. *)
Theorem batch_query_stops_at_first_error (World Answer : Type)
  (route : str -> World -> (exn + str) * World)
  (summary_answer_query needle_answer_query :
     str -> World -> (exn + AgentResult Answer) * World)
  (queries : list str) (w : World) :
  (forall e w' calls,
     batch_query route summary_answer_query needle_answer_query queries w
       = (inl e, w', calls) ->
     exists k q results wk ck cq,
       nth_error queries k = Some q
       /\ batch_query route summary_answer_query needle_answer_query
            (firstn k queries) w
          = (inr results, wk, ck)
       /\ query route summary_answer_query needle_answer_query q true wk
          = (inl e, w', cq)
       /\ calls = ck ++ cq
       /\ routed calls = firstn (S k) queries
       /\ (answered calls = firstn (S k) queries
           \/ answered calls = firstn k queries)
       /\ forall more,
            batch_query route summary_answer_query needle_answer_query
              (queries ++ more) w
            = (inl e, w', calls))
  /\ (forall pre q post results wk ck e w' cq,
        queries = pre ++ q :: post ->
        batch_query route summary_answer_query needle_answer_query pre w
          = (inr results, wk, ck) ->
        query route summary_answer_query needle_answer_query q true wk
          = (inl e, w', cq) ->
        batch_query route summary_answer_query needle_answer_query queries w
        = (inl e, w', ck ++ cq)).
Proof.
  split.
  - intros e w' calls H. unfold batch_query in H.
    destruct (batch_loop_raises _ _ _ _ _ _ _ _ _ _ _ _ H)
      as (k & q & rs & wk & ck & cq & Hn & Hpre & Hq & -> & Hr & Ha & Hmore).
    exists k, q, rs, wk, ck, cq. cbn [app] in *.
    repeat split; assumption.
  - intros pre q post results wk ck e w' cq -> Hpre Hq.
    unfold batch_query in *.
    now apply (batch_loop_raises_at World Answer route summary_answer_query
                 needle_answer_query pre q post e w [] [] results wk ck w' cq).
Qed.

(** Witness of [batch_query_stops_at_first_error]: the router fails on
    the second of three queries; the batch raises the router's error
    and the third query is never routed. *)
Lemma batch_query_stops_at_first_error_witness :
  exists w' calls,
    batch_query route_failing (agent_example (lit "S"))
      (agent_example (lit "N")) [lit "s"; lit "boom"; lit "x"] 0
    = (inl (AgentError (lit "router down")), w', calls)
    /\ routed calls = [lit "s"; lit "boom"]
    /\ answered calls = [lit "s"].
Proof.
  destruct (batch_query_stops_at_first_error nat str route_failing
              (agent_example (lit "S")) (agent_example (lit "N"))
              [lit "s"; lit "boom"; lit "x"] 0) as (_ & H).
  destruct (batch_query route_failing (agent_example (lit "S"))
              (agent_example (lit "N")) [lit "s"] 0)
    as [[[e|results] wk] ck] eqn:B; [vm_compute in B; discriminate|].
  destruct (query route_failing (agent_example (lit "S"))
              (agent_example (lit "N")) (lit "boom") true wk)
    as [[[e|r] w'] cq] eqn:Q.
  - exists w', (ck ++ cq).
    pose proof (H [lit "s"] (lit "boom") [lit "x"] results wk ck e w' cq
                  eq_refl B Q) as Hb.
    assert (Ee : e = AgentError (lit "router down")).
    { vm_compute in B. injection B as _ <- _.
      vm_compute in Q. now injection Q as <- _ _. }
    assert (Ec : ck ++ cq = [RouteCall (lit "s"); SummaryCall (lit "s");
                             RouteCall (lit "boom")]).
    { vm_compute in B. injection B as _ <- <-.
      vm_compute in Q. now injection Q as _ _ <-. }
    split.
    + rewrite <- Ee. exact Hb.
    + rewrite Ec. split; reflexivity.
  - exfalso. vm_compute in B. injection B as _ <- _.
    vm_compute in Q. discriminate.
Defined.

(** X14.  [show_main_menu] returns a choice exactly when the lines
    typed so far are some lines whose stripped text is none of 1 to 4
    followed by a line whose stripped text is one of them: it returns
    that stripped text, leaves the later events unread, and has printed
    one error line per rejected line.  The same holds of
    [show_evaluation_submenu] with 1 to 6. *)
Theorem menus_return_first_valid_choice
  (events rest : list console_event) (c : str) (n : nat) :
  (show_main_menu events = (Chosen c, rest, n)
   <-> exists pre s,
         events = map Line pre ++ Line s :: rest
         /\ c = strip s
         /\ In c [lit "1"; lit "2"; lit "3"; lit "4"]
         /\ Forall (fun x => ~ In (strip x)
                                 [lit "1"; lit "2"; lit "3"; lit "4"]) pre
         /\ n = List.length pre)
  /\ (show_evaluation_submenu events = (Chosen c, rest, n)
      <-> exists pre s,
            events = map Line pre ++ Line s :: rest
            /\ c = strip s
            /\ In c [lit "1"; lit "2"; lit "3"; lit "4"; lit "5"; lit "6"]
            /\ Forall (fun x => ~ In (strip x)
                                    [lit "1"; lit "2"; lit "3"; lit "4";
                                     lit "5"; lit "6"]) pre
            /\ n = List.length pre).
Proof.
  split; unfold show_main_menu, show_evaluation_submenu;
    rewrite menu_loop_chosen; reflexivity.
Qed.

(** X15.  As long as no line is one of the words menu, exit, quit and
    back (in any case, white space around it aside) and Ctrl-C has not
    been pressed, [ask_questions_mode] goes on: neither an exception of
    a query nor the end of the input ends it.  The router has then been
    called exactly on the stripped lines that are not empty, in order,
    and the next exit word or Ctrl-C makes it return, with no further
    call, whatever follows. *)
Theorem question_mode_runs_until_exit (World Answer : Type)
  (route : str -> World -> (exn + str) * World)
  (summary_answer_query needle_answer_query :
     str -> World -> (exn + AgentResult Answer) * World)
  (events : list console_event) (w : World) :
  forallb (fun ev => negb (ends_session ev)) events = true ->
  exists w' calls,
    ask_questions_mode route summary_answer_query needle_answer_query events w
    = (Waiting, w', calls)
    /\ routed calls = filter nonempty (stripped_lines events)
    /\ forall stop more,
         ends_session stop = true ->
         ask_questions_mode route summary_answer_query needle_answer_query
           (events ++ stop :: more) w
         = (Returned, w', calls).
Proof.
  intros H. unfold ask_questions_mode.
  destruct (ask_loop_waiting World Answer route summary_answer_query
              needle_answer_query events w [] H)
    as (w' & cs & E & Hr & Hstop).
  exists w', cs. simpl in E, Hstop. auto.
Qed.

(** Witness of [question_mode_runs_until_exit]: a question, an empty
    line, the end of the input, a question on which the router fails,
    another question; then the exit word. *)
Lemma question_mode_runs_until_exit_witness :
  exists w' calls,
    ask_questions_mode route_failing (agent_example (lit "S"))
      (agent_example (lit "N"))
      [Line (lit " s "); Line (lit "  "); EndOfInput; Line (lit "boom");
       Line (lit "x"); Line (lit " MENU "); Line (lit "later")] 0
    = (Returned, w', calls)
    /\ routed calls = [lit "s"; lit "boom"; lit "x"].
Proof.
  destruct (question_mode_runs_until_exit nat str route_failing
              (agent_example (lit "S")) (agent_example (lit "N"))
              [Line (lit " s "); Line (lit "  "); EndOfInput;
               Line (lit "boom"); Line (lit "x")] 0)
    as (w' & calls & _ & Hr & Hstop).
  - vm_compute. reflexivity.
  - exists w', calls. split.
    + apply (Hstop (Line (lit " MENU ")) [Line (lit "later")]).
      vm_compute. reflexivity.
    + rewrite Hr. vm_compute. reflexivity.
Defined.

(** Witness of [menus_return_first_valid_choice]: a rejected line, then
    the choice 2 with white space around it. *)
Lemma menus_return_first_valid_choice_witness :
  show_main_menu [Line (lit "x"); Line (lit " 2 "); Line (lit "3")]
  = (Chosen (lit "2"), [Line (lit "3")], 1).
Proof.
  apply (menus_return_first_valid_choice
           [Line (lit "x"); Line (lit " 2 "); Line (lit "3")]
           [Line (lit "3")] (lit "2") 1).
  exists [lit "x"], (lit " 2 ").
  split; [reflexivity|]. split; [reflexivity|].
  split; [simpl; tauto|]. split; [|reflexivity].
  constructor; [|constructor].
  vm_compute. intuition discriminate.
Defined.

(* ================================================================== *)
(** ** The metadata file, written and read back *)
(* ================================================================== *)

Section GenerateFacts.

(** The entries as the loader sees them, for the pages numbered from
    [i] on. *)
Local Abbreviation keyed i pages :=
  (map (fun jp => (page_key_of (fst jp), entry_of (fst jp) (snd jp)))
     (combine (seq i (List.length pages)) pages)).

Lemma assoc_set_fresh (V : Type) k (v : V) d :
  ~ In k (map fst d) -> assoc_set k v d = d ++ [(k, v)].
Proof.
  induction d as [|[k' v'] d IH]; intros H; simpl; [reflexivity|].
  simpl in H. replace (PyStr.eqb k' k) with false.
  - rewrite IH; [reflexivity | tauto].
  - symmetry. apply eqb_neq. tauto.
Qed.

Lemma generate_metadata_loop_result pages : forall i acc md,
  (forall k, In k (map fst acc) -> exists j, j < i /\ k = page_key_of j) ->
  generate_metadata_loop i pages acc = inr md ->
  Forall pc_complete pages
  /\ as_loaded md = as_loaded acc ++ keyed i pages
  /\ map (fun kv => g_character_count (snd kv)) md
     = map (fun kv => g_character_count (snd kv)) acc
       ++ map (fun pc => match pc_text pc with
                         | Some t => len t
                         | None => 0
                         end) pages.
Proof.
  induction pages as [|pc pages IH]; intros i acc md Hacc H.
  - simpl in H. injection H as <-. simpl. rewrite !app_nil_r.
    split; [constructor | split; reflexivity].
  - cbn [generate_metadata_loop] in H. unfold bind, field in H.
    destruct (pc_header pc) as [h|] eqn:E1; [|discriminate].
    destruct (pc_involved_parties pc) as [ip|] eqn:E2; [|discriminate].
    destruct (pc_date pc) as [d|] eqn:E3; [|discriminate].
    destruct (pc_type pc) as [ty|] eqn:E4; [|discriminate].
    destruct (pc_text pc) as [t|] eqn:E5; [|discriminate].
    rewrite assoc_set_fresh in H.
    + apply IH in H.
      * destruct H as (Hall & Hl & Hc). split; [|split].
        -- constructor; [|exact Hall].
           unfold pc_complete. rewrite E1, E2, E3, E4, E5.
           repeat split; discriminate.
        -- rewrite Hl. unfold as_loaded. rewrite map_app, <- app_assoc.
           f_equal. cbn [List.length seq combine map app fst snd].
           f_equal. unfold entry_of. now rewrite E1, E2, E3, E4.
        -- rewrite Hc, map_app, <- app_assoc. cbn [map app snd].
           now rewrite E5.
      * intros k Hk. rewrite map_app in Hk. apply in_app_or in Hk.
        destruct Hk as [Hk|[<-|[]]].
        -- destruct (Hacc k Hk) as (j & Hj & ->). exists j. split; [lia|reflexivity].
        -- exists i. split; [lia | reflexivity].
    + intros Hin. destruct (Hacc _ Hin) as (j & Hj & E).
      apply page_key_inj in E. lia.
Qed.

Lemma meta_get_keyed pages : forall i k,
  meta_get (page_key_of k) (keyed i pages)
  = if i <=? k then option_map (entry_of k) (nth_error pages (k - i)) else None.
Proof.
  induction pages as [|pc pages IH]; intros i k.
  - simpl. destruct (i <=? k); [|reflexivity].
    now destruct (k - i).
  - cbn [List.length seq combine map meta_get fst snd].
    destruct (PyStr.eqb (page_key_of i) (page_key_of k)) eqn:E.
    + apply eqb_eq in E. apply page_key_inj in E. subst k.
      rewrite Nat.leb_refl, Nat.sub_diag. reflexivity.
    + apply eqb_neq in E. assert (i <> k) by congruence.
      rewrite IH. destruct (i <=? k) eqn:L.
      * apply Nat.leb_le in L.
        replace (S i <=? k) with true by (symmetry; apply Nat.leb_le; lia).
        replace (k - i) with (S (k - S i)) by lia. reflexivity.
      * apply Nat.leb_gt in L.
        replace (S i <=? k) with false by (symmetry; apply Nat.leb_gt; lia).
        reflexivity.
Qed.

Lemma entry_of_complete i pc : pc_complete pc -> complete (entry_of i pc).
Proof.
  intros (H1 & H2 & H3 & H4 & _). unfold complete, entry_of. simpl.
  repeat split; try assumption. discriminate.
Qed.

Lemma enrich_published i pc original d :
  enrich (page_key_of i) (entry_of i pc) original = inr d ->
  published i original pc d.
Proof.
  intros H.
  destruct (enrich_fields _ _ _ _ H) as (F1 & F2 & _).
  destruct (enrich_metadata _ _ _ _ H) as (M1 & M2 & M3 & M4 & M5 & M6 & _).
  unfold published. simpl in M1, M2, M3, M4, M5. auto 10.
Qed.

(** Reading pages against the entries of [pages]. *)
Lemma enrich_loop_keyed pages (Hall : Forall pc_complete pages) pdf :
  forall i acc, 1 <= i ->
  exists docs,
    enrich_loop (keyed 1 pages) i pdf acc = inr (acc ++ docs)
    /\ List.length docs = Nat.min (List.length pdf) (List.length pages - (i - 1))
    /\ forall j d, nth_error docs j = Some d ->
         exists original pc,
           nth_error pdf j = Some original
           /\ nth_error pages (i - 1 + j) = Some pc
           /\ published (i + j) original pc d.
Proof.
  induction pdf as [|doc pdf IH]; intros i acc Hi.
  - exists []. rewrite app_nil_r. split; [reflexivity|].
    split; [reflexivity|]. intros j d Hj. now destruct j.
  - cbn [enrich_loop]. rewrite meta_get_keyed.
    replace (1 <=? i) with true by (symmetry; apply Nat.leb_le; lia).
    destruct (nth_error pages (i - 1)) as [pc|] eqn:N; cbn [option_map].
    + assert (Hpc : pc_complete pc).
      { rewrite Forall_forall in Hall. apply Hall.
        now apply nth_error_In with (i - 1). }
      destruct (enrich_complete (page_key_of i) (entry_of i pc) doc
                  (entry_of_complete i pc Hpc)) as (doc' & En).
      rewrite En. cbn [bind].
      destruct (IH (S i) (acc ++ [doc'])) as (docs & E & Hl & Hn); [lia|].
      exists (doc' :: docs). rewrite E, <- app_assoc.
      split; [reflexivity|]. split.
      * assert (i - 1 < List.length pages)
          by (apply nth_error_Some; congruence).
        cbn [List.length]. rewrite Hl. lia.
      * intros j d Hj. destruct j as [|j].
        -- simpl in Hj. injection Hj as <-. exists doc, pc.
           split; [reflexivity|]. rewrite !Nat.add_0_r.
           split; [exact N|]. now apply enrich_published.
        -- simpl in Hj. destruct (Hn j d Hj) as (o & pc' & H1 & H2 & H3).
           exists o, pc'. split; [exact H1|].
           replace (i - 1 + S j) with (S i - 1 + j) by lia.
           replace (i + S j) with (S i + j) by lia. now split.
    + destruct (IH (S i) acc) as (docs & E & Hl & Hn); [lia|].
      assert (List.length pages <= i - 1) by (now apply nth_error_None).
      assert (docs = []).
      { destruct docs; [reflexivity|]. simpl in Hl. lia. }
      subst docs. exists []. split; [exact E|]. split.
      * cbn [List.length]. lia.
      * intros j d Hj. now destruct j.
Qed.

End GenerateFacts.

(** X16.  The metadata file fits the loader.  When [generate_metadata]
    returns, every page of content had its five keys, the file holds
    the entries [page_1] to [page_n] in order, and
    [load_pdf_with_metadata] on a PDF of any number of pages raises no
    [KeyError]: it returns the first [n] pages of the PDF (all of them
    when the PDF has at most [n]), the page numbered [i] with the
    header, involved parties, date and type of the [i]-th page of
    content. *)
Theorem generated_metadata_is_loadable
  (pages_content : list PageContent) (md : list (str * GeneratedEntry))
  (pdf_documents : list Node) :
  generate_metadata pages_content = inr md ->
  Forall pc_complete pages_content
  /\ map fst md = map page_key_of (seq 1 (List.length pages_content))
  /\ exists docs,
       load_pdf_with_metadata pdf_documents (as_loaded md) = inr docs
       /\ List.length docs
          = Nat.min (List.length pdf_documents) (List.length pages_content)
       /\ forall j d, nth_error docs j = Some d ->
            exists original page_content,
              nth_error pdf_documents j = Some original
              /\ nth_error pages_content j = Some page_content
              /\ published (S j) original page_content d.
Proof.
  intros H. unfold generate_metadata in H.
  apply generate_metadata_loop_result in H; [|intros k []].
  destruct H as (Hall & Hl & _). simpl in Hl.
  split; [exact Hall|]. split.
  - assert (E : map fst md = map fst (as_loaded md)).
    { unfold as_loaded. rewrite map_map. reflexivity. }
    rewrite E, Hl, map_map. cbn [fst].
    generalize 1. clear. induction pages_content as [|pc pages IH]; intros i.
    + reflexivity.
    + cbn [List.length seq combine map fst]. now rewrite IH.
  - rewrite Hl. unfold load_pdf_with_metadata.
    destruct (enrich_loop_keyed pages_content Hall pdf_documents 1 [])
      as (docs & E & Hlen & Hn); [lia|].
    exists docs. split; [exact E|]. split.
    + rewrite Hlen. now rewrite Nat.sub_0_r.
    + intros j d Hj. destruct (Hn j d Hj) as (o & pc & H1 & H2 & H3).
      exists o, pc. auto.
Qed.

(** Witness of [generated_metadata_is_loadable]: two pages of content
    and a PDF of three pages; the third page is dropped. *)
Lemma generated_metadata_is_loadable_witness :
  exists md docs,
    generate_metadata content_example = inr md
    /\ load_pdf_with_metadata three_pages (as_loaded md) = inr docs
    /\ List.length docs = 2.
Proof.
  destruct (generate_metadata content_example) as [e|md] eqn:G;
    [vm_compute in G; discriminate|].
  destruct (generated_metadata_is_loadable content_example md three_pages G)
    as (_ & _ & docs & L & Hlen & _).
  exists md, docs. split; [reflexivity|]. split; [exact L | exact Hlen].
Defined.

(* ================================================================== *)
(** ** The configuration and the database host *)
(* ================================================================== *)

Section ConfigFacts.

Lemma starts_with_skipn p : forall s,
  starts_with p s = true -> s = p ++ skipn (List.length p) s.
Proof.
  induction p as [|a p IH]; intros s H; [reflexivity|].
  destruct s as [|b s]; [discriminate|].
  rewrite starts_with_cons in H. apply andb_true_iff in H.
  destruct H as [E H]. apply Ascii.eqb_eq in E. subst b.
  simpl. f_equal. now apply IH.
Qed.

Lemma starts_with_in p s c : starts_with p s = true -> In c p -> In c s.
Proof.
  intros H Hc. rewrite (starts_with_skipn p s H). apply in_or_app. now left.
Qed.

Lemma replace_absent old new c s :
  In c old -> ~ In c s -> replace old new s = s.
Proof.
  intros Ho. unfold replace. induction s as [|a s IH]; intros Hs.
  - reflexivity.
  - rewrite replace_from_cons.
    destruct (starts_with old (a :: s)) eqn:E.
    + exfalso. apply Hs. now apply starts_with_in with old.
    + rewrite IH; [reflexivity|]. intros Hin. apply Hs. now right.
Qed.

Lemma span_non_dot_split s :
  forall g r, span_non_dot s = (g, r) ->
  s = g ++ r /\ ~ In "."%char g
  /\ (r = [] \/ exists r', r = "."%char :: r').
Proof.
  induction s as [|c s IH]; intros g r H; simpl in H.
  - injection H as <- <-. split; [reflexivity|]. split; [tauto | now left].
  - destruct (Ascii.eqb c ".") eqn:E.
    + injection H as <- <-. apply Ascii.eqb_eq in E. subst c.
      split; [reflexivity|]. split; [tauto|]. right. now exists s.
    + destruct (span_non_dot s) as [g' r'] eqn:S.
      injection H as <- <-.
      destruct (IH g' r' eq_refl) as (-> & Hg & Hr).
      split; [reflexivity|]. split; [|exact Hr].
      intros [Hc|Hin]; [|tauto].
      subst c. now rewrite Ascii.eqb_refl in E.
Qed.

Lemma span_non_dot_app g r :
  ~ In "."%char g -> span_non_dot (g ++ "."%char :: r) = (g, "."%char :: r).
Proof.
  induction g as [|c g IH]; intros H.
  - reflexivity.
  - cbn [app span_non_dot].
    replace (Ascii.eqb c ".") with false.
    + rewrite IH; [reflexivity|]. intros Hin. apply H. now right.
    + symmetry. apply Ascii.eqb_neq. intros ->. apply H. now left.
Qed.

Lemma match_project_at_sound s g :
  match_project_at s = Some g ->
  g <> [] /\ ~ In "."%char g
  /\ exists post, s = lit "https://" ++ g ++ lit ".supabase.co" ++ post.
Proof.
  unfold match_project_at.
  destruct (starts_with (lit "https://") s) eqn:P; [|discriminate].
  apply starts_with_skipn in P.
  change (List.length (lit "https://")) with 8 in P.
  destruct (span_non_dot (skipn 8 s)) as [g' r] eqn:S.
  destruct (is_empty g') eqn:Em; [discriminate|].
  destruct (starts_with (lit ".supabase.co") r) eqn:R; [|discriminate].
  intros H. injection H as <-.
  destruct (span_non_dot_split _ _ _ S) as (E & Hg & _).
  apply starts_with_skipn in R.
  split; [now apply is_empty_false|]. split; [exact Hg|].
  exists (skipn (List.length (lit ".supabase.co")) r).
  rewrite P at 1. rewrite E. now rewrite <- R.
Qed.

Lemma search_project_sound s : forall g,
  search_project s = Some g ->
  g <> [] /\ ~ In "."%char g
  /\ exists pre post,
       s = pre ++ lit "https://" ++ g ++ lit ".supabase.co" ++ post.
Proof.
  induction s as [|c s IH]; intros g H.
  - vm_compute in H. discriminate.
  - cbn [search_project] in H.
    destruct (match_project_at (c :: s)) as [g'|] eqn:M.
    + injection H as <-.
      destruct (match_project_at_sound _ _ M) as (H1 & H2 & post & E).
      split; [exact H1|]. split; [exact H2|]. exists [], post. exact E.
    + destruct (IH g H) as (H1 & H2 & pre & post & E).
      split; [exact H1|]. split; [exact H2|].
      exists (c :: pre), post. now rewrite E.
Qed.

Lemma match_project_at_canonical pid tail :
  pid <> [] -> ~ In "."%char pid ->
  match_project_at (lit "https://" ++ pid ++ lit ".supabase.co" ++ tail)
  = Some pid.
Proof.
  intros Hne Hdot. unfold match_project_at.
  rewrite starts_with_app.
  change (skipn 8 (lit "https://" ++ pid ++ lit ".supabase.co" ++ tail))
    with (pid ++ "."%char :: (lit "supabase.co" ++ tail)).
  rewrite span_non_dot_app by exact Hdot.
  apply is_empty_false in Hne. rewrite Hne.
  change ("."%char :: lit "supabase.co" ++ tail)
    with (lit ".supabase.co" ++ tail).
  now rewrite starts_with_app.
Qed.

End ConfigFacts.

(** X17.  [validate_config] returns [True] exactly when the OpenAI key,
    the Supabase URL and the Supabase key are set and not empty, and
    never returns anything else; once the module has been imported it
    cannot fail, since the import has already refused these three
    settings, and the database password, when missing or empty. *)
Theorem validate_config_after_import :
  (forall s b, validate_config s = inr b ->
     b = true
     /\ truthy (OPENAI_API_KEY s) = true
     /\ truthy (SUPABASE_URL s) = true
     /\ truthy (SUPABASE_KEY s) = true)
  /\ (forall s,
        truthy (OPENAI_API_KEY s) = true ->
        truthy (SUPABASE_URL s) = true ->
        truthy (SUPABASE_KEY s) = true ->
        validate_config s = inr true)
  /\ (forall getenv s,
        import_config getenv = inr s ->
        validate_config s = inr true
        /\ truthy (SUPABASE_DB_PASSWORD s) = true
        /\ OPENAI_API_KEY s = getenv (lit "OPENAI_API_KEY")
        /\ SUPABASE_URL s = getenv (lit "SUPABASE_URL")
        /\ SUPABASE_KEY s = getenv (lit "SUPABASE_KEY")
        /\ SUPABASE_DB_PASSWORD s = getenv (lit "SUPABASE_DB_PASSWORD")).
Proof.
  split; [|split].
  - intros s b. unfold validate_config, config_errors.
    destruct (truthy (OPENAI_API_KEY s)), (truthy (SUPABASE_URL s)),
      (truthy (SUPABASE_KEY s)); cbn [app]; try discriminate.
    intros H. injection H as <-. repeat split.
  - intros s H1 H2 H3. unfold validate_config, config_errors.
    now rewrite H1, H2, H3.
  - intros getenv s. unfold import_config.
    set (openai := getenv (lit "OPENAI_API_KEY")).
    set (google := getenv (lit "GOOGLE_AI_API_KEY")).
    set (url := getenv (lit "SUPABASE_URL")).
    set (key := getenv (lit "SUPABASE_KEY")).
    set (password := getenv (lit "SUPABASE_DB_PASSWORD")).
    destruct (truthy openai) eqn:E1; cbn [negb]; [|discriminate].
    destruct (truthy url) eqn:E2; cbn [negb orb]; [|discriminate].
    destruct (truthy key) eqn:E3; cbn [negb orb]; [|discriminate].
    destruct (truthy password) eqn:E4; cbn [negb]; [|discriminate].
    intros H. injection H as <-.
    unfold validate_config, config_errors.
    cbn [OPENAI_API_KEY SUPABASE_URL SUPABASE_KEY SUPABASE_DB_PASSWORD].
    rewrite E1, E2, E3. repeat split. exact E4.
Qed.

(** Witness of [validate_config_after_import]: an environment with the
    four settings and without the Google key. *)
Lemma validate_config_after_import_witness :
  exists s, import_config env_example = inr s
            /\ validate_config s = inr true
            /\ GOOGLE_AI_API_KEY s = None.
Proof.
  destruct (import_config env_example) as [e|s] eqn:I;
    [vm_compute in I; discriminate|].
  exists s. split; [reflexivity|].
  destruct validate_config_after_import as (_ & _ & H).
  destruct (H env_example s I) as (Hv & _).
  split; [exact Hv|].
  vm_compute in I. injection I as <-. reflexivity.
Defined.

(** X18.  The project id the indexing extracts from the Supabase URL is
    never empty, has no dot, and stands in the URL between [https://]
    and [.supabase.co].  For a URL [https://<id>.supabase.co] followed
    by anything, with an id that is not empty and has no dot, it is
    that id, so the host is [db.<id>.supabase.co] whatever follows;
    [get_postgres_connection_string] instead keeps what follows, and
    names the same host only when nothing does. *)
Theorem database_host_of_url :
  (forall url project_id,
     search_project url = Some project_id ->
     project_id <> [] /\ ~ In "."%char project_id
     /\ exists pre post,
          url = pre ++ lit "https://" ++ project_id ++ lit ".supabase.co"
                ++ post)
  /\ (forall project_id tail password,
        project_id <> [] -> ~ In "."%char project_id ->
        ~ In ":"%char project_id -> ~ In ":"%char tail ->
        let url := lit "https://" ++ project_id ++ lit ".supabase.co" ++ tail in
        db_host url = Some (lit "db." ++ project_id ++ lit ".supabase.co")
        /\ get_postgres_connection_string url password
           = lit "postgresql://postgres:" ++ password ++ lit "@db."
             ++ project_id ++ lit ".supabase.co" ++ tail
             ++ lit ":5432/postgres").
Proof.
  split.
  - intros url project_id. apply search_project_sound.
  - intros pid tail pw Hne Hdot Hc Hct url. split.
    + unfold db_host, url.
      assert (E : search_project
                    (lit "https://" ++ pid ++ lit ".supabase.co" ++ tail)
                  = Some pid).
      { change (lit "https://" ++ pid ++ lit ".supabase.co" ++ tail)
          with ("h"%char :: (lit "ttps://" ++ pid ++ lit ".supabase.co" ++ tail)).
        cbn [search_project].
        change ("h"%char :: (lit "ttps://" ++ pid ++ lit ".supabase.co" ++ tail))
          with (lit "https://" ++ pid ++ lit ".supabase.co" ++ tail).
        now rewrite match_project_at_canonical. }
      now rewrite E.
    + unfold get_postgres_connection_string, url.
      assert (Hrest : ~ In ":"%char (pid ++ lit ".supabase.co" ++ tail)).
      { intros Hin. apply in_app_or in Hin. destruct Hin as [Hin|Hin]; [tauto|].
        apply in_app_or in Hin. destruct Hin as [Hin|Hin]; [|tauto].
        vm_compute in Hin. intuition discriminate. }
      assert (E1 : replace (lit "https://") []
                     (lit "https://" ++ pid ++ lit ".supabase.co" ++ tail)
                   = pid ++ lit ".supabase.co" ++ tail).
      { change (replace (lit "https://") []
                  (lit "https://" ++ pid ++ lit ".supabase.co" ++ tail))
          with (replace (lit "https://") [] (pid ++ lit ".supabase.co" ++ tail)).
        apply replace_absent with ":"%char; [|exact Hrest].
        vm_compute. tauto. }
      rewrite E1.
      rewrite (replace_absent (lit "http://") [] ":"%char); [|vm_compute; tauto|exact Hrest].
      rewrite <- !app_assoc. reflexivity.
Qed.

(** Witness of [database_host_of_url]: the URL of the example in
    [config.py], and the same URL with a slash after it. *)
Lemma database_host_of_url_witness :
  db_host (lit "https://kssdybrlodgkjopindol.supabase.co")
  = Some (lit "db.kssdybrlodgkjopindol.supabase.co")
  /\ get_postgres_connection_string
       (lit "https://kssdybrlodgkjopindol.supabase.co/") (lit "pw")
     = lit "postgresql://postgres:pw@db.kssdybrlodgkjopindol.supabase.co/:5432/postgres".
Proof.
  destruct database_host_of_url as (_ & H).
  split.
  - apply (H (lit "kssdybrlodgkjopindol") [] (lit "pw"));
      vm_compute; intuition discriminate.
  - apply (H (lit "kssdybrlodgkjopindol") (lit "/") (lit "pw"));
      vm_compute; intuition discriminate.
Defined.
